(** * YASK: named-dimension tuples (src/common/tuple.hpp) and folded real
    vectors (src/realv.hpp), embedded shallowly.

    [Tuple<T>] is embedded at [T = idx_t = int64_t] (the index type that
    realv.hpp declares for grids and vector elements): a value of [T] is a
    [Z], arithmetic in [T] wraps to 64 signed bits ([wrapT]), a conversion
    [size_t(v)] is [v mod 2^64] ([to_size_t]) and [size_t] arithmetic wraps
    modulo [2^64].  An [assert] that fires is the result [None]. *)

From Stdlib Require Import ZArith List String Ascii Bool Lia Permutation.
From Stdlib Require Import SpecFloat.
Import ListNotations.
Local Open Scope Z_scope.

(* ================================================================== *)
(** ** Machine integers *)

Definition size_t_modulus : Z := 2 ^ 64.

(** [size_t(v)] for a 64-bit signed [v]. *)
Definition to_size_t (v : Z) : Z := v mod size_t_modulus.

(** Result of an [int64_t] operation whose mathematical value is [v]. *)
Definition wrapT (v : Z) : Z := (v + 2 ^ 63) mod 2 ^ 64 - 2 ^ 63.

Definition in_T (v : Z) : Prop := - 2 ^ 63 <= v < 2 ^ 63.

(* ================================================================== *)
(** ** Scalar<T>: one named value *)

Record Scalar : Type := mkScalar { getName : string; getVal : Z }.

Definition Scalar_setVal (s : Scalar) (v : Z) : Scalar :=
  mkScalar (getName s) v.

(* ================================================================== *)
(** ** Tuple<T> *)

(** [_q] is the deque of scalars in order.  The member [_map] (interned
    name to the address of the value inside [_q]) is rebuilt by every
    copy and refreshed by every insertion, so a lookup through it is a
    search of [_q] by name; deque elements keep their address under
    [push_back] and [push_front]. *)
Record Tuple : Type := mkTuple { _q : list Scalar; _firstInner : bool }.

(** [Tuple() {}]: no dimensions, [_firstInner = true]. *)
Definition Tuple_new : Tuple := mkTuple [] true.

Definition dimNames (t : Tuple) : list string := map getName (_q t).

(** Names are unique within one tuple. *)
Definition wf (t : Tuple) : Prop := NoDup (dimNames t).

Definition size (t : Tuple) : Z := Z.of_nat (List.length (_q t)).

Fixpoint lookup_q (q : list Scalar) (dim : string) : option Z :=
  match q with
  | [] => None
  | s :: q' => if String.eqb (getName s) dim then Some (getVal s)
               else lookup_q q' dim
  end.

(** [lookup(dim)]: the value, or [None] for the null pointer. *)
Definition lookup (t : Tuple) (dim : string) : option Z := lookup_q (_q t) dim.

(** Write through the pointer that [lookup(dim)] returns. *)
Fixpoint store_q (q : list Scalar) (dim : string) (v : Z) : list Scalar :=
  match q with
  | [] => []
  | s :: q' => if String.eqb (getName s) dim then Scalar_setVal s v :: q'
               else s :: store_q q' dim v
  end.

(** [setVal(dim, val)]: [assert(p)] on the looked-up pointer. *)
Definition setVal (t : Tuple) (dim : string) (v : Z) : option Tuple :=
  match lookup t dim with
  | Some _ => Some (mkTuple (store_q (_q t) dim v) (_firstInner t))
  | None => None
  end.

(** [getVal(dim)]: [assert(p)] on the looked-up pointer. *)
Definition Tuple_getVal (t : Tuple) (dim : string) : option Z := lookup t dim.

Definition addDimBack (t : Tuple) (dim : string) (v : Z) : Tuple :=
  match lookup t dim with
  | Some _ => mkTuple (store_q (_q t) dim v) (_firstInner t)
  | None => mkTuple (_q t ++ [mkScalar dim v]) (_firstInner t)
  end.

Definition addDimFront (t : Tuple) (dim : string) (v : Z) : Tuple :=
  match lookup t dim with
  | Some _ => mkTuple (store_q (_q t) dim v) (_firstInner t)
  | None => mkTuple (mkScalar dim v :: _q t) (_firstInner t)
  end.

(** A tuple written down as the calls that build it. *)
Definition mk (fi : bool) (l : list (string * Z)) : Tuple :=
  fold_left (fun t p => addDimBack t (fst p) (snd p)) l (mkTuple [] fi).

(** The body of the loop of [makeUnionWith]. *)
Definition union_step (u : Tuple) (i : Scalar) : Tuple :=
  match lookup u (getName i) with
  | None => addDimBack u (getName i) (getVal i)
  | Some _ => u
  end.

(** [makeUnionWith(rhs)]: [u] starts as a copy of [this]. *)
Definition makeUnionWith (this rhs : Tuple) : Tuple :=
  fold_left union_step (_q rhs) this.

(** [areDimsSame(rhs)]. *)
Definition areDimsSame (this rhs : Tuple) : bool :=
  if negb (size this =? size rhs) then false
  else forallb
         (fun i => match lookup rhs (getName i) with
                   | Some _ => true
                   | None => false
                   end)
         (_q this).

(** [removeDim(dim)]: the new tuple starts from [Tuple()]. *)
Definition removeDim (this : Tuple) (dim : string) : Tuple :=
  fold_left
    (fun newt i =>
       if negb (String.eqb dim (getName i))
       then addDimBack newt (getName i) (getVal i)
       else newt)
    (_q this) Tuple_new.

(** The test [dim != tdim] of [removeDim]. *)
Definition keeps (dim : string) (i : Scalar) : bool :=
  negb (String.eqb dim (getName i)).

(** The test [!p] of [makeUnionWith] against the tuple [this]. *)
Definition absent_from (this : Tuple) (i : Scalar) : bool :=
  match lookup this (getName i) with
  | None => true
  | Some _ => false
  end.

(** [combineElements(combiner, rhs, strictRhs)]: here the new value is
    written with [newt.setVal]. *)
Definition combineElements (combiner : Z -> Z -> Z) (this rhs : Tuple)
           (strictRhs : bool) : option Tuple :=
  if strictRhs && negb (areDimsSame this rhs) then None
  else
    fold_left
      (fun (nt : option Tuple) (i : Scalar) =>
         match nt with
         | None => None
         | Some newt =>
             match lookup rhs (getName i) with
             | Some r => setVal newt (getName i) (combiner (getVal i) r)
             | None => Some newt
             end
         end)
      (_q this) (Some this).

(** [reduce(reducer)]: [result] starts at 0, the first value replaces it,
    every later value is folded in. *)
Definition reduce (reducer : Z -> Z -> Z) (this : Tuple) : Z :=
  fst (fold_left
         (fun (st : Z * Z) i =>
            let '(result, n) := st in
            ((if n =? 0 then getVal i else reducer result (getVal i)), n + 1))
         (_q this) (0, 0)).

Definition sum (this : Tuple) : Z :=
  reduce (fun lhs rhs => wrapT (lhs + rhs)) this.

(** [_map.size()] is the number of dimensions. *)
Definition product (this : Tuple) : Z :=
  if negb (size this =? 0)
  then reduce (fun lhs rhs => wrapT (lhs * rhs)) this
  else 1.

Definition max (this : Tuple) : Z := reduce Z.max this.
Definition min (this : Tuple) : Z := reduce Z.min this.

(** [for (auto i : c) { body }]: the loop variable is a copy of the
    element, the body acts on the copy and the copy is dropped at the end
    of the iteration; the container keeps its elements. *)
Definition for_auto_copy (body : Scalar -> Scalar) (c : list Scalar)
  : list Scalar :=
  fold_left (fun (c' : list Scalar) (elem : Scalar) =>
               let i := body elem in c')
            c c.

(** [for (auto& i : c) { body }]: the loop variable is the element. *)
Definition for_auto_ref (body : Scalar -> Scalar) (c : list Scalar)
  : list Scalar :=
  map body c.

(** The body of the loop of [mapElements]:
    [auto& tval = i.getVal(); tval = func(tval, rhs);]. *)
Definition mapElements_body (func : Z -> Z -> Z) (rhs : Z) (i : Scalar)
  : Scalar :=
  Scalar_setVal i (func (getVal i) rhs).

(** [mapElements(func, rhs)]: the loop is [for (auto i : newt._q)]. *)
Definition mapElements (func : Z -> Z -> Z) (rhs : Z) (this : Tuple) : Tuple :=
  let newt := this in
  mkTuple (for_auto_copy (mapElements_body func rhs) (_q newt))
          (_firstInner newt).

Definition addElements_c (rhs : Z) (this : Tuple) : Tuple :=
  mapElements (fun lhs rhs => wrapT (lhs + rhs)) rhs this.
Definition multElements_c (rhs : Z) (this : Tuple) : Tuple :=
  mapElements (fun lhs rhs => wrapT (lhs * rhs)) rhs this.
Definition maxElements_c (rhs : Z) (this : Tuple) : Tuple :=
  mapElements Z.max rhs this.
Definition minElements_c (rhs : Z) (this : Tuple) : Tuple :=
  mapElements Z.min rhs this.

(* ================================================================== *)
(** ** layout: n-D offsets to a 1-D index *)

(** The dimensions in the order the loop of [layout] meets them:
    [di = 0, 1, ..] when [_firstInner], [di = size()-1, .., 0] otherwise. *)
Definition layout_dims (this : Tuple) : list Scalar :=
  if _firstInner this then _q this else rev (_q this).

(** One iteration of the loop.  The state is [(idx, prevSize)]; the
    assertions [dsize >= 0], [offset >= 0] and [idx >= 0] compare a
    [size_t] with 0 and never fire. *)
Definition layout_step (this offsets : Tuple)
           (st : option (Z * Z)) (i : Scalar) : option (Z * Z) :=
  match st with
  | None => None
  | Some (idx, prevSize) =>
      let dsize := to_size_t (getVal i) in
      let offset := match lookup offsets (getName i) with
                    | Some o => to_size_t o
                    | None => 0
                    end in
      if negb (offset <? dsize) then None else
      let idx := (idx + offset * prevSize) mod size_t_modulus in
      if negb (idx <? to_size_t (product this)) then None else
      let prevSize := (prevSize * dsize) mod size_t_modulus in
      if negb (prevSize <=? to_size_t (product this)) then None else
      Some (idx, prevSize)
  end.

Definition layout (this offsets : Tuple) (strictRhs : bool) : option Z :=
  if strictRhs && negb (areDimsSame this offsets) then None
  else option_map fst
         (fold_left (layout_step this offsets) (layout_dims this) (Some (0, 1))).

(** The offset that [layout] uses for the dimension of [i]: the value
    found in [offsets], 0 when there is none. *)
Definition offset_of (offsets : Tuple) (i : Scalar) : Z :=
  match lookup offsets (getName i) with
  | Some o => o
  | None => 0
  end.

(** The offsets restricted to the dimensions of [this], 0 where
    [offsets] has none. *)
Definition offsets_on (this offsets : Tuple) : Tuple :=
  mkTuple (map (fun i => mkScalar (getName i) (offset_of offsets i)) (_q this))
          (_firstInner offsets).

(** The mathematical product of the values. *)
Definition extent_product (q : list Scalar) : Z :=
  fold_right (fun i acc => getVal i * acc) 1 q.

(** [offsets] is a point of the box whose extents are the dimensions
    [q]. *)
Definition in_box (q : list Scalar) (offsets : Tuple) : Prop :=
  forall i, In i q -> 0 <= offset_of offsets i < getVal i.

(** The accumulation of the specification for one dimension:
    [index += offsetInDim * runningProduct;
     runningProduct *= extentOfDim]. *)
Definition lin_step (offsets : Tuple) (st : Z * Z) (dim : Scalar) : Z * Z :=
  let '(index, runningProduct) := st in
  (index + offset_of offsets dim * runningProduct, runningProduct * getVal dim).

(** The specification's wording of [linearize]: the dimensions are
    visited from dimension 0 when first-inner is true, from the last one
    otherwise, accumulating as above from index 0 and running product
    1. *)
Definition linearize_spec (this offsets : Tuple) : Z :=
  fst (fold_left (lin_step offsets)
                 (if _firstInner this then _q this else rev (_q this))
                 (0, 1)).

(** The index of the point [p] when the dimensions [V] are read from
    the slowest-varying one to the fastest. *)
Definition horner (V : list Scalar) (p : Tuple) (acc : Z) : Z :=
  fold_left (fun acc i => acc * getVal i + offset_of p i) V acc.

(** The same index with the dimensions [L] read from the fastest. *)
Definition mixed_radix (L : list Scalar) (p : Tuple) : Z :=
  fold_right (fun i a => offset_of p i + getVal i * a) 0 L.

(** The dimensions from the outermost loop of [visitAllPoints] inwards. *)
Definition visit_dims (this : Tuple) : list Scalar :=
  if _firstInner this then rev (_q this) else _q this.

(** [lo, lo + 1, .., lo + n - 1]. *)
Definition zrange (lo : Z) (n : nat) : list Z :=
  map (fun k => lo + Z.of_nat k) (seq 0 n).

(* ================================================================== *)
(** ** visitAllPoints *)

(** [for (T i = lo; ...; i++)] run [n] times from [lo]; the body may
    abort. *)
Fixpoint for_T {S : Type} (n : nat) (i : Z)
         (body : Z -> S -> option S) (s : S) : option S :=
  match n with
  | O => Some s
  | Datatypes.S n' =>
      match body i s with
      | Some s' => for_T n' (i + 1) body s'
      | None => None
      end
  end.

(** The recursive [visitAllPoints(visitor, curDimNum, step, tp)].  The
    state is the list of the tuples the visitor has been called with so
    far, and [tp], the one tuple object that every call shares and
    [setVal] changes.  [fuel] bounds the depth of the recursion, which is
    at most [size() + 1]. *)
Fixpoint visitAllPoints_rec (fuel : nat) (this : Tuple) (curDimNum step : Z)
         (st : list Tuple * Tuple) : option (list Tuple * Tuple) :=
  match fuel with
  | O => None
  | Datatypes.S fuel' =>
      if (curDimNum <? 0) || (curDimNum >=? size this)
      then Some (fst st ++ [snd st], snd st)
      else
        match nth_error (_q this) (Z.to_nat curDimNum) with
        | None => None
        | Some sc =>
            for_T (Z.to_nat (getVal sc)) 0
                  (fun i st =>
                     match setVal (snd st) (getName sc) i with
                     | Some tp' =>
                         visitAllPoints_rec fuel' this (curDimNum + step) step
                                            (fst st, tp')
                     | None => None
                     end)
                  st
        end
  end.

(** The public [visitAllPoints(visitor)]: the tuples passed to the
    visitor, in call order. *)
Definition visitAllPoints (this : Tuple) : option (list Tuple) :=
  let tp := this in
  let fuel := Datatypes.S (List.length (_q this)) in
  if size this =? 0 then Some [tp]
  else if _firstInner this
       then option_map fst
              (visitAllPoints_rec fuel this (size this - 1) (-1) ([], tp))
       else option_map fst (visitAllPoints_rec fuel this 0 1 ([], tp)).

(** The same recursion over the dimensions still to visit: [dims] holds
    [_q.at(curDimNum)], [_q.at(curDimNum + step)], .. up to the end of
    the deque in the direction of [step]. *)
Fixpoint visit_list (dims : list Scalar)
         (st : list Tuple * Tuple) : option (list Tuple * Tuple) :=
  match dims with
  | [] => Some (fst st ++ [snd st], snd st)
  | sc :: rest =>
      for_T (Z.to_nat (getVal sc)) 0
            (fun i st =>
               match setVal (snd st) (getName sc) i with
               | Some tp' => visit_list rest (fst st, tp')
               | None => None
               end)
            st
  end.

(** What a call of [visit_list] on the dimensions [V] does:
    it returns, appends calls of the visitor to the ones made so far,
    leaves in [tp] the names and the values of the other dimensions, and
    the tuples it passes are the points of the box [V] in index order. *)
Definition visit_ok (V : list Scalar) : Prop :=
  forall (tr : list Tuple) (tp : Tuple) (acc : Z),
    (forall sc, In sc V -> In (getName sc) (dimNames tp)) ->
    exists (new : list Tuple) (tp' : Tuple),
      visit_list V (tr, tp) = Some (tr ++ new, tp') /\
      dimNames tp' = dimNames tp /\
      _firstInner tp' = _firstInner tp /\
      (forall d, ~ In d (map getName V) -> lookup tp' d = lookup tp d) /\
      (forall p, In p new ->
                 dimNames p = dimNames tp /\
                 _firstInner p = _firstInner tp /\
                 (forall d, ~ In d (map getName V) -> lookup p d = lookup tp d) /\
                 in_box V p) /\
      map (fun p => horner V p acc) new
      = zrange (acc * extent_product V) (Z.to_nat (extent_product V)).

(* ================================================================== *)
(** ** Comparison operators *)

(** [makeDimStr(separator, prefix, suffix)]. *)
Definition makeDimStr_with (separator prefix suffix : string)
           (this : Tuple) : string :=
  fst (fold_left
         (fun (st : string * Z) i =>
            let '(oss, n) := st in
            let oss := String.append oss
                         (if negb (n =? 0) then separator else EmptyString) in
            (String.append oss
               (String.append prefix (String.append (getName i) suffix)),
             n + 1))
         (_q this) (EmptyString, 0)).

Definition makeDimStr : Tuple -> string := makeDimStr_with ", " "" "".

(** The loop of [operator==]. *)
Fixpoint eq_loop (q : list Scalar) (rhs : Tuple) : option bool :=
  match q with
  | [] => Some true
  | i :: q' =>
      match Tuple_getVal rhs (getName i) with
      | None => None
      | Some rval => if negb (getVal i =? rval) then Some false
                     else eq_loop q' rhs
      end
  end.

Definition Tuple_eq (this rhs : Tuple) : option bool :=
  if negb (areDimsSame this rhs) then Some false
  else eq_loop (_q this) rhs.

(** The loop of [operator<]. *)
Fixpoint lt_loop (q : list Scalar) (rhs : Tuple) : option bool :=
  match q with
  | [] => Some false
  | i :: q' =>
      match Tuple_getVal rhs (getName i) with
      | None => None
      | Some rval => if getVal i <? rval then Some true
                     else if getVal i >? rval then Some false
                     else lt_loop q' rhs
      end
  end.

Definition Tuple_lt (this rhs : Tuple) : option bool :=
  if size this <? size rhs then Some true
  else if size this >? size rhs then Some false
  else if areDimsSame this rhs then lt_loop (_q this) rhs
  else Some (String.ltb (makeDimStr this) (makeDimStr rhs)).

Definition Tuple_ne (this rhs : Tuple) : option bool :=
  option_map negb (Tuple_eq this rhs).

Definition Tuple_le (this rhs : Tuple) : option bool :=
  match Tuple_eq this rhs with
  | Some true => Some true
  | Some false => Tuple_lt this rhs
  | None => None
  end.

Definition Tuple_gt (this rhs : Tuple) : option bool :=
  option_map negb (Tuple_le this rhs).

Definition Tuple_ge (this rhs : Tuple) : option bool :=
  option_map negb (Tuple_lt this rhs).


(** A comparison holds when it returns [true]. *)
Definition holds (r : option bool) : Prop := r = Some true.

Definition exactly_one (P Q R : Prop) : Prop :=
  (P /\ ~ Q /\ ~ R) \/ (~ P /\ Q /\ ~ R) \/ (~ P /\ ~ Q /\ R).

(** Exactly one of [a < b], [b < a], [a == b]. *)
Definition trichotomy (a b : Tuple) : Prop :=
  exactly_one (holds (Tuple_lt a b)) (holds (Tuple_lt b a))
              (holds (Tuple_eq a b)).

(** Two tuples on which the three branches of [operator<] agree in both
    directions: different counts, or the same names in the same order, or
    different name sets with different name strings. *)
Definition same_branch (a b : Tuple) : Prop :=
  size a <> size b \/
  dimNames a = dimNames b \/
  (areDimsSame a b = false /\ makeDimStr a <> makeDimStr b).

(** The first difference between two value lists decides. *)
Fixpoint lex_ltb (u v : list Z) : bool :=
  match u, v with
  | x :: u', y :: v' => if x <? y then true
                        else if x >? y then false
                        else lex_ltb u' v'
  | _, _ => false
  end.

Fixpoint list_eqb (u v : list Z) : bool :=
  match u, v with
  | x :: u', y :: v' => if negb (x =? y) then false else list_eqb u' v'
  | _, _ => true
  end.

(* ================================================================== *)
(** ** realv.hpp: folded vectors *)

(** [for (int i = lo; i < hi; i++)]. *)
Definition for_int {S : Type} (lo hi : Z)
           (body : Z -> S -> option S) (s : S) : option S :=
  for_T (Z.to_nat (hi - lo)) lo body s.

Section RealVec.
(** [real_t] is only moved between lanes here. *)
Variable real_t : Type.
(** The build-time constant [VLEN]. *)
Variable VLEN : Z.

(** The array [u.r] of a [real_vec_t]: [VLEN] lanes. *)
Definition real_vec_t : Type := list real_t.

Definition is_vec (v : real_vec_t) : Prop := Z.of_nat (List.length v) = VLEN.

(** Read [v.u.r[i]]; an index outside the array has no value. *)
Definition rd (v : real_vec_t) (i : Z) : option real_t :=
  if (0 <=? i) && (i <? VLEN) then nth_error v (Z.to_nat i) else None.

Fixpoint set_nth (n : nat) (x : real_t) (v : list real_t) : list real_t :=
  match v with
  | [] => []
  | y :: v' => match n with
               | O => x :: v'
               | Datatypes.S n' => y :: set_nth n' x v'
               end
  end.

(** Write [v.u.r[i] = x]. *)
Definition wr (v : real_vec_t) (i : Z) (x : real_t) : option real_vec_t :=
  if (0 <=? i) && (i <? VLEN) && (i <? Z.of_nat (List.length v))
  then Some (set_nth (Z.to_nat i) x v) else None.

(** [real_vec_align<count>(res, a, b)], the [NO_INTRINSICS] branch.
    The result is the content of [res] on return. *)
Definition real_vec_align (count : Z) (res a b : real_vec_t)
  : option real_vec_t :=
  let tmpa := a in
  let tmpb := b in
  match for_int 0 (VLEN - count)
                (fun i res =>
                   match rd tmpb (i + count) with
                   | Some x => wr res i x
                   | None => None
                   end) res with
  | None => None
  | Some res =>
      for_int (VLEN - count) VLEN
              (fun i res =>
                 match rd tmpa (i + count - VLEN) with
                 | Some x => wr res i x
                 | None => None
                 end) res
  end.

(** The [USE_INTRIN256] branch: [r2] holds [b] then [a]; the result is
    the [VLEN] lanes of [r2] from [count]. *)
Definition real_vec_align_256 (count : Z) (a b : real_vec_t)
  : option real_vec_t :=
  let r2 := b ++ a in
  if (0 <=? count) && (count <=? VLEN)
  then Some (firstn (Z.to_nat VLEN) (skipn (Z.to_nat count) r2))
  else None.
End RealVec.

Arguments rd {real_t} VLEN v i.
Arguments wr {real_t} VLEN v i x.
Arguments is_vec {real_t} VLEN v.
Arguments set_nth {real_t} n x v.
Arguments real_vec_align {real_t} VLEN count res a b.
Arguments real_vec_align_256 {real_t} VLEN count a b.

(** The specification's wording of [align]: [a] concatenated after [b]
    (lane 0 is the rightmost lane, so [b] holds the low indices), shifted
    right by [count] lanes, the rightmost [VLEN] lanes kept. *)
Definition align_spec {real_t : Type} (VLEN count : Z)
           (a b : list real_t) : list real_t :=
  firstn (Z.to_nat VLEN) (skipn (Z.to_nat count) (b ++ a)).

(* ------------------------------------------------------------------ *)
(** *** within_tolerance, at [real_t = double] ([REAL_BYTES == 8]) *)

(** IEEE-754 binary64, round to nearest even. *)
Definition prec64 : Z := 53.
Definition emax64 : Z := 1024.
Definition double : Type := spec_float.
(** [x] is a value of the format: its mantissa and exponent are in
    range. *)
Definition valid_double (x : double) : Prop :=
  valid_binary prec64 emax64 x = true.

Definition fsub : double -> double -> double := SFsub prec64 emax64.
Definition fmul : double -> double -> double := SFmul prec64 emax64.
Definition fabs : double -> double := SFabs.
(** [x < y] and [x > y] on doubles. *)
Definition flt (x y : double) : bool := SFltb x y.
Definition fgt (x y : double) : bool := SFltb y x.

Definition d_zero : double := S754_zero false.
(** [1.0]. *)
Definition d_one : double := S754_finite false 4503599627370496 (-52).

Definition is_finite (x : double) : bool :=
  match x with
  | S754_zero _ | S754_finite _ _ _ => true
  | _ => false
  end.

(** [within_tolerance<T>(val, ref, epsilon)]. *)
Definition within_tolerance (val ref epsilon : double) : bool :=
  let adiff := fabs (fsub val ref) in
  let epsilon := if fgt (fabs ref) d_one
                 then fabs (fmul ref epsilon)
                 else epsilon in
  let ok := flt adiff epsilon in
  ok.

(** [x <= y] on doubles. *)
Definition fle (x y : double) : bool := SFleb x y.

(** The specification's wording of the test on one lane:
    [|value - reference| < effectiveEpsilon], where [effectiveEpsilon]
    is [epsilon] if [|reference| <= 1], else [epsilon * |reference|]. *)
Definition spec_within_tolerance (value reference epsilon : double) : bool :=
  let effectiveEpsilon := if fle (fabs reference) d_one then epsilon
                          else fmul epsilon (fabs reference) in
  flt (fabs (fsub value reference)) effectiveEpsilon.

(** The sign bit of [x] is clear, or [x] is a NaN. *)
Definition sign_clear (x : double) : bool :=
  match x with
  | S754_zero s | S754_infinity s | S754_finite s _ _ => negb s
  | S754_nan => true
  end.

(** Some doubles: [2.0], [-1.0], [1000.0], [1000.5], and the doubles
    nearest to [1e-3] and [0.0005]. *)
Definition d_two : double := S754_finite false 4503599627370496 (-51).
Definition d_minus_one : double := S754_finite true 4503599627370496 (-52).
Definition d_1000 : double := S754_finite false 8796093022208000 (-43).
Definition d_1000_5 : double := S754_finite false 8800491068719104 (-43).
Definition d_1e_3 : double := S754_finite false 4611686018427388 (-62).
Definition d_0_0005 : double := S754_finite false 4611686018427388 (-63).

(** The loop of [within_tolerance(const real_vec_t&, ..)] from lane [j]. *)
Fixpoint within_tolerance_loop (VLEN : Z) (n : nat) (j : Z)
         (val ref epsilon : real_vec_t double) : option bool :=
  match n with
  | O => Some true
  | Datatypes.S n' =>
      match rd VLEN val j, rd VLEN ref j, rd VLEN epsilon j with
      | Some v, Some r, Some e =>
          if negb (within_tolerance v r e) then Some false
          else within_tolerance_loop VLEN n' (j + 1) val ref epsilon
      | _, _, _ => None
      end
  end.

Definition within_tolerance_vec (VLEN : Z)
           (val ref epsilon : real_vec_t double) : option bool :=
  within_tolerance_loop VLEN (Z.to_nat VLEN) 0 val ref epsilon.

(* ================================================================== *)
(** ** Tuple: access by index, bulk assignment, directions *)

(** [getDimPtr(i)]: the scalar at index [i], [None] for the null
    pointer. *)
Definition getDimPtr (t : Tuple) (i : Z) : option Scalar :=
  if (0 <=? i) && (i <? size t) then nth_error (_q t) (Z.to_nat i) else None.

(** [getDimName(i)]: [assert(p)]. *)
Definition getDimName (t : Tuple) (i : Z) : option string :=
  option_map getName (getDimPtr t i).

(** [lookup(int i)]: the value at index [i], [None] for the null
    pointer; [getVal(int i)] asserts on it. *)
Definition lookup_at (t : Tuple) (i : Z) : option Z :=
  if (0 <=? i) && (i <? size t)
  then option_map getVal (nth_error (_q t) (Z.to_nat i))
  else None.

(** Write through the pointer that [lookup(int i)] returns. *)
Fixpoint store_at (q : list Scalar) (n : nat) (v : Z) : list Scalar :=
  match q with
  | [] => []
  | s :: q' => match n with
               | O => Scalar_setVal s v :: q'
               | Datatypes.S n' => s :: store_at q' n' v
               end
  end.

(** [setVal(int i, val)]: [assert(p)] on the looked-up pointer. *)
Definition setVal_at (t : Tuple) (i : Z) (v : Z) : option Tuple :=
  match lookup_at t i with
  | Some _ => Some (mkTuple (store_at (_q t) (Z.to_nat i) v) (_firstInner t))
  | None => None
  end.

(** [clear()]. *)
Definition clear (t : Tuple) : Tuple := mkTuple [] (_firstInner t).

(** [setVals(const std::vector<T>& vals)]: [vals.at(i)] throws outside
    the vector. *)
Definition setVals (t : Tuple) (vals : list Z) : option Tuple :=
  let end_ := Z.min (Z.of_nat (List.length vals)) (Z.of_nat (List.length (_q t))) in
  for_int 0 end_
          (fun i t =>
             match nth_error vals (Z.to_nat i) with
             | Some v => setVal_at t i v
             | None => None
             end)
          t.

(** [setValsSame(val)]: the loop is [for (auto& i : _q)]. *)
Definition setValsSame (t : Tuple) (val : Z) : Tuple :=
  mkTuple (for_auto_ref (fun i => Scalar_setVal i val) (_q t)) (_firstInner t).

(** The body of the loop of [setVals(src, addMissing)]. *)
Definition setVals_step (addMissing : bool) (this : Tuple) (i : Scalar) : Tuple :=
  match lookup this (getName i) with
  | Some _ => mkTuple (store_q (_q this) (getName i) (getVal i)) (_firstInner this)
  | None => if addMissing then addDimBack this (getName i) (getVal i) else this
  end.

(** [setVals(const Tuple& src, bool addMissing)]. *)
Definition setVals_from (this src : Tuple) (addMissing : bool) : Tuple :=
  fold_left (setVals_step addMissing) (_q src) this.

(** The pair-wise operations on two tuples. *)
Definition addElements (this rhs : Tuple) (strictRhs : bool) : option Tuple :=
  combineElements (fun lhs rhs => wrapT (lhs + rhs)) this rhs strictRhs.
Definition multElements (this rhs : Tuple) (strictRhs : bool) : option Tuple :=
  combineElements (fun lhs rhs => wrapT (lhs * rhs)) this rhs strictRhs.
Definition maxElements (this rhs : Tuple) (strictRhs : bool) : option Tuple :=
  combineElements Z.max this rhs strictRhs.
Definition minElements (this rhs : Tuple) (strictRhs : bool) : option Tuple :=
  combineElements Z.min this rhs strictRhs.

(** [getValInDir(dir)]. *)
Definition getValInDir (this : Tuple) (dir : Scalar) : option Z :=
  Tuple_getVal this (getName dir).

(** [getDirInDim(dim)]: [assert(p)]. *)
Definition getDirInDim (this : Tuple) (dim : string) : option Scalar :=
  option_map (mkScalar dim) (lookup this dim).

(** The loop of [isInlineInDir]. *)
Fixpoint inline_loop (q : list Scalar) (t2 : Tuple) (dname : string)
  : option bool :=
  match q with
  | [] => Some true
  | i :: q' =>
      match Tuple_getVal t2 (getName i) with
      | None => None
      | Some val2 =>
          if negb (String.eqb (getName i) dname) && negb (getVal i =? val2)
          then Some false
          else inline_loop q' t2 dname
      end
  end.

(** [isInlineInDir(t2, dir)]: [assert(areDimsSame(t2))]. *)
Definition isInlineInDir (this t2 : Tuple) (dir : Scalar) : option bool :=
  if negb (areDimsSame this t2) then None
  else inline_loop (_q this) t2 (getName dir).

(** [isAheadOfInDir(t2, dir)]. *)
Definition isAheadOfInDir (this t2 : Tuple) (dir : Scalar) : option bool :=
  if negb (areDimsSame this t2) then None
  else
    let dn := getName dir in
    let dv := getVal dir in
    match Tuple_getVal this dn, Tuple_getVal t2 dn with
    | Some tv, Some v2 =>
        match isInlineInDir this t2 dir with
        | Some true => Some (((dv >? 0) && (tv >? v2)) || ((dv <? 0) && (tv <? v2)))
        | Some false => Some false
        | None => None
        end
    | _, _ => None
    end.

(** The mathematical sum of the values. *)
Definition value_sum (q : list Scalar) : Z :=
  fold_right (fun i acc => getVal i + acc) 0 q.

(* ================================================================== *)
(** ** realv.hpp: masked alignment, permutations, memory transfer *)

(** [(k1 >> i) & 1] for the [unsigned int k1]; a shift count outside
    [0, 32) has no defined result. *)
Definition mask_bit (k1 i : Z) : option bool :=
  if (0 <=? i) && (i <? 32)
  then Some (negb (Z.land (Z.shiftr k1 i) 1 =? 0))
  else None.

(** [if ((k1 >> i) & 1) res.u.r[i] = src], where [src i] is the lane
    read on the right-hand side. *)
Definition masked_write {real_t : Type} (VLEN k1 : Z)
           (src : Z -> option real_t) (i : Z) (res : list real_t)
  : option (list real_t) :=
  match mask_bit k1 i with
  | None => None
  | Some false => Some res
  | Some true => match src i with
                 | Some x => wr VLEN res i x
                 | None => None
                 end
  end.

(** [real_vec_align_masked<count>(res, a, b, k1)], the emulated
    branch. *)
Definition real_vec_align_masked {real_t : Type} (VLEN count : Z)
           (res a b : list real_t) (k1 : Z) : option (list real_t) :=
  let tmpa := a in
  let tmpb := b in
  match for_int 0 (VLEN - count)
                (masked_write VLEN k1 (fun i => rd VLEN tmpb (i + count))) res with
  | None => None
  | Some res =>
      for_int (VLEN - count) VLEN
              (masked_write VLEN k1 (fun i => rd VLEN tmpa (i + count - VLEN))) res
  end.

(** The lane [tmp.u.r[ctrl.u.ci[i]]]; [ctrl_ci] is the array [u.ci] that
    overlays the lanes of [ctrl]. *)
Definition permute_src {real_t : Type} (VLEN : Z) (ctrl_ci : list Z)
           (tmp : list real_t) (i : Z) : option real_t :=
  match rd VLEN ctrl_ci i with
  | Some c => rd VLEN tmp c
  | None => None
  end.

(** [real_vec_permute(res, ctrl, a)], the emulated branch. *)
Definition real_vec_permute {real_t : Type} (VLEN : Z)
           (res : list real_t) (ctrl_ci : list Z) (a : list real_t)
  : option (list real_t) :=
  let tmp := a in
  for_int 0 VLEN
          (fun i res => match permute_src VLEN ctrl_ci tmp i with
                        | Some x => wr VLEN res i x
                        | None => None
                        end)
          res.

(** [real_vec_permute_masked(res, ctrl, a, k1)], the emulated branch. *)
Definition real_vec_permute_masked {real_t : Type} (VLEN : Z)
           (res : list real_t) (ctrl_ci : list Z) (a : list real_t) (k1 : Z)
  : option (list real_t) :=
  let tmp := a in
  for_int 0 VLEN (masked_write VLEN k1 (permute_src VLEN ctrl_ci tmp)) res.

(** [ctrl_idx_mask] and [ctrl_sel_bit] for [REAL_BYTES] 4 and 8. *)
Definition ctrl_idx_mask (REAL_BYTES : Z) : Z :=
  if REAL_BYTES =? 4 then 15 else 7.
Definition ctrl_sel_bit (REAL_BYTES : Z) : Z :=
  if REAL_BYTES =? 4 then 16 else 8.

(** The lane [sel ? tmpb.u.r[idx] : tmpa.u.r[idx]] of
    [real_vec_permute2]. *)
Definition permute2_src {real_t : Type} (REAL_BYTES VLEN : Z)
           (ctrl_ci : list Z) (tmpa tmpb : list real_t) (i : Z)
  : option real_t :=
  match rd VLEN ctrl_ci i with
  | Some c =>
      let sel := Z.land c (ctrl_sel_bit REAL_BYTES) in
      let idx := Z.land c (ctrl_idx_mask REAL_BYTES) in
      if negb (sel =? 0) then rd VLEN tmpb idx else rd VLEN tmpa idx
  | None => None
  end.

(** [real_vec_permute2(res, ctrl, a, b)], the emulated branch. *)
Definition real_vec_permute2 {real_t : Type} (REAL_BYTES VLEN : Z)
           (res : list real_t) (ctrl_ci : list Z) (a b : list real_t)
  : option (list real_t) :=
  let tmpa := a in
  let tmpb := b in
  for_int 0 VLEN
          (fun i res => match permute2_src REAL_BYTES VLEN ctrl_ci tmpa tmpb i with
                        | Some x => wr VLEN res i x
                        | None => None
                        end)
          res.

(** [loadFrom(from)] and [loadUnalignedFrom(from)], the loop branch:
    lane [i] of [u.r] takes lane [i] of [from]; the result is the vector
    loaded into. *)
Definition loadFrom {real_t : Type} (VLEN : Z) (this from : list real_t)
  : option (list real_t) :=
  for_int 0 VLEN
          (fun i u => match rd VLEN from i with
                      | Some x => wr VLEN u i x
                      | None => None
                      end)
          this.

(** [storeTo(to)], the loop branch: lane [i] of [to] takes [u.r[i]];
    the result is the vector stored to. *)
Definition storeTo {real_t : Type} (VLEN : Z) (this to : list real_t)
  : option (list real_t) :=
  for_int 0 VLEN
          (fun i to => match rd VLEN this i with
                       | Some x => wr VLEN to i x
                       | None => None
                       end)
          to.

(** [x != y] on doubles. *)
Definition fne (x y : double) : bool := negb (SFeqb x y).

(** The loops of [operator<], [operator>] and [operator==] of
    [real_vec_t] from lane [j]. *)
Fixpoint vec_lt_loop (VLEN : Z) (n : nat) (j : Z) (u rhs : list double)
  : option bool :=
  match n with
  | O => Some false
  | Datatypes.S n' =>
      match rd VLEN u j, rd VLEN rhs j with
      | Some x, Some y =>
          if flt x y then Some true
          else if fgt x y then Some false
          else vec_lt_loop VLEN n' (j + 1) u rhs
      | _, _ => None
      end
  end.

Fixpoint vec_gt_loop (VLEN : Z) (n : nat) (j : Z) (u rhs : list double)
  : option bool :=
  match n with
  | O => Some false
  | Datatypes.S n' =>
      match rd VLEN u j, rd VLEN rhs j with
      | Some x, Some y =>
          if fgt x y then Some true
          else if flt x y then Some false
          else vec_gt_loop VLEN n' (j + 1) u rhs
      | _, _ => None
      end
  end.

Fixpoint vec_eq_loop (VLEN : Z) (n : nat) (j : Z) (u rhs : list double)
  : option bool :=
  match n with
  | O => Some true
  | Datatypes.S n' =>
      match rd VLEN u j, rd VLEN rhs j with
      | Some x, Some y =>
          if fne x y then Some false
          else vec_eq_loop VLEN n' (j + 1) u rhs
      | _, _ => None
      end
  end.

Definition vec_lt (VLEN : Z) (u rhs : list double) : option bool :=
  vec_lt_loop VLEN (Z.to_nat VLEN) 0 u rhs.
Definition vec_gt (VLEN : Z) (u rhs : list double) : option bool :=
  vec_gt_loop VLEN (Z.to_nat VLEN) 0 u rhs.
Definition vec_eq (VLEN : Z) (u rhs : list double) : option bool :=
  vec_eq_loop VLEN (Z.to_nat VLEN) 0 u rhs.

Definition is_nan (x : double) : bool :=
  match x with
  | S754_nan => true
  | _ => false
  end.

(* ================================================================== *)
(** * Properties *)

(** Case analysis on the integer comparisons of the goal. *)
Ltac zcases :=
  repeat match goal with
         | |- context [(?a <=? ?b)%Z] => destruct (Z.leb_spec a b)
         | |- context [(?a <? ?b)%Z] => destruct (Z.ltb_spec a b)
         | |- context [(?a =? ?b)%Z] => destruct (Z.eqb_spec a b)
         end;
  cbn [andb orb negb]; try reflexivity; try lia.

(** ** Lookup and store *)

Lemma Scalar_eta (i : Scalar) : mkScalar (getName i) (getVal i) = i.
Proof. destruct i; reflexivity. Qed.

Lemma lookup_q_None (q : list Scalar) (d : string) :
  lookup_q q d = None <-> ~ In d (map getName q).
Proof.
  induction q as [|s q IH]; simpl.
  - split; [intros _ []|reflexivity].
  - destruct (String.eqb_spec (getName s) d) as [E|E].
    + split; [discriminate|]. intros H; exfalso; apply H; now left.
    + rewrite IH. split.
      * intros H [F|F]; [now apply E|now apply H].
      * intros H F; apply H; now right.
Qed.

Lemma lookup_q_Some_In (q : list Scalar) (d : string) (v : Z) :
  lookup_q q d = Some v -> In d (map getName q).
Proof.
  intros H. destruct (in_dec string_dec d (map getName q)) as [I|I]; [exact I|].
  apply lookup_q_None in I. congruence.
Qed.

Lemma lookup_q_In (q : list Scalar) (d : string) :
  In d (map getName q) -> exists v, lookup_q q d = Some v.
Proof.
  intros I. destruct (lookup_q q d) as [v|] eqn:E; [now exists v|].
  apply lookup_q_None in E. contradiction.
Qed.

Lemma lookup_q_app (q1 q2 : list Scalar) (d : string) :
  lookup_q (q1 ++ q2) d =
  match lookup_q q1 d with Some v => Some v | None => lookup_q q2 d end.
Proof.
  induction q1 as [|s q1 IH]; simpl; [reflexivity|].
  destruct (String.eqb (getName s) d); [reflexivity|exact IH].
Qed.

Lemma store_q_names (q : list Scalar) (d : string) (v : Z) :
  map getName (store_q q d v) = map getName q.
Proof.
  induction q as [|s q IH]; simpl; [reflexivity|].
  destruct (String.eqb (getName s) d); simpl; [reflexivity|now rewrite IH].
Qed.

Lemma store_q_length (q : list Scalar) (d : string) (v : Z) :
  List.length (store_q q d v) = List.length q.
Proof.
  rewrite <- (length_map getName), store_q_names. apply length_map.
Qed.

Lemma lookup_store_same (q : list Scalar) (d : string) (v : Z) :
  In d (map getName q) -> lookup_q (store_q q d v) d = Some v.
Proof.
  induction q as [|s q IH]; simpl; [intros []|].
  intros H. destruct (String.eqb_spec (getName s) d) as [E|E]; simpl.
  - rewrite E, String.eqb_refl. reflexivity.
  - destruct (String.eqb_spec (getName s) d); [contradiction|].
    apply IH. destruct H; [contradiction|assumption].
Qed.

Lemma lookup_store_other (q : list Scalar) (d d' : string) (v : Z) :
  d <> d' -> lookup_q (store_q q d v) d' = lookup_q q d'.
Proof.
  intros N. induction q as [|s q IH]; simpl; [reflexivity|].
  destruct (String.eqb_spec (getName s) d) as [E|E]; simpl.
  - destruct (String.eqb_spec (getName s) d'); [congruence|reflexivity].
  - destruct (String.eqb (getName s) d'); [reflexivity|exact IH].
Qed.

Lemma addDimBack_absent (t : Tuple) (d : string) (v : Z) :
  ~ In d (dimNames t) ->
  addDimBack t d v = mkTuple (_q t ++ [mkScalar d v]) (_firstInner t).
Proof.
  intros H. unfold addDimBack, lookup.
  apply lookup_q_None in H. now rewrite H.
Qed.

Lemma addDimBack_firstInner (t : Tuple) (d : string) (v : Z) :
  _firstInner (addDimBack t d v) = _firstInner t.
Proof. unfold addDimBack. destruct (lookup t d); reflexivity. Qed.

Lemma addDimBack_wf (t : Tuple) (d : string) (v : Z) :
  wf t -> wf (addDimBack t d v).
Proof.
  unfold wf, dimNames, addDimBack, lookup. intros W.
  destruct (lookup_q (_q t) d) eqn:E; simpl.
  - now rewrite store_q_names.
  - rewrite map_app. simpl. apply lookup_q_None in E.
    apply NoDup_app; [assumption|repeat constructor; intros []|].
    intros x Hx [<-|[]]. contradiction.
Qed.

(* ------------------------------------------------------------------ *)
(** ** Reductions *)

(** C9: on a tuple without dimensions [max()], [min()] and [sum()] return
    0, the initial value of the accumulator of [reduce], and raise no
    error; [product()] tests for the empty tuple and returns 1. *)
Theorem reduce_empty_tuple (fi : bool) :
  (forall reducer, reduce reducer (mkTuple [] fi) = 0) /\
  max (mkTuple [] fi) = 0 /\
  min (mkTuple [] fi) = 0 /\
  sum (mkTuple [] fi) = 0 /\
  product (mkTuple [] fi) = 1.
Proof. repeat split. Qed.

(* ------------------------------------------------------------------ *)
(** ** removeDim *)

Lemma removeDim_fold (dim : string) (l : list Scalar) (acc : Tuple) :
  NoDup (dimNames acc ++ map getName l) ->
  fold_left
    (fun newt i =>
       if negb (String.eqb dim (getName i))
       then addDimBack newt (getName i) (getVal i)
       else newt) l acc
  = mkTuple (_q acc ++ filter (keeps dim) l) (_firstInner acc).
Proof.
  revert acc. induction l as [|i l IH]; intros acc ND; simpl.
  - rewrite app_nil_r. destruct acc; reflexivity.
  - assert (Hi : ~ In (getName i) (dimNames acc)).
    { intros F. apply NoDup_remove_2 in ND. apply ND.
      apply in_or_app; now left. }
    unfold keeps at 1. destruct (negb (String.eqb dim (getName i))).
    + rewrite (addDimBack_absent _ _ _ Hi), Scalar_eta.
      rewrite IH; simpl.
      * now rewrite <- app_assoc.
      * unfold dimNames; simpl. rewrite map_app, <- app_assoc. exact ND.
    + apply IH. apply NoDup_remove_1 in ND. exact ND.
Qed.

Lemma filter_keeps_id (dim : string) (l : list Scalar) :
  ~ In dim (map getName l) -> filter (keeps dim) l = l.
Proof.
  induction l as [|i l IH]; simpl; [reflexivity|]. intros H.
  unfold keeps at 1. destruct (String.eqb_spec dim (getName i)) as [E|E]; simpl.
  - exfalso; apply H; left; now symmetry.
  - f_equal. apply IH. intros F; apply H; now right.
Qed.

(** C10: [removeDim(d)] keeps the other dimensions with their values in
    their order, copies every dimension when [d] is absent, and returns
    a tuple whose orientation flag is [true] whatever the flag of
    [this]. *)
Theorem removeDim_keeps_order_resets_flag (t : Tuple) (d : string) :
  wf t ->
  _q (removeDim t d) = filter (keeps d) (_q t) /\
  (~ In d (dimNames t) -> _q (removeDim t d) = _q t) /\
  (forall d', d' <> d -> lookup (removeDim t d) d' = lookup t d') /\
  lookup (removeDim t d) d = None /\
  _firstInner (removeDim t d) = true.
Proof.
  intros W. unfold removeDim.
  rewrite removeDim_fold by exact W. simpl.
  repeat split.
  - intros H. now apply filter_keeps_id.
  - intros d' N. unfold lookup; simpl.
    induction (_q t) as [|i l IH]; simpl; [reflexivity|].
    unfold keeps at 1.
    destruct (String.eqb_spec d (getName i)) as [E|E]; simpl.
    + destruct (String.eqb_spec (getName i) d'); [congruence|exact IH].
    + destruct (String.eqb (getName i) d'); [reflexivity|exact IH].
  - unfold lookup; simpl. apply lookup_q_None.
    rewrite in_map_iff. intros [i [E I]]. apply filter_In in I.
    destruct I as [_ K]. unfold keeps in K. subst d.
    now rewrite String.eqb_refl in K.
Qed.

Lemma removeDim_keeps_order_resets_flag_witness :
  let t := mk false [("x"%string, 4); ("y"%string, 3); ("z"%string, 2)] in
  _q (removeDim t "y") = [mkScalar "x" 4; mkScalar "z" 2] /\
  _firstInner t = false /\
  _firstInner (removeDim t "y") = true.
Proof.
  assert (W : wf (mk false [("x"%string, 4); ("y"%string, 3); ("z"%string, 2)])).
  { repeat apply addDimBack_wf. constructor. }
  pose proof (removeDim_keeps_order_resets_flag _ "y"%string W) as [H1 [_ [_ [_ H5]]]].
  cbv zeta. split; [rewrite H1; reflexivity|]. split; [reflexivity|exact H5].
Defined.

(* ------------------------------------------------------------------ *)
(** ** makeUnionWith *)


Lemma union_step_q (u : Tuple) (i : Scalar) :
  union_step u i =
  mkTuple (_q u ++ (if absent_from u i then [i] else [])) (_firstInner u).
Proof.
  unfold union_step, absent_from, addDimBack.
  destruct (lookup u (getName i)).
  - rewrite app_nil_r. destruct u; reflexivity.
  - now rewrite Scalar_eta.
Qed.

Lemma union_fold_prefix (l : list Scalar) (u : Tuple) :
  exists ext, fold_left union_step l u = mkTuple (_q u ++ ext) (_firstInner u).
Proof.
  revert u. induction l as [|i l IH]; intros u; simpl.
  - exists []. rewrite app_nil_r. destruct u; reflexivity.
  - destruct (IH (union_step u i)) as [ext E]. rewrite E, union_step_q. simpl.
    eexists. now rewrite <- app_assoc.
Qed.

Lemma union_fold_lookup (l : list Scalar) (u : Tuple) (d : string) :
  lookup (fold_left union_step l u) d =
  match lookup u d with Some v => Some v | None => lookup_q l d end.
Proof.
  revert u. induction l as [|i l IH]; intros u; simpl.
  - destruct (lookup u d); reflexivity.
  - rewrite IH, union_step_q. unfold lookup at 1, absent_from. simpl.
    rewrite lookup_q_app. fold (lookup u d).
    destruct (lookup u (getName i)) eqn:Ei; simpl.
    + destruct (lookup u d) eqn:Ed; [reflexivity|].
      destruct (String.eqb_spec (getName i) d); [congruence|reflexivity].
    + destruct (lookup u d) eqn:Ed; [reflexivity|].
      destruct (String.eqb (getName i) d); reflexivity.
Qed.

Lemma absent_from_ext (u u' : Tuple) (l : list Scalar) :
  (forall j, In j l -> lookup u' (getName j) = lookup u (getName j)) ->
  filter (absent_from u') l = filter (absent_from u) l.
Proof.
  intros H. apply filter_ext_in. intros j Hj. unfold absent_from.
  now rewrite H.
Qed.

Lemma union_fold_exact (l : list Scalar) (u : Tuple) :
  NoDup (map getName l) ->
  fold_left union_step l u =
  mkTuple (_q u ++ filter (absent_from u) l) (_firstInner u).
Proof.
  revert u. induction l as [|i l IH]; intros u ND; simpl.
  - rewrite app_nil_r. destruct u; reflexivity.
  - inversion ND as [|? ? Hi ND']; subst.
    rewrite IH by assumption. rewrite union_step_q. simpl.
    rewrite <- app_assoc.
    rewrite (absent_from_ext u).
    + destruct (absent_from u i); reflexivity.
    + intros j Hj. unfold lookup. simpl. rewrite lookup_q_app.
      destruct (lookup_q (_q u) (getName j)); [reflexivity|].
      destruct (absent_from u i); [|reflexivity]. simpl.
      destruct (String.eqb_spec (getName i) (getName j)) as [E|E]; [|reflexivity].
      exfalso. apply Hi. rewrite E. now apply in_map.
Qed.

Lemma lookup_In_names (t : Tuple) (d : string) :
  In d (dimNames t) <-> lookup t d <> None.
Proof.
  unfold lookup, dimNames. split.
  - intros I E. apply lookup_q_None in E. contradiction.
  - intros N. destruct (lookup_q (_q t) d) eqn:E; [|congruence].
    eapply lookup_q_Some_In; eassumption.
Qed.

Lemma union_names (a b : Tuple) (d : string) :
  In d (dimNames (makeUnionWith a b)) <-> In d (dimNames a) \/ In d (dimNames b).
Proof.
  rewrite !lookup_In_names. unfold makeUnionWith.
  rewrite union_fold_lookup. fold (lookup b d).
  destruct (lookup a d); destruct (lookup b d); split; intros H;
    try congruence; auto; destruct H; congruence.
Qed.

(** C8: [makeUnionWith(other)] is [this] followed by the dimensions of
    [other] that [this] lacks, with the values of [other]; a dimension of
    both keeps the value of [this]; the set of names of the result is the
    same for [t] with [t] as for [t], and the same for [a] with [b] as for
    [b] with [a]. *)
Theorem makeUnionWith_spec (a b : Tuple) :
  (exists ext, _q (makeUnionWith a b) = _q a ++ ext) /\
  (NoDup (dimNames b) ->
   _q (makeUnionWith a b) = _q a ++ filter (absent_from a) (_q b)) /\
  _firstInner (makeUnionWith a b) = _firstInner a /\
  (forall d, lookup (makeUnionWith a b) d =
             match lookup a d with Some v => Some v | None => lookup b d end) /\
  (forall d, In d (dimNames (makeUnionWith a b)) <->
             In d (dimNames a) \/ In d (dimNames b)) /\
  makeUnionWith a a = a /\
  (forall d, In d (dimNames (makeUnionWith a b)) <->
             In d (dimNames (makeUnionWith b a))) /\
  (wf a -> wf b -> wf (makeUnionWith a b) /\
                   Permutation (dimNames (makeUnionWith a b))
                               (dimNames (makeUnionWith b a))).
Proof.
  assert (F : makeUnionWith a b = fold_left union_step (_q b) a) by reflexivity.
  assert (WF : forall x y, wf x -> wf (makeUnionWith x y)).
  { intros x y. unfold makeUnionWith. revert x.
    induction (_q y) as [|i l IH]; intros x W; simpl; [exact W|].
    apply IH. unfold union_step.
    destruct (lookup x (getName i)); [exact W|now apply addDimBack_wf]. }
  repeat match goal with |- _ /\ _ => split end.
  - destruct (union_fold_prefix (_q b) a) as [ext E]. exists ext.
    now rewrite F, E.
  - intros ND. now rewrite F, union_fold_exact.
  - destruct (union_fold_prefix (_q b) a) as [ext E]. now rewrite F, E.
  - intros d. rewrite F. apply union_fold_lookup.
  - apply union_names.
  - unfold makeUnionWith.
    assert (G : forall l u, (forall i, In i l -> In (getName i) (dimNames u)) ->
                            fold_left union_step l u = u).
    { induction l as [|i l IH]; intros u H; simpl; [reflexivity|].
      assert (E : union_step u i = u).
      { unfold union_step. destruct (lookup u (getName i)) eqn:L; [reflexivity|].
        exfalso. apply lookup_q_None in L. apply L. apply H. now left. }
      rewrite E. apply IH. intros j Hj. apply H. now right. }
    apply G. intros i Hi. now apply in_map.
  - intros d. rewrite !union_names. tauto.
  - intros Wa Wb. split; [now apply WF|].
    apply NoDup_Permutation; [now apply WF|now apply WF|].
    intros d. rewrite !union_names. tauto.
Qed.

(* ------------------------------------------------------------------ *)
(** ** mapElements *)

Lemma for_auto_copy_id (body : Scalar -> Scalar) (c : list Scalar) :
  for_auto_copy body c = c.
Proof.
  unfold for_auto_copy. generalize c at 2 3.
  induction c as [|i l IH]; intros c'; cbn [fold_left]; [reflexivity|apply IH].
Qed.

Lemma mapElements_returns_this (func : Z -> Z -> Z) (rhs : Z) (t : Tuple) :
  mapElements func rhs t = t.
Proof.
  unfold mapElements. rewrite for_auto_copy_id. destruct t; reflexivity.
Qed.

(** With the loop variable bound by reference the same body gives every
    dimension the value of the function. *)
Lemma mapElements_body_by_reference (func : Z -> Z -> Z) (rhs : Z)
      (q : list Scalar) (d : string) :
  lookup_q (for_auto_ref (mapElements_body func rhs) q) d
  = option_map (fun v => func v rhs) (lookup_q q d).
Proof.
  unfold for_auto_ref. induction q as [|i q IH]; cbn [map lookup_q]; [reflexivity|].
  cbn [mapElements_body Scalar_setVal getName getVal].
  destruct (String.eqb (getName i) d); [reflexivity|exact IH].
Qed.

(** C3, at the input [{x:1}] and the constant 1: [addElements(1)],
    [multElements(2)], [maxElements(5)] and [minElements(0)] return the
    tuple with the value 1 in [x], where plus, times, max and min of the
    value and the constant are 2, 2, 5 and 0. *)
Theorem scalar_elementwise_ops_leave_values :
  let t := mk true [("x"%string, 1)] in
  lookup (addElements_c 1 t) "x" = Some 1 /\ wrapT (1 + 1) = 2 /\
  lookup (multElements_c 2 t) "x" = Some 1 /\ wrapT (1 * 2) = 2 /\
  lookup (maxElements_c 5 t) "x" = Some 1 /\ Z.max 1 5 = 5 /\
  lookup (minElements_c 0 t) "x" = Some 1 /\ Z.min 1 0 = 0 /\
  (forall func c u, mapElements func c u = u).
Proof.
  cbv zeta. repeat split. intros. apply mapElements_returns_this.
Qed.

(** The sibling [combineElements] stores what the combiner returns. *)
Lemma combineElements_stores :
  option_map (fun r => lookup r "x")
             (combineElements (fun l r => wrapT (l + r))
                              (mk true [("x"%string, 1)])
                              (mk true [("x"%string, 1)]) true)
  = Some (Some 2).
Proof. reflexivity. Qed.

(* ------------------------------------------------------------------ *)
(** ** real_vec_align *)

Section AlignProofs.
Context {real_t : Type}.
Variable VLEN : Z.

Lemma set_nth_length (n : nat) (x : real_t) (v : list real_t) :
  List.length (set_nth n x v) = List.length v.
Proof.
  revert n. induction v as [|y v IH]; intros [|n]; simpl; auto.
Qed.

Lemma nth_error_set_nth (n m : nat) (x : real_t) (v : list real_t) :
  (n < List.length v)%nat ->
  nth_error (set_nth n x v) m =
  if Nat.eqb m n then Some x else nth_error v m.
Proof.
  revert n m. induction v as [|y v IH]; intros [|n] [|m]; simpl;
    try lia; try reflexivity.
  intros H. apply IH. lia.
Qed.

Lemma rd_wr (v v' : list real_t) (i j : Z) (x : real_t) :
  wr VLEN v i x = Some v' ->
  rd VLEN v' j = if j =? i then Some x else rd VLEN v j.
Proof.
  unfold wr, rd. intros H.
  destruct ((0 <=? i) && (i <? VLEN) && (i <? Z.of_nat (List.length v))) eqn:C;
    [|discriminate].
  injection H as <-.
  apply andb_prop in C as [C C3]. apply andb_prop in C as [C1 C2].
  rewrite nth_error_set_nth by (apply Z.ltb_lt in C3; apply Z.leb_le in C1; lia).
  destruct (Z.eqb_spec j i) as [->|N].
  - rewrite C1, C2, Nat.eqb_refl. reflexivity.
  - destruct ((0 <=? j) && (j <? VLEN)) eqn:D; [|reflexivity].
    apply andb_prop in D as [D1 D2].
    apply Z.leb_le in C1, D1.
    destruct (Nat.eqb_spec (Z.to_nat j) (Z.to_nat i)); [lia|reflexivity].
Qed.

(** A loop that writes [src i] to lane [i] for [i] in [lo, lo + n). *)
Lemma fill_loop (src : Z -> option real_t) (n : nat) :
  forall (lo : Z) (res : list real_t),
    0 <= lo -> lo + Z.of_nat n <= VLEN -> is_vec VLEN res ->
    (forall i, lo <= i < lo + Z.of_nat n -> src i <> None) ->
    exists res',
      for_T n lo (fun i res => match src i with
                               | Some x => wr VLEN res i x
                               | None => None
                               end) res = Some res' /\
      is_vec VLEN res' /\
      (forall j, rd VLEN res' j =
                 if (lo <=? j) && (j <? lo + Z.of_nat n)
                 then src j else rd VLEN res j).
Proof.
  induction n as [|n IH]; intros lo res Hlo Hhi Hres Hsrc.
  - exists res. split; [reflexivity|]. split; [assumption|].
    intros j. zcases.
  - cbn [for_T].
    destruct (src lo) as [x|] eqn:Ex; [|exfalso; apply (Hsrc lo); [lia|assumption]].
    destruct (wr VLEN res lo x) as [res1|] eqn:Ew.
    2:{ unfold wr, is_vec in *.
        destruct (Z.leb_spec 0 lo); [|lia].
        destruct (Z.ltb_spec lo VLEN); [|lia].
        destruct (Z.ltb_spec lo (Z.of_nat (List.length res))); [|lia].
        discriminate. }
    assert (Hres1 : is_vec VLEN res1).
    { unfold wr in Ew.
      destruct ((0 <=? lo) && (lo <? VLEN) && (lo <? Z.of_nat (List.length res)));
        [|discriminate].
      injection Ew as <-. unfold is_vec in *. now rewrite set_nth_length. }
    destruct (IH (lo + 1) res1) as [res' [E [V R]]]; try lia; try assumption.
    { intros i Hi. apply Hsrc. lia. }
    exists res'. split; [exact E|]. split; [exact V|].
    intros j. rewrite R, (rd_wr _ _ _ _ _ Ew).
    destruct (Z.eqb_spec j lo) as [->|N]; zcases. now symmetry.
Qed.

Lemma rd_nth_error (v : list real_t) (i : Z) :
  is_vec VLEN v -> 0 <= i -> rd VLEN v i = nth_error v (Z.to_nat i).
Proof.
  unfold rd, is_vec. intros V H.
  destruct (Z.leb_spec 0 i); [|lia]. simpl.
  destruct (Z.ltb_spec i VLEN); [reflexivity|].
  symmetry. apply nth_error_None. lia.
Qed.

Lemma rd_Some (v : list real_t) (i : Z) :
  is_vec VLEN v -> 0 <= i < VLEN -> rd VLEN v i <> None.
Proof.
  intros V H. rewrite rd_nth_error by (assumption || lia).
  apply nth_error_Some. unfold is_vec in V. lia.
Qed.
End AlignProofs.

Lemma align_spec_lane {real_t : Type} (VLEN count : Z) (a b : list real_t) (i : Z) :
  is_vec VLEN a -> is_vec VLEN b -> 0 <= count <= VLEN ->
  rd VLEN (align_spec VLEN count a b) i =
  if (0 <=? i) && (i <? VLEN)
  then if i <? VLEN - count then rd VLEN b (i + count)
       else rd VLEN a (i + count - VLEN)
  else None.
Proof.
  intros Va Vb Hc. unfold rd at 1, align_spec.
  destruct ((0 <=? i) && (i <? VLEN)) eqn:C; [|reflexivity].
  apply andb_prop in C as [C1 C2]. apply Z.leb_le in C1. apply Z.ltb_lt in C2.
  rewrite nth_error_firstn, nth_error_skipn, nth_error_app.
  unfold is_vec in *.
  destruct (Nat.ltb_spec (Z.to_nat i) (Z.to_nat VLEN)); [|lia].
  destruct (Z.ltb_spec i (VLEN - count)).
  - destruct (Nat.ltb_spec (Z.to_nat count + Z.to_nat i) (List.length b)); [|lia].
    rewrite rd_nth_error by (assumption || lia). f_equal. lia.
  - destruct (Nat.ltb_spec (Z.to_nat count + Z.to_nat i) (List.length b)); [lia|].
    rewrite rd_nth_error by (assumption || lia). f_equal. lia.
Qed.

Lemma vec_ext {real_t : Type} (VLEN : Z) (u v : list real_t) :
  is_vec VLEN u -> is_vec VLEN v ->
  (forall i, rd VLEN u i = rd VLEN v i) -> u = v.
Proof.
  intros Vu Vv H. apply nth_error_ext. intros n.
  specialize (H (Z.of_nat n)).
  rewrite !rd_nth_error in H by (assumption || lia).
  now rewrite Nat2Z.id in H.
Qed.

Lemma align_spec_is_vec {real_t : Type} (VLEN count : Z) (a b : list real_t) :
  is_vec VLEN a -> is_vec VLEN b -> 0 <= count <= VLEN ->
  is_vec VLEN (align_spec VLEN count a b).
Proof.
  unfold is_vec, align_spec. intros Va Vb Hc.
  rewrite length_firstn, length_skipn, length_app. lia.
Qed.

(** C6: [real_vec_align<count>(res, a, b)] leaves in [res] the lanes of
    [a] concatenated after [b], shifted right by [count], the rightmost
    [VLEN] kept: lane [i] is [b[i+count]] for [i < VLEN-count] and
    [a[i+count-VLEN]] otherwise; with [count = 0] it is [b], with
    [count = VLEN] it is [a]. *)
Theorem real_vec_align_correct {real_t : Type} (VLEN count : Z)
        (res a b : list real_t) :
  is_vec VLEN res -> is_vec VLEN a -> is_vec VLEN b -> 0 <= count <= VLEN ->
  real_vec_align VLEN count res a b = Some (align_spec VLEN count a b) /\
  real_vec_align_256 VLEN count a b = Some (align_spec VLEN count a b) /\
  (forall i, 0 <= i < VLEN ->
             rd VLEN (align_spec VLEN count a b) i =
             if i <? VLEN - count then rd VLEN b (i + count)
             else rd VLEN a (i + count - VLEN)) /\
  (count = 0 -> real_vec_align VLEN count res a b = Some b) /\
  (count = VLEN -> real_vec_align VLEN count res a b = Some a).
Proof.
  intros Vr Va Vb Hc.
  assert (M : real_vec_align VLEN count res a b = Some (align_spec VLEN count a b)).
  { unfold real_vec_align, for_int.
    destruct (fill_loop VLEN (fun i => rd VLEN b (i + count))
                        (Z.to_nat (VLEN - count - 0)) 0 res)
      as [r1 [E1 [V1 R1]]]; try lia; try assumption.
    { intros i Hi. apply rd_Some; [assumption|lia]. }
    replace (VLEN - count - 0) with (VLEN - count) in E1 by lia.
    replace (VLEN - count - 0) with (VLEN - count) in R1 by lia.
    rewrite Z.sub_0_r. rewrite E1.
    destruct (fill_loop VLEN (fun i => rd VLEN a (i + count - VLEN))
                        (Z.to_nat (VLEN - (VLEN - count))) (VLEN - count) r1)
      as [r2 [E2 [V2 R2]]]; try lia; try assumption.
    { intros i Hi. apply rd_Some; [assumption|lia]. }
    rewrite E2. f_equal.
    apply (vec_ext VLEN); [assumption|now apply align_spec_is_vec|].
    intros i. rewrite R2, R1, align_spec_lane by assumption.
    unfold rd. unfold is_vec in *. zcases. }
  assert (L : forall i, rd VLEN (align_spec VLEN count a b) i =
                        if (0 <=? i) && (i <? VLEN)
                        then if i <? VLEN - count then rd VLEN b (i + count)
                             else rd VLEN a (i + count - VLEN)
                        else None).
  { intros i. now apply align_spec_lane. }
  repeat match goal with |- _ /\ _ => split end.
  - exact M.
  - unfold real_vec_align_256, align_spec. zcases.
  - intros i Hi. rewrite L. zcases.
  - intros ->. rewrite M. f_equal.
    apply (vec_ext VLEN); [now apply align_spec_is_vec|assumption|].
    intros i. rewrite L. rewrite Z.add_0_r, Z.sub_0_r. unfold rd. zcases.
  - intros ->. rewrite M. f_equal.
    apply (vec_ext VLEN); [now apply align_spec_is_vec|assumption|].
    intros i. rewrite L. unfold rd. zcases. f_equal. f_equal. lia.
Qed.

Lemma real_vec_align_correct_witness :
  real_vec_align 4 1 [0; 0; 0; 0] [10; 11; 12; 13] [20; 21; 22; 23]
  = Some [21; 22; 23; 10].
Proof.
  apply (real_vec_align_correct 4 1 [0; 0; 0; 0] [10; 11; 12; 13] [20; 21; 22; 23]);
    try reflexivity; lia.
Defined.

(* ------------------------------------------------------------------ *)
(** ** layout *)

Lemma to_size_t_small (v : Z) : 0 <= v < size_t_modulus -> to_size_t v = v.
Proof. intros H. unfold to_size_t. now apply Z.mod_small. Qed.

Lemma to_size_t_wrapT (v : Z) : to_size_t (wrapT v) = to_size_t v.
Proof.
  unfold to_size_t, wrapT, size_t_modulus.
  rewrite Zminus_mod, Z.mod_mod by lia.
  rewrite <- Zminus_mod. f_equal. lia.
Qed.

Lemma wrapT_small (v : Z) : in_T v -> wrapT v = v.
Proof.
  unfold in_T, wrapT. intros H. rewrite Z.mod_small; lia.
Qed.

Lemma reduce_mul_fold (l : list Scalar) (r n : Z) :
  0 < n ->
  to_size_t
    (fst (fold_left
            (fun (st : Z * Z) i =>
               let '(result, n) := st in
               ((if n =? 0 then getVal i else wrapT (result * getVal i)), n + 1))
            l (r, n)))
  = to_size_t (r * extent_product l).
Proof.
  revert r n. induction l as [|i l IH]; intros r n Hn; simpl.
  - now rewrite Z.mul_1_r.
  - destruct (Z.eqb_spec n 0); [lia|].
    rewrite IH by lia. unfold to_size_t.
    rewrite Z.mul_assoc, (Z.mul_comm (wrapT _)), (Z.mul_comm (r * getVal i)).
    rewrite Zmult_mod. fold (to_size_t (wrapT (r * getVal i))).
    rewrite to_size_t_wrapT. unfold to_size_t.
    now rewrite <- Zmult_mod.
Qed.

Lemma product_to_size_t (t : Tuple) :
  to_size_t (product t) = to_size_t (extent_product (_q t)).
Proof.
  unfold product, size, reduce. destruct (_q t) as [|i l]; [reflexivity|].
  cbn [negb List.length fold_left]. 
  destruct (Z.eqb_spec (Z.of_nat (S (List.length l))) 0); [lia|]. cbn [negb].
  change (0 =? 0) with true. cbn iota.
  rewrite reduce_mul_fold by lia. reflexivity.
Qed.

Lemma in_box_cons (i : Scalar) (L : list Scalar) (offsets : Tuple) :
  in_box (i :: L) offsets ->
  0 <= offset_of offsets i < getVal i /\ in_box L offsets.
Proof.
  intros H. split; [apply H; now left|]. intros j Hj. apply H. now right.
Qed.

Lemma extent_product_nil : extent_product [] = 1.
Proof. reflexivity. Qed.

Lemma extent_product_cons (i : Scalar) (L : list Scalar) :
  extent_product (i :: L) = getVal i * extent_product L.
Proof. reflexivity. Qed.

Lemma extent_product_pos (L : list Scalar) (offsets : Tuple) :
  in_box L offsets -> 1 <= extent_product L.
Proof.
  induction L as [|i L IH]; intros H.
  - rewrite extent_product_nil. lia.
  - rewrite extent_product_cons.
    apply in_box_cons in H as [Hi HL]. specialize (IH HL). nia.
Qed.

Lemma extent_product_app (L1 L2 : list Scalar) :
  extent_product (L1 ++ L2) = extent_product L1 * extent_product L2.
Proof.
  induction L1 as [|i L1 IH]; cbn [app].
  - rewrite extent_product_nil. lia.
  - rewrite !extent_product_cons, IH. lia.
Qed.

Lemma extent_product_rev (L : list Scalar) :
  extent_product (rev L) = extent_product L.
Proof.
  induction L as [|i L IH]; cbn [rev]; [reflexivity|].
  rewrite extent_product_app, IH, !extent_product_cons, extent_product_nil. lia.
Qed.

Lemma layout_step_offset (offsets : Tuple) (i : Scalar) :
  match lookup offsets (getName i) with
  | Some o => to_size_t o
  | None => 0
  end = to_size_t (offset_of offsets i).
Proof. unfold offset_of. destruct (lookup offsets (getName i)); reflexivity. Qed.

Lemma layout_fold (this offsets : Tuple) (P : Z) :
  to_size_t (product this) = P -> P < size_t_modulus ->
  forall (L : list Scalar) (idx prev : Z),
    in_box L offsets -> 0 <= idx < prev -> prev * extent_product L <= P ->
    fold_left (layout_step this offsets) L (Some (idx, prev))
    = Some (fold_left (lin_step offsets) L (idx, prev)).
Proof.
  intros HP HM. induction L as [|i L IH]; intros idx prev HB Hidx Hprev;
    [reflexivity|].
  apply in_box_cons in HB as [Hi HL].
  pose proof (extent_product_pos L offsets HL) as HE.
  rewrite extent_product_cons in Hprev.
  assert (B0 : 0 < prev * getVal i) by nia.
  assert (B1 : prev * getVal i <= P).
  { apply Z.le_trans with (prev * getVal i * extent_product L); [nia|lia]. }
  assert (B2 : getVal i <= P) by nia.
  assert (B3 : 0 <= idx + offset_of offsets i * prev < prev * getVal i) by nia.
  cbn [fold_left]. unfold layout_step at 2. cbv zeta.
  rewrite layout_step_offset, HP.
  rewrite (to_size_t_small (getVal i)) by lia.
  rewrite (to_size_t_small (offset_of offsets i)) by lia.
  rewrite (Z.mod_small (idx + _)) by lia.
  rewrite (Z.mod_small (prev * _)) by lia.
  destruct (Z.ltb_spec (offset_of offsets i) (getVal i)); [|lia].
  destruct (Z.ltb_spec (idx + offset_of offsets i * prev) P); [|lia].
  destruct (Z.leb_spec (prev * getVal i) P); [|lia].
  cbn [negb]. unfold lin_step at 2. apply IH; [assumption|lia|].
  rewrite <- Z.mul_assoc. exact Hprev.
Qed.

(** The order in which [layout] meets the dimensions. *)
Lemma extent_product_layout_dims (t : Tuple) :
  extent_product (layout_dims t) = extent_product (_q t).
Proof.
  unfold layout_dims. destruct (_firstInner t); [reflexivity|].
  apply extent_product_rev.
Qed.

Lemma in_box_layout_dims (t offsets : Tuple) :
  in_box (_q t) offsets -> in_box (layout_dims t) offsets.
Proof.
  unfold layout_dims, in_box. intros H i Hi. apply H.
  destruct (_firstInner t); [exact Hi|now apply in_rev].
Qed.

Lemma layout_in_box (this offsets : Tuple) (strict : bool) :
  (strict = true -> areDimsSame this offsets = true) ->
  in_box (_q this) offsets ->
  extent_product (_q this) < size_t_modulus ->
  layout this offsets strict = Some (linearize_spec this offsets).
Proof.
  intros HS HB HM. unfold layout.
  assert (G : strict && negb (areDimsSame this offsets) = false).
  { destruct strict; [|reflexivity]. now rewrite HS. }
  rewrite G.
  pose proof (extent_product_pos _ _ HB) as HE.
  rewrite (layout_fold this offsets (extent_product (_q this))).
  - reflexivity.
  - rewrite product_to_size_t. apply to_size_t_small. lia.
  - exact HM.
  - now apply in_box_layout_dims.
  - lia.
  - rewrite extent_product_layout_dims. lia.
Qed.

(** C1: on a point of the box [layout] returns the index that the
    accumulation [index += offsetInDim * runningProduct; runningProduct *=
    extentOfDim] over the dimensions in orientation order gives.  With
    extents [{x:4, y:3}] and first-inner true the offsets (0,0), (3,0),
    (0,1), (3,2) map to 0, 3, 4, 11 and the map is a bijection from the
    box onto [0, 12); with extents [{t:1, x:8, y:8, z:8}] and first-inner
    false, [{t:0,x:1,y:0,z:0}] maps to 64 and [{t:0,x:0,y:0,z:1}] to 1. *)
Theorem layout_linearizes :
  (forall this offsets strict,
      (strict = true -> areDimsSame this offsets = true) ->
      in_box (_q this) offsets ->
      extent_product (_q this) < size_t_modulus ->
      layout this offsets strict = Some (linearize_spec this offsets)) /\
  (let e := mk true [("x"%string, 4); ("y"%string, 3)] in
   let pt x y := mk true [("x"%string, x); ("y"%string, y)] in
   layout e (pt 0 0) true = Some 0 /\
   layout e (pt 3 0) true = Some 3 /\
   layout e (pt 0 1) true = Some 4 /\
   layout e (pt 3 2) true = Some 11 /\
   (forall x y, 0 <= x < 4 -> 0 <= y < 3 ->
                exists k, layout e (pt x y) true = Some k /\ 0 <= k < 12) /\
   (forall x y x' y', 0 <= x < 4 -> 0 <= y < 3 -> 0 <= x' < 4 -> 0 <= y' < 3 ->
                      layout e (pt x y) true = layout e (pt x' y') true ->
                      x = x' /\ y = y') /\
   (forall k, 0 <= k < 12 ->
              exists x y, 0 <= x < 4 /\ 0 <= y < 3 /\
                          layout e (pt x y) true = Some k)) /\
  (let e := mk false [("t"%string, 1); ("x"%string, 8);
                      ("y"%string, 8); ("z"%string, 8)] in
   let pt t x y z := mk true [("t"%string, t); ("x"%string, x);
                              ("y"%string, y); ("z"%string, z)] in
   layout e (pt 0 1 0 0) true = Some 64 /\
   layout e (pt 0 0 0 1) true = Some 1).
Proof.
  split; [exact layout_in_box|]. split.
  - cbv zeta.
    assert (F : forall x y, 0 <= x < 4 -> 0 <= y < 3 ->
                layout (mk true [("x"%string, 4); ("y"%string, 3)])
                       (mk true [("x"%string, x); ("y"%string, y)]) true
                = Some (x + 4 * y)).
    { intros x y Hx Hy. rewrite layout_in_box.
      - f_equal. cbv [linearize_spec lin_step mk fold_left fst snd addDimBack
                        lookup lookup_q _q _firstInner getName getVal app
                        offset_of String.eqb Ascii.eqb Bool.eqb store_q].
        lia.
      - reflexivity.
      - intros i [<-|[<-|[]]]; cbn; lia.
      - reflexivity. }
    repeat match goal with |- _ /\ _ => split end; try reflexivity.
    + intros x y Hx Hy. exists (x + 4 * y). split; [now apply F|lia].
    + intros x y x' y' Hx Hy Hx' Hy'. rewrite !F by assumption.
      intros E. assert (E' : x + 4 * y = x' + 4 * y') by congruence.
      split; lia.
    + intros k Hk. exists (k mod 4), (k / 4).
      assert (0 <= k mod 4 < 4) by (apply Z.mod_pos_bound; lia).
      assert (k = 4 * (k / 4) + k mod 4) by (apply Z.div_mod; lia).
      assert (0 <= k / 4 < 3) by lia.
      repeat split; try lia. rewrite F by lia. f_equal. lia.
  - cbv zeta. split; reflexivity.
Qed.

(* ------------------------------------------------------------------ *)
(** ** layout: contract violations *)

Lemma areDimsSame_sets (a b : Tuple) :
  wf a -> areDimsSame a b = true ->
  forall d, In d (dimNames a) <-> In d (dimNames b).
Proof.
  unfold wf, areDimsSame, size. intros W H.
  destruct (Z.eqb_spec (Z.of_nat (List.length (_q a))) (Z.of_nat (List.length (_q b))))
    as [E|E]; [|discriminate].
  cbn [negb] in H. rewrite forallb_forall in H.
  assert (I : incl (dimNames a) (dimNames b)).
  { intros d Hd. unfold dimNames in Hd. apply in_map_iff in Hd as [j [<- Hj]].
    specialize (H j Hj). apply lookup_In_names.
    destruct (lookup b (getName j)); [discriminate|discriminate H]. }
  assert (I' : incl (dimNames b) (dimNames a)).
  { apply NoDup_length_incl; [exact W| |exact I].
    unfold dimNames. rewrite !length_map. lia. }
  intros d. split; [apply I|apply I'].
Qed.

Lemma layout_fold_None (this offsets : Tuple) (L : list Scalar) :
  fold_left (layout_step this offsets) L None = None.
Proof. induction L; simpl; auto. Qed.

Lemma layout_fold_bad (this offsets : Tuple) (i : Scalar) :
  (forall st, layout_step this offsets (Some st) i = None) ->
  forall L st, In i L -> fold_left (layout_step this offsets) L st = None.
Proof.
  intros Hbad. induction L as [|j L IH]; intros st Hin; [destruct Hin|].
  cbn [fold_left]. destruct Hin as [->|Hin].
  - destruct st as [st|]; [rewrite Hbad|]; apply layout_fold_None.
  - now apply IH.
Qed.

Lemma to_size_t_neg (v : Z) :
  - 2 ^ 63 <= v < 0 -> to_size_t v = v + 2 ^ 64.
Proof.
  intros H. unfold to_size_t, size_t_modulus.
  symmetry. apply Z.mod_unique with (q := -1); lia.
Qed.

Lemma layout_step_out_of_range (this offsets : Tuple) (i : Scalar) (st : Z * Z) :
  0 <= getVal i < 2 ^ 63 -> in_T (offset_of offsets i) ->
  ~ (0 <= offset_of offsets i < getVal i) ->
  layout_step this offsets (Some st) i = None.
Proof.
  intros He Ho Hbad. destruct st as [idx prev]. unfold layout_step.
  rewrite layout_step_offset.
  rewrite (to_size_t_small (getVal i)) by (unfold size_t_modulus; lia).
  unfold in_T in Ho.
  destruct (Z.ltb_spec (to_size_t (offset_of offsets i)) (getVal i)) as [C|C];
    [exfalso|reflexivity].
  destruct (Z.lt_ge_cases (offset_of offsets i) 0).
  - rewrite to_size_t_neg in C by lia. lia.
  - rewrite to_size_t_small in C by (unfold size_t_modulus; lia). lia.
Qed.

Lemma areDimsSame_offsets_on (this offsets : Tuple) :
  areDimsSame this (offsets_on this offsets) = true.
Proof.
  unfold areDimsSame, size, offsets_on. cbn [_q].
  rewrite length_map, Z.eqb_refl. cbn [negb].
  apply forallb_forall. intros i Hi. unfold lookup. cbn [_q].
  destruct (lookup_q_In
              (map (fun i => mkScalar (getName i) (offset_of offsets i)) (_q this))
              (getName i)) as [v ->]; [|reflexivity].
  rewrite map_map. cbn [getName]. now apply in_map.
Qed.

Lemma offset_of_offsets_on (this offsets : Tuple) (i : Scalar) :
  In i (_q this) ->
  lookup (offsets_on this offsets) (getName i) = Some (offset_of offsets i).
Proof.
  unfold lookup, offsets_on. cbn [_q].
  induction (_q this) as [|j q IH]; intros Hi; [destruct Hi|].
  cbn [map lookup_q getName getVal].
  destruct (String.eqb_spec (getName j) (getName i)) as [E|E].
  - unfold offset_of. now rewrite E.
  - destruct Hi as [->|Hi]; [congruence|now apply IH].
Qed.

Lemma fold_left_ext_in {A B : Type} (f g : A -> B -> A) (l : list B) :
  (forall a b, In b l -> f a b = g a b) ->
  forall a, fold_left f l a = fold_left g l a.
Proof.
  induction l as [|b l IH]; intros H a; [reflexivity|].
  cbn [fold_left]. rewrite H by now left.
  apply IH. intros a' b' Hb. apply H. now right.
Qed.

(** C4: [layout] fails an assertion when [strictRhs] holds and the
    dimensions of the offsets are not those of [this], and when the
    offset of a dimension (of extent at least 0) is outside [0, extent);
    it returns an index only when every offset it used is in range, so
    none was clamped; without [strictRhs] a dimension missing from the
    offsets counts as offset 0 and a dimension only the offsets have is
    ignored. *)
Theorem layout_contract (this offsets : Tuple) :
  (areDimsSame this offsets = false -> layout this offsets true = None) /\
  (wf this ->
   ~ (forall d, In d (dimNames this) <-> In d (dimNames offsets)) ->
   layout this offsets true = None) /\
  (forall strict i o,
      In i (_q this) -> 0 <= getVal i < 2 ^ 63 ->
      lookup offsets (getName i) = Some o -> in_T o ->
      ~ (0 <= o < getVal i) ->
      layout this offsets strict = None) /\
  (forall strict idx,
      (forall j, In j (_q this) -> 0 <= getVal j < 2 ^ 63) ->
      (forall j, In j (_q this) -> in_T (offset_of offsets j)) ->
      layout this offsets strict = Some idx ->
      in_box (_q this) offsets) /\
  layout this offsets false = layout this (offsets_on this offsets) true.
Proof.
  assert (BAD : forall strict i,
             In i (_q this) -> 0 <= getVal i < 2 ^ 63 ->
             in_T (offset_of offsets i) ->
             ~ (0 <= offset_of offsets i < getVal i) ->
             layout this offsets strict = None).
  { intros strict i Hi He Ho Hbad. unfold layout.
    destruct (strict && negb (areDimsSame this offsets)); [reflexivity|].
    rewrite (layout_fold_bad this offsets i); [reflexivity| |].
    - intros st. apply layout_step_out_of_range; auto.
    - unfold layout_dims. destruct (_firstInner this); [exact Hi|].
      now apply -> in_rev. }
  repeat match goal with |- _ /\ _ => split end.
  - intros H. unfold layout. now rewrite H.
  - intros W H. unfold layout.
    destruct (areDimsSame this offsets) eqn:D; [|reflexivity].
    exfalso. apply H. now apply areDimsSame_sets.
  - intros strict i o Hi He Hl Ho Hbad.
    apply (BAD strict i); auto; unfold offset_of; now rewrite Hl.
  - intros strict idx He Ho Hl i Hi.
    destruct (Z.le_gt_cases 0 (offset_of offsets i)) as [A|A];
      [destruct (Z.lt_ge_cases (offset_of offsets i) (getVal i)) as [B|B]|].
    + lia.
    + rewrite (BAD strict i) in Hl; auto; [discriminate|lia].
    + rewrite (BAD strict i) in Hl; auto; [discriminate|lia].
  - unfold layout. rewrite areDimsSame_offsets_on. cbn [negb andb].
    f_equal. apply fold_left_ext_in. intros st i Hi.
    assert (Hi' : In i (_q this)).
    { unfold layout_dims in Hi. destruct (_firstInner this); [exact Hi|].
      now apply in_rev. }
    unfold layout_step. destruct st as [[idx prev]|]; [|reflexivity].
    rewrite !layout_step_offset.
    replace (offset_of (offsets_on this offsets) i) with (offset_of offsets i);
      [reflexivity|].
    unfold offset_of at 2. now rewrite (offset_of_offsets_on this offsets i Hi').
Qed.

(** The assertion [dsize >= 0] compares a [size_t]: an extent below 0,
    which the data model excludes, is taken as a large extent. *)
Remark layout_negative_extent :
  layout (mk true [("x"%string, -1)]) (mk true [("x"%string, 5)]) true = Some 5.
Proof. reflexivity. Qed.

(* ------------------------------------------------------------------ *)
(** ** visitAllPoints *)

Lemma zrange_S (lo : Z) (n : nat) :
  zrange lo (S n) = lo :: zrange (lo + 1) n.
Proof.
  unfold zrange. cbn [seq map]. f_equal; [lia|].
  rewrite <- seq_shift, map_map. apply map_ext. intros k. lia.
Qed.

Lemma zrange_app (lo : Z) (n m : nat) :
  zrange lo (n + m) = zrange lo n ++ zrange (lo + Z.of_nat n) m.
Proof.
  revert lo. induction n as [|n IH]; intros lo.
  - cbn [Nat.add]. unfold zrange at 2. cbn [seq map app]. f_equal. lia.
  - cbn [Nat.add]. rewrite !zrange_S, IH. cbn [app]. do 3 f_equal. lia.
Qed.

Lemma zrange_length (lo : Z) (n : nat) : List.length (zrange lo n) = n.
Proof. unfold zrange. now rewrite length_map, length_seq. Qed.

Lemma extent_product_nonneg (V : list Scalar) :
  (forall i, In i V -> 0 <= getVal i) -> 0 <= extent_product V.
Proof.
  induction V as [|i V IH]; intros H.
  - rewrite extent_product_nil. lia.
  - rewrite extent_product_cons.
    apply Z.mul_nonneg_nonneg; [apply H; now left|].
    apply IH. intros j Hj. apply H. now right.
Qed.

Lemma offset_of_lookup (p : Tuple) (i : Scalar) (v : Z) :
  lookup p (getName i) = Some v -> offset_of p i = v.
Proof. unfold offset_of. now intros ->. Qed.

Lemma horner_ext (V : list Scalar) (p p' : Tuple) (acc : Z) :
  (forall i, In i V -> offset_of p i = offset_of p' i) ->
  horner V p acc = horner V p' acc.
Proof.
  revert acc. induction V as [|i V IH]; intros acc H; [reflexivity|].
  unfold horner. cbn [fold_left]. rewrite (H i) by now left.
  apply IH. intros j Hj. apply H. now right.
Qed.

Lemma visit_ok_nil : visit_ok [].
Proof.
  intros tr tp acc _. exists [tp], tp. cbn [visit_list fst snd].
  split; [reflexivity|]. do 3 (split; [reflexivity|]). split.
  - intros p [<-|[]]. do 3 (split; [reflexivity|]). intros i [].
  - rewrite extent_product_nil. change (Z.to_nat 1) with 1%nat.
    rewrite zrange_S. unfold horner, zrange. cbn [fold_left map seq].
    f_equal. lia.
Qed.

Lemma setVal_present (tp : Tuple) (d : string) (v : Z) :
  In d (dimNames tp) ->
  setVal tp d v = Some (mkTuple (store_q (_q tp) d v) (_firstInner tp)).
Proof.
  intros H. unfold setVal. apply lookup_In_names in H.
  destruct (lookup tp d); [reflexivity|congruence].
Qed.

Lemma visit_loop (sc : Scalar) (rest : list Scalar) :
  ~ In (getName sc) (map getName rest) ->
  (forall i, In i rest -> 0 <= getVal i) ->
  visit_ok rest ->
  forall (n : nat) (i0 : Z) (tr : list Tuple) (tp : Tuple) (acc : Z),
    0 <= i0 -> i0 + Z.of_nat n <= getVal sc ->
    (forall s, In s (sc :: rest) -> In (getName s) (dimNames tp)) ->
    exists (new : list Tuple) (tp' : Tuple),
      for_T n i0
            (fun i st =>
               match setVal (snd st) (getName sc) i with
               | Some tp' => visit_list rest (fst st, tp')
               | None => None
               end) (tr, tp) = Some (tr ++ new, tp') /\
      dimNames tp' = dimNames tp /\
      _firstInner tp' = _firstInner tp /\
      (forall d, ~ In d (map getName (sc :: rest)) -> lookup tp' d = lookup tp d) /\
      (forall p, In p new ->
                 dimNames p = dimNames tp /\
                 _firstInner p = _firstInner tp /\
                 (forall d, ~ In d (map getName (sc :: rest)) ->
                            lookup p d = lookup tp d) /\
                 in_box (sc :: rest) p) /\
      map (fun p => horner (sc :: rest) p acc) new
      = zrange ((acc * getVal sc + i0) * extent_product rest)
               (n * Z.to_nat (extent_product rest)).
Proof.
  intros Hsc Hpos Hrest.
  pose proof (extent_product_nonneg rest Hpos) as HEP.
  induction n as [|n IH]; intros i0 tr tp acc Hi0 Hn Hnames.
  - exists [], tp. cbn [for_T]. rewrite app_nil_r.
    split; [reflexivity|]. do 3 (split; [reflexivity|]).
    split; [intros p []|reflexivity].
  - cbn [for_T snd fst].
    rewrite setVal_present by (apply Hnames; now left).
    set (tp1 := mkTuple (store_q (_q tp) (getName sc) i0) (_firstInner tp)).
    assert (N1 : dimNames tp1 = dimNames tp) by apply store_q_names.
    assert (L1 : lookup tp1 (getName sc) = Some i0).
    { apply lookup_store_same. apply Hnames. now left. }
    assert (F1 : forall d, d <> getName sc -> lookup tp1 d = lookup tp d).
    { intros d Hd. apply lookup_store_other. congruence. }
    destruct (Hrest tr tp1 (acc * getVal sc + i0))
      as [new1 [tp2 [E1 [N2 [I2 [F2 [P2 H2]]]]]]].
    { intros s Hs. rewrite N1. apply Hnames. now right. }
    rewrite E1.
    destruct (IH (i0 + 1) (tr ++ new1) tp2 acc)
      as [new2 [tp3 [E3 [N3 [I3 [F3 [P3 H3]]]]]]]; try lia.
    { intros s Hs. rewrite N2, N1. now apply Hnames. }
    exists (new1 ++ new2), tp3. rewrite E3, app_assoc.
    split; [reflexivity|].
    split; [congruence|].
    split; [rewrite I3, I2; reflexivity|].
    assert (FR : forall d, ~ In d (map getName (sc :: rest)) ->
                           d <> getName sc /\ ~ In d (map getName rest)).
    { intros d Hd. split; intros F; apply Hd; cbn [map]; [left; now symmetry|now right]. }
    split; [|split].
    + intros d Hd. destruct (FR d Hd) as [D1 D2].
      rewrite F3 by assumption. rewrite F2 by assumption. now apply F1.
    + intros p Hp. apply in_app_or in Hp as [Hp|Hp].
      * destruct (P2 p Hp) as [A1 [A2 [A3 A4]]].
        split; [congruence|]. split; [rewrite A2; reflexivity|]. split.
        -- intros d Hd. destruct (FR d Hd) as [D1 D2].
           rewrite A3 by assumption. now apply F1.
        -- intros i [<-|Hi]; [|now apply A4].
           rewrite (offset_of_lookup p sc i0); [lia|].
           rewrite A3 by assumption. exact L1.
      * destruct (P3 p Hp) as [A1 [A2 [A3 A4]]].
        split; [congruence|]. split; [rewrite A2, I2; reflexivity|].
        split; [|exact A4].
        intros d Hd. destruct (FR d Hd) as [D1 D2].
        rewrite A3 by assumption. rewrite F2 by assumption. now apply F1.
    + rewrite map_app, H3.
      replace (map (fun p => horner (sc :: rest) p acc) new1)
        with (map (fun p => horner rest p (acc * getVal sc + i0)) new1).
      * rewrite H2. cbn [Nat.mul]. rewrite zrange_app. f_equal. f_equal. lia.
      * apply map_ext_in. intros p Hp. destruct (P2 p Hp) as [_ [_ [A3 _]]].
        unfold horner. cbn [fold_left]. f_equal. f_equal.
        symmetry. apply offset_of_lookup. rewrite A3 by assumption. exact L1.
Qed.

Lemma visit_ok_cons (sc : Scalar) (rest : list Scalar) :
  ~ In (getName sc) (map getName rest) ->
  0 <= getVal sc ->
  (forall i, In i rest -> 0 <= getVal i) ->
  visit_ok rest -> visit_ok (sc :: rest).
Proof.
  intros Hsc He Hpos Hrest tr tp acc Hnames.
  pose proof (extent_product_nonneg rest Hpos) as HEP.
  destruct (visit_loop sc rest Hsc Hpos Hrest (Z.to_nat (getVal sc)) 0 tr tp acc)
    as [new [tp' [E [N [I [F [P H]]]]]]]; try lia; try assumption.
  exists new, tp'. cbn [visit_list].
  split; [exact E|]. do 4 (split; [assumption|]).
  rewrite H, extent_product_cons. f_equal; [lia|].
  rewrite Z2Nat.inj_mul by assumption. reflexivity.
Qed.

Lemma visit_ok_all (V : list Scalar) :
  NoDup (map getName V) -> (forall i, In i V -> 0 <= getVal i) -> visit_ok V.
Proof.
  induction V as [|sc rest IH]; intros ND Hpos; [apply visit_ok_nil|].
  cbn [map] in ND. inversion ND as [|? ? Hsc ND']; subst.
  assert (Hpos' : forall i, In i rest -> 0 <= getVal i).
  { intros i Hi. apply Hpos. now right. }
  apply visit_ok_cons; auto. apply Hpos. now left.
Qed.

Lemma lin_fold_mixed_radix (p : Tuple) (L : list Scalar) (idx prev : Z) :
  fst (fold_left (lin_step p) L (idx, prev)) = idx + prev * mixed_radix L p.
Proof.
  revert idx prev. induction L as [|i L IH]; intros idx prev.
  - cbn. lia.
  - cbn [fold_left]. unfold lin_step at 2. rewrite IH.
    cbn [mixed_radix fold_right]. fold (mixed_radix L p). lia.
Qed.

Lemma horner_app (V W : list Scalar) (p : Tuple) (acc : Z) :
  horner (V ++ W) p acc = horner W p (horner V p acc).
Proof. unfold horner. apply fold_left_app. Qed.

Lemma horner_rev (L : list Scalar) (p : Tuple) :
  horner (rev L) p 0 = mixed_radix L p.
Proof.
  induction L as [|i L IH]; [reflexivity|].
  cbn [rev]. rewrite horner_app, IH. unfold horner. cbn [fold_left].
  cbn [mixed_radix fold_right]. fold (mixed_radix L p). lia.
Qed.

Lemma rev_layout_dims (t : Tuple) : rev (layout_dims t) = visit_dims t.
Proof.
  unfold layout_dims, visit_dims. destruct (_firstInner t); [reflexivity|].
  apply rev_involutive.
Qed.

Lemma linearize_spec_horner (t p : Tuple) :
  linearize_spec t p = horner (visit_dims t) p 0.
Proof.
  unfold linearize_spec. fold (layout_dims t).
  rewrite lin_fold_mixed_radix, <- rev_layout_dims, horner_rev. lia.
Qed.

Lemma mixed_radix_bound (L : list Scalar) (p : Tuple) :
  in_box L p -> 0 <= mixed_radix L p < extent_product L.
Proof.
  induction L as [|i L IH]; intros H.
  - cbn. lia.
  - apply in_box_cons in H as [Hi HL]. specialize (IH HL).
    cbn [mixed_radix fold_right]. fold (mixed_radix L p).
    rewrite extent_product_cons. nia.
Qed.

Lemma mixed_radix_inj (L : list Scalar) (p o : Tuple) :
  in_box L p -> in_box L o -> mixed_radix L p = mixed_radix L o ->
  forall i, In i L -> offset_of p i = offset_of o i.
Proof.
  induction L as [|j L IH]; intros Hp Ho E i Hi; [destruct Hi|].
  apply in_box_cons in Hp as [Hp1 Hp2]. apply in_box_cons in Ho as [Ho1 Ho2].
  cbn [mixed_radix fold_right] in E.
  fold (mixed_radix L p) in E. fold (mixed_radix L o) in E.
  assert (A : mixed_radix L p = mixed_radix L o) by nia.
  destruct Hi as [<-|Hi]; [nia|]. now apply IH.
Qed.

Lemma wrapT_in_T (v : Z) : in_T (wrapT v).
Proof.
  unfold in_T, wrapT.
  pose proof (Z.mod_pos_bound (v + 2 ^ 63) (2 ^ 64)). lia.
Qed.

Lemma to_size_t_inj (a b : Z) :
  in_T a -> in_T b -> to_size_t a = to_size_t b -> a = b.
Proof.
  unfold in_T. intros Ha Hb.
  assert (A : to_size_t a = a \/ to_size_t a = a + 2 ^ 64).
  { destruct (Z.lt_ge_cases a 0);
      [right; apply to_size_t_neg; lia
      |left; apply to_size_t_small; unfold size_t_modulus; lia]. }
  assert (B : to_size_t b = b \/ to_size_t b = b + 2 ^ 64).
  { destruct (Z.lt_ge_cases b 0);
      [right; apply to_size_t_neg; lia
      |left; apply to_size_t_small; unfold size_t_modulus; lia]. }
  assert (0 <= to_size_t a < 2 ^ 64) by (apply Z.mod_pos_bound; reflexivity).
  assert (0 <= to_size_t b < 2 ^ 64) by (apply Z.mod_pos_bound; reflexivity).
  intros E. lia.
Qed.

Lemma product_in_T (t : Tuple) :
  (forall i, In i (_q t) -> in_T (getVal i)) -> in_T (product t).
Proof.
  intros H. unfold product, reduce.
  destruct (negb (size t =? 0)); [|unfold in_T; lia].
  assert (G : forall l r n, (forall i, In i l -> in_T (getVal i)) -> in_T r ->
              in_T (fst (fold_left
                           (fun (st : Z * Z) i =>
                              let '(result, n) := st in
                              ((if n =? 0 then getVal i
                                else wrapT (result * getVal i)), n + 1))
                           l (r, n)))).
  { induction l as [|i l IH]; intros r n Hl Hr; [exact Hr|].
    cbn [fold_left]. apply IH; [intros j Hj; apply Hl; now right|].
    destruct (n =? 0); [apply Hl; now left|apply wrapT_in_T]. }
  apply G; [exact H|unfold in_T; lia].
Qed.

Lemma product_exact (t : Tuple) :
  (forall i, In i (_q t) -> in_T (getVal i)) ->
  in_T (extent_product (_q t)) ->
  product t = extent_product (_q t).
Proof.
  intros H HP. apply to_size_t_inj; [now apply product_in_T|exact HP|].
  apply product_to_size_t.
Qed.

Lemma areDimsSame_names (t p : Tuple) :
  dimNames p = dimNames t -> areDimsSame t p = true.
Proof.
  intros N. unfold areDimsSame, size.
  replace (List.length (_q p)) with (List.length (_q t)).
  - rewrite Z.eqb_refl. cbn [negb]. apply forallb_forall. intros i Hi.
    destruct (lookup p (getName i)) eqn:E; [reflexivity|].
    apply lookup_q_None in E. exfalso. apply E.
    fold (dimNames p). rewrite N. now apply in_map.
  - rewrite <- (length_map getName (_q t)), <- (length_map getName (_q p)).
    fold (dimNames t) (dimNames p). now rewrite N.
Qed.

Lemma in_box_visit_dims (t p : Tuple) :
  in_box (visit_dims t) p <-> in_box (_q t) p.
Proof.
  unfold visit_dims, in_box. destruct (_firstInner t); [|reflexivity].
  split; intros H i Hi; apply H; [now apply -> in_rev|now apply in_rev].
Qed.

Lemma extent_product_visit_dims (t : Tuple) :
  extent_product (visit_dims t) = extent_product (_q t).
Proof.
  unfold visit_dims. destruct (_firstInner t); [apply extent_product_rev|reflexivity].
Qed.

Lemma for_T_ext {S : Type} (f g : Z -> S -> option S) :
  (forall i s, f i s = g i s) ->
  forall n i s, for_T n i f s = for_T n i g s.
Proof.
  intros H. induction n as [|n IH]; intros i s; cbn [for_T]; [reflexivity|].
  rewrite H. destruct (g i s); [apply IH|reflexivity].
Qed.

Lemma skipn_nth_error {A : Type} (l : list A) (k : nat) (x : A) :
  nth_error l k = Some x -> skipn k l = x :: skipn (S k) l.
Proof.
  revert l. induction k as [|k IH]; intros [|y l] H; try discriminate H.
  - injection H as ->. reflexivity.
  - cbn [skipn]. now apply IH.
Qed.

Lemma firstn_nth_error {A : Type} (l : list A) (k : nat) (x : A) :
  nth_error l k = Some x -> firstn (S k) l = firstn k l ++ [x].
Proof.
  revert l. induction k as [|k IH]; intros [|y l] H; try discriminate H.
  - injection H as ->. reflexivity.
  - cbn [firstn app]. f_equal. now apply IH.
Qed.

(** Stepping up from dimension [k] visits the dimensions [k, k+1, ..]. *)
Lemma visitAllPoints_rec_up (this : Tuple) (fuel : nat) :
  forall (k : nat) (st : list Tuple * Tuple),
    (k <= List.length (_q this))%nat ->
    (List.length (_q this) - k < fuel)%nat ->
    visitAllPoints_rec fuel this (Z.of_nat k) 1 st
    = visit_list (skipn k (_q this)) st.
Proof.
  induction fuel as [|fuel IH]; intros k st Hk Hf; [lia|].
  cbn [visitAllPoints_rec]. unfold size.
  destruct (Z.ltb_spec (Z.of_nat k) 0); [lia|]. cbn [orb].
  rewrite Z.geb_leb.
  destruct (Z.leb_spec (Z.of_nat (List.length (_q this))) (Z.of_nat k)).
  - rewrite skipn_all2 by lia. reflexivity.
  - rewrite Nat2Z.id.
    destruct (nth_error (_q this) k) as [sc|] eqn:N;
      [|apply nth_error_None in N; lia].
    rewrite (skipn_nth_error _ _ _ N). cbn [visit_list].
    apply for_T_ext. intros i s. destruct (setVal (snd s) (getName sc) i); [|reflexivity].
    replace (Z.of_nat k + 1) with (Z.of_nat (S k)) by lia.
    apply IH; lia.
Qed.

(** Stepping down from dimension [k - 1] visits [k-1, k-2, .., 0]. *)
Lemma visitAllPoints_rec_down (this : Tuple) (fuel : nat) :
  forall (k : nat) (st : list Tuple * Tuple),
    (k <= List.length (_q this))%nat -> (k < fuel)%nat ->
    visitAllPoints_rec fuel this (Z.of_nat k - 1) (-1) st
    = visit_list (rev (firstn k (_q this))) st.
Proof.
  induction fuel as [|fuel IH]; intros k st Hk Hf; [lia|].
  cbn [visitAllPoints_rec]. unfold size.
  destruct k as [|k].
  - reflexivity.
  - destruct (Z.ltb_spec (Z.of_nat (S k) - 1) 0); [lia|]. cbn [orb].
    rewrite Z.geb_leb.
    destruct (Z.leb_spec (Z.of_nat (List.length (_q this))) (Z.of_nat (S k) - 1));
      [lia|].
    replace (Z.to_nat (Z.of_nat (S k) - 1)) with k by lia.
    destruct (nth_error (_q this) k) as [sc|] eqn:N;
      [|apply nth_error_None in N; lia].
    rewrite (firstn_nth_error _ _ _ N), rev_app_distr. cbn [rev app visit_list].
    apply for_T_ext. intros i s. destruct (setVal (snd s) (getName sc) i); [|reflexivity].
    replace (Z.of_nat (S k) - 1 + -1) with (Z.of_nat k - 1) by lia.
    apply IH; lia.
Qed.

Lemma visitAllPoints_unfold (t : Tuple) :
  visitAllPoints t = option_map fst (visit_list (visit_dims t) ([], t)).
Proof.
  unfold visitAllPoints, visit_dims. cbv zeta.
  destruct (Z.eqb_spec (size t) 0) as [E|E].
  - unfold size in E. destruct (_q t); [|cbn [List.length] in E; lia].
    destruct (_firstInner t); reflexivity.
  - destruct (_firstInner t).
    + unfold size. rewrite visitAllPoints_rec_down by lia.
      now rewrite firstn_all.
    + rewrite (visitAllPoints_rec_up t _ 0) by lia. reflexivity.
Qed.

Lemma nth_error_zrange (lo : Z) (n k : nat) :
  (k < n)%nat -> nth_error (zrange lo n) k = Some (lo + Z.of_nat k).
Proof.
  intros H. unfold zrange. rewrite nth_error_map, nth_error_seq.
  destruct (Nat.ltb_spec k n); [reflexivity|lia].
Qed.

(** C2: on a tuple of extents (unique names, values at least 0, product
    within [T]) [visitAllPoints] returns after calling the visitor
    [product()] times; the tuples passed are points of the box, no point
    twice and every point of the box among them, and the k-th call
    receives the point whose [layout] index, under the orientation of the
    extents, is k; a tuple without dimensions gives one call. *)
Theorem visitAllPoints_enumerates (t : Tuple) :
  wf t ->
  (forall i, In i (_q t) -> 0 <= getVal i < 2 ^ 63) ->
  extent_product (_q t) < 2 ^ 63 ->
  exists pts : list Tuple,
    visitAllPoints t = Some pts /\
    Z.of_nat (List.length pts) = product t /\
    map (fun p => layout t p true) pts
    = map Some (zrange 0 (List.length pts)) /\
    NoDup pts /\
    (forall p, In p pts -> dimNames p = dimNames t /\ in_box (_q t) p) /\
    (forall o, areDimsSame t o = true -> in_box (_q t) o ->
               exists p, In p pts /\
                         forall i, In i (_q t) ->
                                   lookup p (getName i) = lookup o (getName i)) /\
    (_q t = [] -> pts = [t]).
Proof.
  intros W HT HP.
  assert (Hpos : forall i, In i (_q t) -> 0 <= getVal i).
  { intros i Hi. apply HT. exact Hi. }
  pose proof (extent_product_nonneg _ Hpos) as HEP.
  assert (Hpos' : forall i, In i (visit_dims t) -> 0 <= getVal i).
  { intros i Hi. apply Hpos. unfold visit_dims in Hi.
    destruct (_firstInner t); [now apply in_rev|exact Hi]. }
  assert (ND : NoDup (map getName (visit_dims t))).
  { unfold visit_dims. destruct (_firstInner t); [|exact W].
    rewrite map_rev. apply NoDup_rev. exact W. }
  destruct (visit_ok_all _ ND Hpos' [] t 0) as [pts [tp' [E [_ [_ [_ [P H]]]]]]].
  { intros sc Hsc. apply in_map. unfold visit_dims in Hsc.
    destruct (_firstInner t); [now apply in_rev|exact Hsc]. }
  cbn [app] in E. rewrite extent_product_visit_dims in H.
  rewrite Z.mul_0_l in H.
  assert (LEN : List.length pts = Z.to_nat (extent_product (_q t))).
  { rewrite <- (length_map (fun p => horner (visit_dims t) p 0)), H.
    apply zrange_length. }
  assert (LAY : forall p, In p pts ->
                          layout t p true = Some (horner (visit_dims t) p 0)).
  { intros p Hp. destruct (P p Hp) as [A1 [_ [_ A4]]].
    rewrite layout_in_box.
    - now rewrite linearize_spec_horner.
    - intros _. now apply areDimsSame_names.
    - now apply in_box_visit_dims.
    - unfold size_t_modulus. lia. }
  assert (MAP : map (fun p => layout t p true) pts
                = map Some (zrange 0 (List.length pts))).
  { rewrite LEN, <- H, map_map. now apply map_ext_in. }
  exists pts. rewrite visitAllPoints_unfold, E. cbn [option_map fst].
  split; [reflexivity|]. split; [|split; [exact MAP|split; [|split; [|split]]]].
  - rewrite LEN, Z2Nat.id by assumption. symmetry. apply product_exact.
    + intros i Hi. specialize (HT i Hi). unfold in_T. lia.
    + unfold in_T. lia.
  - apply (NoDup_map_inv (fun p => layout t p true)). rewrite MAP.
    apply Finite.Injective_map_NoDup; [intros a b; congruence|].
    unfold zrange. apply Finite.Injective_map_NoDup; [|apply seq_NoDup].
    intros a b. lia.
  - intros p Hp. destruct (P p Hp) as [A1 [_ [_ A4]]].
    split; [exact A1|now apply in_box_visit_dims].
  - intros o Ho Hbox.
    pose proof (mixed_radix_bound _ _ (in_box_layout_dims _ _ Hbox)) as B.
    rewrite extent_product_layout_dims in B.
    destruct (nth_error pts (Z.to_nat (mixed_radix (layout_dims t) o))) as [p|] eqn:N.
    2:{ apply nth_error_None in N. lia. }
    exists p. pose proof (nth_error_In _ _ N) as Hp. split; [exact Hp|].
    assert (K : layout t p true = Some (mixed_radix (layout_dims t) o)).
    { pose proof (map_nth_error (fun p => layout t p true) _ _ N) as M.
      rewrite MAP, nth_error_map, nth_error_zrange in M by lia.
      cbn [option_map] in M. injection M as M. rewrite <- M. f_equal. lia. }
    rewrite (LAY p Hp), <- rev_layout_dims, horner_rev in K. injection K as K.
    destruct (P p Hp) as [A1 [_ [_ A4]]].
    apply in_box_visit_dims in A4.
    pose proof (mixed_radix_inj _ _ _ (in_box_layout_dims _ _ A4)
                                (in_box_layout_dims _ _ Hbox) K) as INJ.
    intros i Hi.
    assert (Hi' : In i (layout_dims t)).
    { unfold layout_dims. destruct (_firstInner t); [exact Hi|now apply -> in_rev]. }
    specialize (INJ i Hi'). unfold offset_of in INJ.
    destruct (lookup p (getName i)) eqn:Lp.
    2:{ apply lookup_q_None in Lp. exfalso. apply Lp. fold (dimNames p).
        rewrite A1. now apply in_map. }
    destruct (lookup o (getName i)) eqn:Lo; [now rewrite INJ|].
    unfold areDimsSame in Ho. destruct (negb (size t =? size o)); [discriminate|].
    rewrite forallb_forall in Ho. specialize (Ho i Hi). now rewrite Lo in Ho.
  - intros Q. rewrite Q in LEN. rewrite extent_product_nil in LEN.
    destruct pts as [|p [|p' pts]]; try discriminate LEN.
    destruct (P p (or_introl eq_refl)) as [A1 [A2 [A3 _]]].
    f_equal. destruct p as [qp fp], t as [qt ft]. cbn in *. subst qt.
    unfold dimNames in A1. cbn in A1. destruct qp; [|discriminate A1].
    now subst.
Qed.

Lemma visitAllPoints_enumerates_witness :
  exists pts : list Tuple,
    visitAllPoints (mk true [("x"%string, 4); ("y"%string, 3)]) = Some pts /\
    Z.of_nat (List.length pts) = 12 /\
    map (fun p => layout (mk true [("x"%string, 4); ("y"%string, 3)]) p true) pts
    = map Some (zrange 0 (List.length pts)).
Proof.
  destruct (visitAllPoints_enumerates (mk true [("x"%string, 4); ("y"%string, 3)]))
    as [pts [E [L [M _]]]].
  - repeat apply addDimBack_wf. constructor.
  - intros i [<-|[<-|[]]]; cbn; lia.
  - reflexivity.
  - exists pts. split; [exact E|]. split; [exact L|exact M].
Defined.

(* ------------------------------------------------------------------ *)
(** ** Comparison operators *)

Lemma append_nil_r (s : string) : String.append s EmptyString = s.
Proof. induction s as [|c s IH]; cbn; [reflexivity|now rewrite IH]. Qed.

Lemma append_assoc (s1 s2 s3 : string) :
  String.append (String.append s1 s2) s3 = String.append s1 (String.append s2 s3).
Proof. induction s1 as [|c s1 IH]; cbn; [reflexivity|now rewrite IH]. Qed.

Lemma makeDimStr_concat (t : Tuple) :
  makeDimStr t = String.concat ", " (dimNames t).
Proof.
  unfold makeDimStr, makeDimStr_with, dimNames.
  set (step := fun (st : string * Z) (i : Scalar) =>
                 let '(oss, n) := st in
                 let oss0 := String.append oss
                               (if negb (n =? 0) then ", "%string else EmptyString) in
                 (String.append oss0
                    (String.append EmptyString (String.append (getName i) EmptyString)),
                  n + 1)).
  set (tail := fun l : list Scalar =>
                 fold_right (fun i acc => String.append ", " (String.append (getName i) acc))
                            EmptyString l).
  assert (G : forall l s n, 0 < n ->
                            fst (fold_left step l (s, n)) = String.append s (tail l)).
  { induction l as [|i l IH]; intros s n Hn; cbn [fold_left].
    - cbn. now rewrite append_nil_r.
    - unfold step at 2. destruct (Z.eqb_spec n 0); [lia|]. cbn [negb].
      rewrite IH by lia. cbn [String.append]. rewrite append_nil_r.
      rewrite !append_assoc. reflexivity. }
  assert (C : forall l x, String.concat ", " (x :: map getName l)
                          = String.append x (tail l)).
  { induction l as [|i l IH]; intros x.
    - cbn. now rewrite append_nil_r.
    - cbn [map]. change (String.concat ", " (x :: getName i :: map getName l))
        with (String.append x (String.append ", " (String.concat ", " (getName i :: map getName l)))).
      rewrite IH. reflexivity. }
  destruct (_q t) as [|i l]; [reflexivity|].
  cbn [fold_left map]. unfold step at 2. cbn [Z.eqb negb String.append].
  rewrite append_nil_r, G by lia. now rewrite C.
Qed.

Lemma lookup_q_mid (pre post : list Scalar) (i : Scalar) :
  NoDup (map getName (pre ++ i :: post)) ->
  lookup_q (pre ++ i :: post) (getName i) = Some (getVal i).
Proof.
  intros ND. rewrite lookup_q_app.
  destruct (lookup_q pre (getName i)) eqn:E.
  - exfalso. apply lookup_q_Some_In in E.
    rewrite map_app in ND. cbn [map] in ND.
    apply NoDup_remove_2 in ND. apply ND. apply in_or_app. now left.
  - cbn [lookup_q]. now rewrite String.eqb_refl.
Qed.

(** With the same names in the same order, the two loops compare the
    value lists position by position. *)
Lemma loops_aligned (b : Tuple) :
  NoDup (dimNames b) ->
  forall (qa pre qb : list Scalar),
    _q b = pre ++ qb -> map getName qa = map getName qb ->
    lt_loop qa b = Some (lex_ltb (map getVal qa) (map getVal qb)) /\
    eq_loop qa b = Some (list_eqb (map getVal qa) (map getVal qb)).
Proof.
  intros ND. induction qa as [|i qa IH]; intros pre qb Hq Hn.
  - destruct qb; [split; reflexivity|discriminate].
  - destruct qb as [|j qb]; [discriminate|].
    cbn [map] in Hn. injection Hn as Hij Hn.
    assert (L : Tuple_getVal b (getName i) = Some (getVal j)).
    { unfold Tuple_getVal, lookup. rewrite Hq, Hij. apply lookup_q_mid.
      unfold dimNames in ND. now rewrite Hq in ND. }
    destruct (IH (pre ++ [j]) qb) as [IH1 IH2];
      [now rewrite <- app_assoc|assumption|].
    cbn [lt_loop eq_loop map lex_ltb list_eqb]. rewrite L, IH1, IH2.
    split.
    + destruct (getVal i <? getVal j); [reflexivity|].
      destruct (getVal i >? getVal j); reflexivity.
    + destruct (negb (getVal i =? getVal j)); reflexivity.
Qed.

Lemma lex_trichotomy (u v : list Z) :
  List.length u = List.length v ->
  exactly_one (lex_ltb u v = true) (lex_ltb v u = true) (list_eqb u v = true).
Proof.
  revert v. induction u as [|x u IH]; intros [|y v] H; try discriminate H.
  - right. right. cbn. repeat split; discriminate.
  - cbn [List.length] in H. injection H as H. specialize (IH v H).
    cbn [lex_ltb list_eqb]. rewrite !Z.gtb_ltb.
    destruct (Z.ltb_spec x y), (Z.ltb_spec y x), (Z.eqb_spec x y); try lia;
      cbn [negb].
    + left. repeat split; discriminate.
    + right. left. repeat split; discriminate.
    + exact IH.
Qed.

Lemma areDimsSame_sym (a b : Tuple) :
  wf a -> areDimsSame a b = true -> areDimsSame b a = true.
Proof.
  unfold wf, areDimsSame, size. intros W H.
  destruct (Z.eqb_spec (Z.of_nat (List.length (_q a))) (Z.of_nat (List.length (_q b))))
    as [E|E]; [|discriminate].
  cbn [negb] in H. rewrite forallb_forall in H.
  destruct (Z.eqb_spec (Z.of_nat (List.length (_q b))) (Z.of_nat (List.length (_q a))));
    [|lia].
  cbn [negb]. apply forallb_forall. intros i Hi.
  assert (I : incl (dimNames a) (dimNames b)).
  { intros d Hd. unfold dimNames in Hd. apply in_map_iff in Hd as [j [<- Hj]].
    specialize (H j Hj). apply lookup_In_names.
    destruct (lookup b (getName j)); [discriminate|discriminate H]. }
  assert (I' : incl (dimNames b) (dimNames a)).
  { apply NoDup_length_incl; [exact W| |exact I].
    unfold dimNames. rewrite !length_map. lia. }
  assert (Hin : In (getName i) (dimNames a)).
  { apply I'. unfold dimNames. now apply in_map. }
  apply lookup_In_names in Hin. destruct (lookup a (getName i)); [reflexivity|congruence].
Qed.

Lemma eq_loop_total (b : Tuple) (q : list Scalar) :
  (forall i, In i q -> lookup b (getName i) <> None) ->
  exists r, eq_loop q b = Some r.
Proof.
  induction q as [|i q IH]; intros H; [now exists true|].
  cbn [eq_loop]. unfold Tuple_getVal.
  destruct (lookup b (getName i)) as [v|] eqn:E; [|exfalso; apply (H i); [now left|exact E]].
  destruct (negb (getVal i =? v)); [now exists false|].
  apply IH. intros j Hj. apply H. now right.
Qed.

Lemma lt_loop_total (b : Tuple) (q : list Scalar) :
  (forall i, In i q -> lookup b (getName i) <> None) ->
  exists r, lt_loop q b = Some r.
Proof.
  induction q as [|i q IH]; intros H; [now exists false|].
  cbn [lt_loop]. unfold Tuple_getVal.
  destruct (lookup b (getName i)) as [v|] eqn:E; [|exfalso; apply (H i); [now left|exact E]].
  destruct (getVal i <? v); [now exists true|].
  destruct (getVal i >? v); [now exists false|].
  apply IH. intros j Hj. apply H. now right.
Qed.

Lemma areDimsSame_lookup (a b : Tuple) :
  areDimsSame a b = true ->
  forall i, In i (_q a) -> lookup b (getName i) <> None.
Proof.
  unfold areDimsSame. destruct (negb (size a =? size b)); [discriminate|].
  rewrite forallb_forall. intros H i Hi. specialize (H i Hi).
  destruct (lookup b (getName i)); [discriminate|discriminate H].
Qed.

(** The first value of [this] that differs from the value of the same
    dimension in [rhs] decides [lt_loop]. *)
Lemma lt_loop_first_difference (b : Tuple) (q : list Scalar) :
  lt_loop q b = Some true <->
  exists q1 i q2 v,
    q = q1 ++ i :: q2 /\
    (forall j, In j q1 -> lookup b (getName j) = Some (getVal j)) /\
    lookup b (getName i) = Some v /\ getVal i < v.
Proof.
  induction q as [|i q IH].
  - split; [discriminate|]. intros [q1 [i [q2 [v [E _]]]]].
    destruct q1; discriminate E.
  - cbn [lt_loop]. unfold Tuple_getVal.
    destruct (lookup b (getName i)) as [v|] eqn:L.
    + destruct (Z.ltb_spec (getVal i) v) as [C|C].
      * split; [intros _|reflexivity].
        exists [], i, q, v. repeat split; auto. intros j [].
      * rewrite Z.gtb_ltb. destruct (Z.ltb_spec v (getVal i)) as [D|D].
        -- split; [discriminate|]. intros [q1 [i' [q2 [v' [E [F [L' G]]]]]]].
           destruct q1 as [|j q1]; cbn [app] in E; injection E as -> E.
           ++ rewrite L in L'. injection L' as <-. lia.
           ++ specialize (F j (or_introl eq_refl)). rewrite L in F.
              injection F as F. lia.
        -- assert (v = getVal i) by lia. subst v. rewrite IH. split.
           ++ intros [q1 [i' [q2 [v' [E [F [L' G]]]]]]].
              exists (i :: q1), i', q2, v'. subst q. repeat split; auto.
              intros j [<-|Hj]; [exact L|now apply F].
           ++ intros [q1 [i' [q2 [v' [E [F [L' G]]]]]]].
              destruct q1 as [|j q1]; cbn [app] in E; injection E as -> E.
              ** rewrite L in L'. injection L' as <-. lia.
              ** exists q1, i', q2, v'. repeat split; auto.
                 intros k Hk. apply F. now right.
    + split; [discriminate|]. intros [q1 [i' [q2 [v' [E [F [L' G]]]]]]].
      destruct q1 as [|j q1]; cbn [app] in E; injection E as -> E.
      * congruence.
      * specialize (F j (or_introl eq_refl)). congruence.
Qed.

Lemma list_eqb_sym (u v : list Z) :
  List.length u = List.length v -> list_eqb u v = list_eqb v u.
Proof.
  revert v. induction u as [|x u IH]; intros [|y v] H; try discriminate H;
    [reflexivity|].
  cbn [list_eqb]. rewrite (Z.eqb_sym y x).
  destruct (negb (x =? y)); [reflexivity|]. apply IH. now injection H.
Qed.

Lemma string_ltb_trichotomy (s1 s2 : string) :
  s1 <> s2 ->
  (String.ltb s1 s2 = true /\ String.ltb s2 s1 = false) \/
  (String.ltb s1 s2 = false /\ String.ltb s2 s1 = true).
Proof.
  intros N. unfold String.ltb. rewrite (String.compare_antisym s2 s1).
  destruct (String.compare s1 s2) eqn:C; cbn; auto.
  apply String.compare_eq_iff in C. contradiction.
Qed.

Lemma size_names (a b : Tuple) : dimNames a = dimNames b -> size a = size b.
Proof.
  intros N. unfold size.
  rewrite <- (length_map getName (_q a)), <- (length_map getName (_q b)).
  fold (dimNames a) (dimNames b). now rewrite N.
Qed.

(** On two tuples of one branch the four results are defined and exactly
    one of [a < b], [b < a], [a == b] is true. *)
Lemma cmp_cases (a b : Tuple) :
  wf a -> wf b -> same_branch a b ->
  exists x y z : bool,
    Tuple_lt a b = Some x /\ Tuple_lt b a = Some y /\
    Tuple_eq a b = Some z /\ Tuple_eq b a = Some z /\
    ((x = true /\ y = false /\ z = false) \/
     (x = false /\ y = true /\ z = false) \/
     (x = false /\ y = false /\ z = true)).
Proof.
  intros Wa Wb C. unfold Tuple_lt, Tuple_eq.
  destruct (Z.eq_dec (size a) (size b)) as [E|NE].
  - destruct (Z.ltb_spec (size a) (size b)); [lia|].
    destruct (Z.ltb_spec (size b) (size a)); [lia|].
    rewrite !Z.gtb_ltb.
    destruct (Z.ltb_spec (size a) (size b)); [lia|].
    destruct (Z.ltb_spec (size b) (size a)); [lia|].
    destruct C as [C|[N|[D S]]]; [contradiction| |].
    + rewrite (areDimsSame_names a b) by congruence.
      rewrite (areDimsSame_names b a) by congruence. cbn [negb].
      destruct (loops_aligned b Wb (_q a) [] (_q b) eq_refl N) as [L1 E1].
      destruct (loops_aligned a Wa (_q b) [] (_q a) eq_refl (eq_sym N)) as [L2 E2].
      rewrite L1, L2, E1, E2.
      assert (LEN : List.length (map getVal (_q a)) = List.length (map getVal (_q b))).
      { rewrite !length_map. unfold size in E. lia. }
      rewrite (list_eqb_sym (map getVal (_q b))) by congruence.
      exists (lex_ltb (map getVal (_q a)) (map getVal (_q b))),
             (lex_ltb (map getVal (_q b)) (map getVal (_q a))),
             (list_eqb (map getVal (_q a)) (map getVal (_q b))).
      do 4 (split; [reflexivity|]).
      destruct (lex_trichotomy _ _ LEN) as [[P [Q R]]|[[P [Q R]]|[P [Q R]]]];
        repeat match goal with
               | H : ?x <> true |- _ => apply not_true_is_false in H
               end; auto.
    + assert (D' : areDimsSame b a = false).
      { destruct (areDimsSame b a) eqn:F; [|reflexivity].
        apply (areDimsSame_sym b a Wb) in F. congruence. }
      rewrite D, D'. cbn [negb].
      exists (String.ltb (makeDimStr a) (makeDimStr b)),
             (String.ltb (makeDimStr b) (makeDimStr a)), false.
      do 4 (split; [reflexivity|]).
      destruct (string_ltb_trichotomy _ _ S) as [[P Q]|[P Q]]; auto.
  - assert (D : areDimsSame a b = false).
    { unfold areDimsSame. destruct (Z.eqb_spec (size a) (size b)); [lia|reflexivity]. }
    assert (D' : areDimsSame b a = false).
    { unfold areDimsSame. destruct (Z.eqb_spec (size b) (size a)); [lia|reflexivity]. }
    rewrite D, D', !Z.gtb_ltb. cbn [negb].
    destruct (Z.ltb_spec (size a) (size b)), (Z.ltb_spec (size b) (size a)); try lia.
    + exists true, false, false. do 4 (split; [reflexivity|]). auto.
    + exists false, true, false. do 4 (split; [reflexivity|]). auto.
Qed.

(** C5, as the code has it: [operator<] puts the tuple with fewer
    dimensions first; with equal counts and matching names the first
    value of [this], in the order of [this], that differs from the value
    of the same dimension of [rhs] decides; otherwise the comma-joined
    name strings are compared; no assertion fires.  [!=], [<=], [>], [>=]
    are derived from [==] and [<].  On two tuples with unique names that
    differ in count, or list the same names in the same order, or have
    different name sets and different name strings, exactly one of
    [a < b], [b < a], [a == b] holds, [a > b] is [b < a] and [a >= b] is
    [b <= a]. *)
Theorem Tuple_lt_order (a b : Tuple) :
  (size a < size b -> Tuple_lt a b = Some true /\ Tuple_lt b a = Some false) /\
  (size a = size b -> areDimsSame a b = true ->
   (holds (Tuple_lt a b) <->
    exists q1 i q2 v,
      _q a = q1 ++ i :: q2 /\
      (forall j, In j q1 -> lookup b (getName j) = Some (getVal j)) /\
      lookup b (getName i) = Some v /\ getVal i < v)) /\
  (size a = size b -> areDimsSame a b = false ->
   Tuple_lt a b = Some (String.ltb (String.concat ", " (dimNames a))
                                   (String.concat ", " (dimNames b)))) /\
  (exists r, Tuple_lt a b = Some r) /\
  (exists r, Tuple_eq a b = Some r) /\
  Tuple_ne a b = option_map negb (Tuple_eq a b) /\
  (forall e l, Tuple_eq a b = Some e -> Tuple_lt a b = Some l ->
               Tuple_le a b = Some (e || l)) /\
  Tuple_gt a b = option_map negb (Tuple_le a b) /\
  Tuple_ge a b = option_map negb (Tuple_lt a b) /\
  (wf a -> wf b -> same_branch a b ->
   trichotomy a b /\
   Tuple_gt a b = Tuple_lt b a /\
   Tuple_ge a b = Tuple_le b a /\
   (holds (Tuple_ne a b) <-> holds (Tuple_lt a b) \/ holds (Tuple_lt b a))).
Proof.
  repeat match goal with |- _ /\ _ => split end.
  - intros H. unfold Tuple_lt. rewrite !Z.gtb_ltb.
    destruct (Z.ltb_spec (size a) (size b)), (Z.ltb_spec (size b) (size a));
      try lia. auto.
  - intros E D. unfold holds, Tuple_lt. rewrite Z.gtb_ltb, E, Z.ltb_irrefl, D.
    apply lt_loop_first_difference.
  - intros E D. unfold Tuple_lt.
    rewrite Z.gtb_ltb, E, Z.ltb_irrefl, D, !makeDimStr_concat. reflexivity.
  - unfold Tuple_lt. destruct (size a <? size b); [now exists true|].
    destruct (size a >? size b); [now exists false|].
    destruct (areDimsSame a b) eqn:D; [|eexists; reflexivity].
    apply lt_loop_total. now apply areDimsSame_lookup.
  - unfold Tuple_eq. destruct (areDimsSame a b) eqn:D; [|now exists false].
    cbn [negb]. apply eq_loop_total. now apply areDimsSame_lookup.
  - reflexivity.
  - intros e l He Hl. unfold Tuple_le. rewrite He, Hl. now destruct e.
  - reflexivity.
  - reflexivity.
  - intros Wa Wb C.
    destruct (cmp_cases a b Wa Wb C) as [x [y [z [Lab [Lba [Eab [Eba T]]]]]]].
    unfold trichotomy, exactly_one, holds, Tuple_gt, Tuple_ge, Tuple_le, Tuple_ne.
    rewrite Lab, Lba, Eab, Eba.
    destruct T as [[-> [-> ->]]|[[-> [-> ->]]|[-> [-> ->]]]]; cbn;
      repeat split; try tauto; try discriminate;
        try (intros [?|?]; discriminate).
    + left. repeat split; discriminate.
    + right. left. repeat split; discriminate.
    + right. right. repeat split; discriminate.
Qed.

(** C5 fails on [{x:1, y:2}] and [{y:1, x:2}]: the names match, each
    side compares in its own order, and both [a < b] and [b < a] hold. *)
Lemma Tuple_lt_not_asymmetric :
  let a := mk true [("x"%string, 1); ("y"%string, 2)] in
  let b := mk true [("y"%string, 1); ("x"%string, 2)] in
  wf a /\ wf b /\
  Tuple_lt a b = Some true /\ Tuple_lt b a = Some true /\
  ~ trichotomy a b.
Proof.
  cbv zeta. split; [repeat apply addDimBack_wf; constructor|].
  split; [repeat apply addDimBack_wf; constructor|].
  split; [reflexivity|]. split; [reflexivity|].
  unfold trichotomy, exactly_one, holds.
  change (Tuple_lt (mk true [("x"%string, 1); ("y"%string, 2)])
                   (mk true [("y"%string, 1); ("x"%string, 2)])) with (Some true).
  change (Tuple_lt (mk true [("y"%string, 1); ("x"%string, 2)])
                   (mk true [("x"%string, 1); ("y"%string, 2)])) with (Some true).
  intros [[_ [H _]]|[[H _]|[H _]]]; now apply H.
Qed.

(** Two tuples with different name sets and the same comma-joined name
    string ([{"x, y", "z"}] and [{"x", "y, z"}]): none of [a < b],
    [b < a], [a == b] holds. *)
Remark Tuple_lt_equal_name_strings :
  let a := mk true [("x, y"%string, 1); ("z"%string, 2)] in
  let b := mk true [("x"%string, 1); ("y, z"%string, 2)] in
  makeDimStr a = makeDimStr b /\
  Tuple_lt a b = Some false /\ Tuple_lt b a = Some false /\
  Tuple_eq a b = Some false.
Proof. cbv zeta. repeat split. Qed.

(* ------------------------------------------------------------------ *)
(** ** within_tolerance *)

Lemma digits2_pos_bounds (m : positive) :
  2 ^ (Zpos (digits2_pos m) - 1) <= Zpos m < 2 ^ Zpos (digits2_pos m).
Proof.
  induction m as [m IH|m IH|]; cbn [digits2_pos].
  - rewrite Pos2Z.inj_succ, Z.pow_succ_r by lia.
    replace (Z.succ (Zpos (digits2_pos m)) - 1)
      with (Z.succ (Zpos (digits2_pos m) - 1)) by lia.
    rewrite Z.pow_succ_r by lia. lia.
  - rewrite Pos2Z.inj_succ, Z.pow_succ_r by lia.
    replace (Z.succ (Zpos (digits2_pos m)) - 1)
      with (Z.succ (Zpos (digits2_pos m) - 1)) by lia.
    rewrite Z.pow_succ_r by lia. lia.
  - cbn. lia.
Qed.

Lemma digits2_pos_mul (a b : positive) :
  Zpos (digits2_pos a) + Zpos (digits2_pos b) - 1 <= Zpos (digits2_pos (a * b)).
Proof.
  pose proof (digits2_pos_bounds a) as [A _].
  pose proof (digits2_pos_bounds b) as [B _].
  pose proof (digits2_pos_bounds (a * b)) as [_ C].
  assert (P : 2 ^ ((Zpos (digits2_pos a) - 1) + (Zpos (digits2_pos b) - 1))
              <= Zpos (a * b)).
  { rewrite Z.pow_add_r by lia. rewrite Pos2Z.inj_mul.
    apply Z.mul_le_mono_nonneg; try assumption; apply Z.pow_nonneg; lia. }
  assert (Q : (Zpos (digits2_pos a) - 1) + (Zpos (digits2_pos b) - 1)
              < Zpos (digits2_pos (a * b))).
  { apply (Z.pow_lt_mono_r_iff 2); lia. }
  lia.
Qed.

Lemma shr_1_lower (mrs : shr_record) (k : Z) :
  0 <= k -> 2 ^ (k + 1) <= shr_m mrs -> 2 ^ k <= shr_m (shr_1 mrs).
Proof.
  intros Hk H. rewrite Z.pow_add_r, Z.pow_1_r in H by lia.
  assert (0 < 2 ^ k) by (apply Z.pow_pos_nonneg; lia).
  destruct mrs as [m r s]. cbn [shr_m] in H.
  destruct m as [|[p|p|]|p]; cbn [shr_1 shr_m]; lia.
Qed.

Lemma iter_shr_1_lower (p : positive) :
  forall (mrs : shr_record) (k : Z),
    0 <= k -> 2 ^ (Zpos p + k) <= shr_m mrs ->
    2 ^ k <= shr_m (iter_pos shr_1 p mrs).
Proof.
  induction p as [p IH|p IH|]; intros mrs k Hk H; cbn [iter_pos].
  - apply IH; [assumption|]. apply IH; [lia|]. apply shr_1_lower; [lia|].
    replace (Zpos p + (Zpos p + k) + 1) with (Zpos p~1 + k) by lia. exact H.
  - apply IH; [assumption|]. apply IH; [lia|].
    replace (Zpos p + (Zpos p + k)) with (Zpos p~0 + k) by lia. exact H.
  - apply shr_1_lower; [assumption|]. now rewrite Z.add_comm.
Qed.

(** Rounding to the binary64 format keeps a mantissa at least 1 when the
    number is at least the smallest subnormal. *)
Lemma shr_fexp_lower (m : positive) (e : Z) (l : location) :
  -1074 < Zpos (digits2_pos m) + e ->
  1 <= shr_m (fst (shr_fexp prec64 emax64 (Zpos m) e l)) /\
  (-1074 <= snd (shr_fexp prec64 emax64 (Zpos m) e l) \/
   shr_fexp prec64 emax64 (Zpos m) e l = (shr_record_of_loc (Zpos m) l, e)).
Proof.
  intros H. unfold shr_fexp, shr, fexp, emin, prec64, emax64.
  cbn [Zdigits2].
  pose proof (digits2_pos_bounds m) as [D _].
  set (d := Zpos (digits2_pos m)) in *.
  destruct (Z.max (d + e - 53) (3 - 1024 - 53) - e) as [|p|p] eqn:N.
  - split; [|now right]. cbn [fst]. destruct l as [|[| |]]; cbn; lia.
  - split; [|left; cbn [snd]; lia]. cbn [fst].
    change 1 with (2 ^ 0).
    apply iter_shr_1_lower; [lia|]. rewrite Z.add_0_r.
    apply Z.le_trans with (2 ^ (d - 1)).
    + apply Z.pow_le_mono_r; lia.
    + destruct l as [|[| |]]; cbn [shr_record_of_loc shr_m]; exact D.
  - split; [|now right]. cbn [fst]. destruct l as [|[| |]]; cbn; lia.
Qed.

Lemma round_nearest_even_lower (mx : Z) (lx : location) :
  1 <= mx -> 1 <= round_nearest_even mx lx.
Proof.
  intros H. destruct lx as [|[| |]]; cbn [round_nearest_even]; try lia.
  destruct (Z.even mx); lia.
Qed.

Lemma binary_round_aux_nonzero (s : bool) (m : positive) (e : Z) :
  -1074 < Zpos (digits2_pos m) + e ->
  exists r, binary_round_aux prec64 emax64 s (Zpos m) e loc_Exact = r /\
            (r = S754_infinity s \/ exists m' e', r = S754_finite s m' e').
Proof.
  intros H. unfold binary_round_aux.
  pose proof (shr_fexp_lower m e loc_Exact H) as [L1 C1].
  destruct (shr_fexp prec64 emax64 (Zpos m) e loc_Exact) as [mrs' e'] eqn:E1.
  cbn [fst snd] in L1, C1.
  pose proof (round_nearest_even_lower _ (loc_of_shr_record mrs') L1) as L2.
  destruct (round_nearest_even (shr_m mrs') (loc_of_shr_record mrs'))
    as [|m2|m2] eqn:R; try lia.
  assert (H2 : -1074 < Zpos (digits2_pos m2) + e').
  { destruct C1 as [C1|C1]; [lia|].
    injection C1 as -> ->. cbn in R. injection R as <-. exact H. }
  pose proof (shr_fexp_lower m2 e' loc_Exact H2) as [L3 _].
  destruct (shr_fexp prec64 emax64 (Zpos m2) e' loc_Exact) as [mrs'' e''].
  cbn [fst] in L3.
  destruct (shr_m mrs'') as [|m3|m3]; try lia.
  eexists. split; [reflexivity|].
  destruct (e'' <=? emax64 - prec64); [right; now exists m3, e''|now left].
Qed.

Lemma valid_double_exponent (s : bool) (m : positive) (e : Z) :
  valid_double (S754_finite s m e) ->
  -1074 <= e /\ (-1074 < e -> Zpos (digits2_pos m) = 53).
Proof.
  unfold valid_double, valid_binary, bounded, canonical_mantissa, fexp, emin,
    prec64, emax64.
  intros H. apply andb_prop in H as [H _]. apply Z.eqb_eq in H. lia.
Qed.

Lemma fgt_one_exponent (s : bool) (m : positive) (e : Z) :
  fgt (fabs (S754_finite s m e)) d_one = true -> -52 <= e.
Proof.
  unfold fgt, fabs, d_one, SFltb, SFabs, SFcompare.
  destruct (Z.compare_spec (-52) e); [lia|lia|discriminate].
Qed.

Lemma fsub_self (x : double) : is_finite x = true -> fsub x x = d_zero.
Proof.
  destruct x as [[|]|s| |s m e]; try discriminate; intros _; try reflexivity.
  unfold fsub, SFsub. rewrite Z.sub_diag. reflexivity.
Qed.

Lemma flt_zero_pos (x : double) :
  x = S754_infinity false \/ (exists m e, x = S754_finite false m e) ->
  flt d_zero x = true.
Proof. intros [->|[m [e ->]]]; reflexivity. Qed.

Lemma pos_cases (eps : double) :
  flt d_zero eps = true ->
  eps = S754_infinity false \/ exists m e, eps = S754_finite false m e.
Proof.
  destruct eps as [s|[|]| |[|] m e]; try discriminate; intros _;
    [now left|right; now exists m, e].
Qed.

(** [within_tolerance(x, x, eps)] for a finite [x] and [eps > 0]. *)
Lemma within_tolerance_refl (x eps : double) :
  valid_double x -> valid_double eps ->
  is_finite x = true -> flt d_zero eps = true ->
  within_tolerance x x eps = true.
Proof.
  intros Vx Ve Fx He. unfold within_tolerance.
  rewrite (fsub_self x Fx). change (fabs d_zero) with d_zero.
  destruct (fgt (fabs x) d_one) eqn:G; [|exact He].
  apply flt_zero_pos.
  destruct x as [sx|sx| |sx mx ex]; try discriminate.
  pose proof (fgt_one_exponent _ _ _ G) as Ex.
  pose proof (valid_double_exponent _ _ _ Vx) as [_ Dx].
  apply pos_cases in He as [->|[me [ee ->]]]; [now left|].
  pose proof (valid_double_exponent _ _ _ Ve) as [Ee _].
  pose proof (digits2_pos_mul mx me) as DM.
  assert (H : -1074 < Zpos (digits2_pos (mx * me)) + (ex + ee)) by lia.
  destruct (binary_round_aux_nonzero (xorb sx false) (mx * me) (ex + ee) H)
    as [r [Er [->|[m' [e' ->]]]]];
    unfold fmul, SFmul; rewrite Er; cbn [fabs SFabs]; [now left|right].
  now exists m', e'.
Qed.

Lemma SFabs_binary_round_aux (s : bool) (m e : Z) (l : location) :
  SFabs (binary_round_aux prec64 emax64 s m e l)
  = binary_round_aux prec64 emax64 false m e l.
Proof.
  unfold binary_round_aux.
  destruct (shr_fexp prec64 emax64 m e l) as [mrs' e'].
  destruct (shr_fexp prec64 emax64 _ e' loc_Exact) as [mrs'' e''].
  destruct (shr_m mrs''); [reflexivity| |reflexivity].
  destruct (e'' <=? emax64 - prec64); reflexivity.
Qed.

Lemma fabs_fmul (r e : double) :
  sign_clear e = true -> fabs (fmul r e) = fmul e (fabs r).
Proof.
  destruct r as [[|]|[|]| |[|] mr er], e as [[|]|[|]| |[|] me ee];
    try discriminate; intros _; try reflexivity;
      unfold fmul, SFmul, fabs; rewrite SFabs_binary_round_aux;
        cbn [SFabs xorb]; now rewrite Pos.mul_comm, Z.add_comm.
Qed.

Lemma fle_fgt_one (x : double) :
  x <> S754_nan -> fle (fabs x) d_one = negb (fgt (fabs x) d_one).
Proof.
  destruct x as [s|[|]| |s m e]; intros N; try reflexivity; [congruence|].
  unfold fle, fgt, fabs, d_one, SFleb, SFltb, SFabs, SFcompare.
  rewrite (Z.compare_antisym (-52) e).
  destruct (Z.compare (-52) e); cbn [CompOpp negb]; try reflexivity.
  pose proof (Pos.compare_cont_antisym 4503599627370496 m Eq) as A.
  cbn [CompOpp] in A. rewrite <- A.
  destruct (Pos.compare_cont Eq 4503599627370496 m); reflexivity.
Qed.

Lemma within_tolerance_is_spec (v r e : double) :
  sign_clear e = true -> within_tolerance v r e = spec_within_tolerance v r e.
Proof.
  intros S. unfold within_tolerance, spec_within_tolerance.
  destruct r as [sr|sr| |sr mr er] eqn:R.
  1, 2, 4: rewrite <- R, fle_fgt_one, fabs_fmul by (subst; (assumption || discriminate));
    destruct (fgt (fabs r) d_one); reflexivity.
  destruct v; reflexivity.
Qed.

Lemma within_tolerance_loop_and (VLEN : Z) (v r e : list double) :
  is_vec VLEN v -> is_vec VLEN r -> is_vec VLEN e ->
  forall (n : nat) (j : Z),
    0 <= j -> j + Z.of_nat n <= VLEN ->
    exists b, within_tolerance_loop VLEN n j v r e = Some b /\
              (b = true <->
               forall i, j <= i < j + Z.of_nat n ->
                         exists x y z, rd VLEN v i = Some x /\
                                       rd VLEN r i = Some y /\
                                       rd VLEN e i = Some z /\
                                       within_tolerance x y z = true).
Proof.
  intros Vv Vr Ve. induction n as [|n IH]; intros j Hj Hn.
  - exists true. split; [reflexivity|]. split; [intros _ i Hi; lia|reflexivity].
  - cbn [within_tolerance_loop].
    destruct (rd VLEN v j) as [x|] eqn:Ex; [|exfalso; revert Ex; apply rd_Some; [assumption|lia]].
    destruct (rd VLEN r j) as [y|] eqn:Ey; [|exfalso; revert Ey; apply rd_Some; [assumption|lia]].
    destruct (rd VLEN e j) as [z|] eqn:Ez; [|exfalso; revert Ez; apply rd_Some; [assumption|lia]].
    destruct (within_tolerance x y z) eqn:W; cbn [negb].
    + destruct (IH (j + 1)) as [b [Eb Hb]]; try lia.
      exists b. split; [exact Eb|]. rewrite Hb. split.
      * intros H i Hi. destruct (Z.eq_dec i j) as [->|N].
        -- now exists x, y, z.
        -- apply H. lia.
      * intros H i Hi. apply H. lia.
    + exists false. split; [reflexivity|]. split; [discriminate|].
      intros H. destruct (H j) as [x' [y' [z' [A [B [C D]]]]]]; [lia|].
      congruence.
Qed.

(** C7, as the code has it: the vector test is the conjunction over the
    lanes of the test on one lane, [|value - reference| <
    effectiveEpsilon], where [effectiveEpsilon] is [epsilon] unless
    [|reference| > 1] and [|reference * epsilon|] then; this is the
    specification's [epsilon * |reference|] whenever the sign of
    [epsilon] is clear.  The test holds on [(x, x, eps)] for a finite [x]
    and [eps > 0], on [(1000.0, 1000.5, 1e-3)] through the relative
    branch, and on [(0.0005, 0.0, 1e-3)] through the absolute one. *)
Theorem within_tolerance_lanes :
  (forall VLEN v r e,
      is_vec VLEN v -> is_vec VLEN r -> is_vec VLEN e ->
      exists b, within_tolerance_vec VLEN v r e = Some b /\
                (b = true <->
                 forall i, 0 <= i < VLEN ->
                           exists x y z, rd VLEN v i = Some x /\
                                         rd VLEN r i = Some y /\
                                         rd VLEN e i = Some z /\
                                         within_tolerance x y z = true)) /\
  (forall v r e,
      within_tolerance v r e
      = flt (fabs (fsub v r))
            (if fgt (fabs r) d_one then fabs (fmul r e) else e)) /\
  (forall v r e,
      sign_clear e = true ->
      within_tolerance v r e = spec_within_tolerance v r e) /\
  (forall x eps,
      valid_double x -> valid_double eps ->
      is_finite x = true -> flt d_zero eps = true ->
      within_tolerance x x eps = true) /\
  (fgt (fabs d_1000_5) d_one = true /\
   within_tolerance d_1000 d_1000_5 d_1e_3 = true) /\
  (fgt (fabs d_zero) d_one = false /\
   within_tolerance d_0_0005 d_zero d_1e_3
   = flt (fabs (fsub d_0_0005 d_zero)) d_1e_3 /\
   within_tolerance d_0_0005 d_zero d_1e_3 = true).
Proof.
  split; [|split; [|split; [|split; [|split]]]].
  - intros VLEN v r e Vv Vr Ve. unfold within_tolerance_vec.
    assert (0 <= VLEN) by (unfold is_vec in Vv; lia).
    destruct (within_tolerance_loop_and VLEN v r e Vv Vr Ve (Z.to_nat VLEN) 0)
      as [b [Eb Hb]]; try lia.
    exists b. split; [exact Eb|]. rewrite Hb.
    split; intros H' i Hi; apply H'; lia.
  - reflexivity.
  - exact within_tolerance_is_spec.
  - exact within_tolerance_refl.
  - split; vm_compute; reflexivity.
  - repeat split; vm_compute; reflexivity.
Qed.

(** C7 fails on [value = 2], [reference = 2], [epsilon = -1]: the code
    compares [|2 - 2| = 0] with [|2 * -1| = 2] and accepts, the stated
    test compares it with [-1 * |2| = -2] and rejects. *)
Lemma within_tolerance_negative_epsilon :
  within_tolerance d_two d_two d_minus_one = true /\
  spec_within_tolerance d_two d_two d_minus_one = false /\
  fabs (fmul d_two d_minus_one) = d_two /\
  fmul d_minus_one (fabs d_two) = S754_finite true 4503599627370496 (-51).
Proof. repeat split; vm_compute; reflexivity. Qed.

(* ================================================================== *)
(** * Further properties of the tuple operations *)

(** ** addDimBack, addDimFront, setVal *)

Lemma lookup_q_snoc (q : list Scalar) (d d' : string) (v : Z) :
  lookup_q (q ++ [mkScalar d v]) d' =
  match lookup_q q d' with
  | Some x => Some x
  | None => if String.eqb d d' then Some v else None
  end.
Proof. rewrite lookup_q_app. reflexivity. Qed.

(** X1: [addDimBack] and [addDimFront] set or insert: afterwards the
    dimension has the given value and every other dimension its old
    one; a dimension already there keeps its place, a new one goes to the
    back, respectively the front; unique names stay unique. *)
Theorem addDim_sets_or_inserts (t : Tuple) (d : string) (v : Z) :
  lookup (addDimBack t d v) d = Some v /\
  lookup (addDimFront t d v) d = Some v /\
  (forall d', d' <> d ->
              lookup (addDimBack t d v) d' = lookup t d' /\
              lookup (addDimFront t d v) d' = lookup t d') /\
  (In d (dimNames t) ->
   dimNames (addDimBack t d v) = dimNames t /\
   dimNames (addDimFront t d v) = dimNames t) /\
  (~ In d (dimNames t) ->
   _q (addDimBack t d v) = _q t ++ [mkScalar d v] /\
   _q (addDimFront t d v) = mkScalar d v :: _q t) /\
  (wf t -> wf (addDimBack t d v) /\ wf (addDimFront t d v)) /\
  _firstInner (addDimBack t d v) = _firstInner t /\
  _firstInner (addDimFront t d v) = _firstInner t.
Proof.
  unfold addDimBack, addDimFront, wf, dimNames, lookup.
  destruct (lookup_q (_q t) d) as [x|] eqn:E; cbn [_q _firstInner].
  - assert (I : In d (map getName (_q t))) by (eapply lookup_q_Some_In; eassumption).
    rewrite !store_q_names, !lookup_store_same by assumption.
    split; [reflexivity|]. split; [reflexivity|].
    split; [intros d' N; split; apply lookup_store_other; congruence|].
    split; [intros _; split; reflexivity|].
    split; [intros N; contradiction|].
    split; [intros W; split; exact W|]. split; reflexivity.
  - assert (N : ~ In d (map getName (_q t))) by now apply lookup_q_None.
    split; [rewrite lookup_q_snoc, E, String.eqb_refl; reflexivity|].
    split; [cbn [lookup_q getName getVal]; now rewrite String.eqb_refl|].
    split.
    { intros d' D. split.
      - rewrite lookup_q_snoc. destruct (lookup_q (_q t) d'); [reflexivity|].
        destruct (String.eqb_spec d d'); [congruence|reflexivity].
      - cbn [lookup_q getName].
        destruct (String.eqb_spec d d'); [congruence|reflexivity]. }
    split; [intros I; contradiction|].
    split; [intros _; split; reflexivity|].
    split; [|split; reflexivity].
    intros W. split.
    + rewrite map_app. cbn [map getName].
      apply NoDup_app; [assumption|repeat constructor; intros []|].
      intros x Hx [<-|[]]. contradiction.
    + cbn [map getName]. now constructor.
Qed.

(** X2: [setVal(dim, val)] fails its assertion exactly when the tuple
    has no such dimension; otherwise the dimension reads back the value,
    the other dimensions keep theirs, and names, order and orientation
    flag are unchanged. *)
Theorem setVal_by_name (t : Tuple) (d : string) (v : Z) :
  (setVal t d v = None <-> ~ In d (dimNames t)) /\
  (forall t', setVal t d v = Some t' ->
              lookup t' d = Some v /\
              (forall d', d' <> d -> lookup t' d' = lookup t d') /\
              dimNames t' = dimNames t /\
              _firstInner t' = _firstInner t).
Proof.
  unfold setVal, lookup, dimNames. split.
  - rewrite <- lookup_q_None. destruct (lookup_q (_q t) d); split; congruence.
  - intros t' H. destruct (lookup_q (_q t) d) eqn:E; [|discriminate].
    injection H as <-. cbn [_q _firstInner].
    apply lookup_q_Some_In in E.
    repeat split.
    + now apply lookup_store_same.
    + intros d' N. apply lookup_store_other. congruence.
    + apply store_q_names.
Qed.

(** ** Access by index *)

Lemma store_at_names (q : list Scalar) (n : nat) (v : Z) :
  map getName (store_at q n v) = map getName q.
Proof.
  revert n. induction q as [|s q IH]; intros [|n]; cbn; try reflexivity.
  now rewrite IH.
Qed.

Lemma store_at_length (q : list Scalar) (n : nat) (v : Z) :
  List.length (store_at q n v) = List.length q.
Proof.
  rewrite <- (length_map getName), store_at_names. apply length_map.
Qed.

Lemma nth_error_store_at (q : list Scalar) (n m : nat) (v : Z) :
  (n < List.length q)%nat ->
  option_map getVal (nth_error (store_at q n v) m) =
  if Nat.eqb m n then Some v else option_map getVal (nth_error q m).
Proof.
  revert n m. induction q as [|s q IH]; intros [|n] [|m]; cbn;
    try lia; try reflexivity.
  intros H. apply IH. lia.
Qed.

Lemma store_at_store_q (q : list Scalar) (n : nat) (s : Scalar) (v : Z) :
  NoDup (map getName q) -> nth_error q n = Some s ->
  store_at q n v = store_q q (getName s) v /\
  lookup_q q (getName s) = Some (getVal s).
Proof.
  revert n. induction q as [|x q IH]; intros [|n] ND H; try discriminate H.
  - injection H as ->. cbn. now rewrite String.eqb_refl.
  - cbn [nth_error] in H. cbn [map] in ND. inversion ND as [|? ? Hx ND']; subst.
    destruct (IH n ND' H) as [A B]. cbn.
    destruct (String.eqb_spec (getName x) (getName s)) as [E|E].
    + exfalso. apply Hx. rewrite E. apply in_map. eapply nth_error_In. eassumption.
    + now rewrite A, B.
Qed.

Lemma lookup_at_range (t : Tuple) (i : Z) :
  lookup_at t i = None <-> i < 0 \/ size t <= i.
Proof.
  unfold lookup_at, size.
  destruct (Z.leb_spec 0 i); cbn [andb]; [|split; [lia|reflexivity]].
  destruct (Z.ltb_spec i (Z.of_nat (List.length (_q t)))); [|split; [lia|reflexivity]].
  destruct (nth_error (_q t) (Z.to_nat i)) eqn:N.
  - split; [discriminate|lia].
  - apply nth_error_None in N. lia.
Qed.

Lemma setVal_at_lookup (t t' : Tuple) (i j v : Z) :
  setVal_at t i v = Some t' ->
  lookup_at t' j = (if j =? i then Some v else lookup_at t j) /\
  dimNames t' = dimNames t /\ _firstInner t' = _firstInner t /\
  size t' = size t.
Proof.
  unfold setVal_at. intros H.
  destruct (lookup_at t i) eqn:L; [|discriminate]. injection H as <-.
  assert (R : ~ (i < 0 \/ size t <= i)).
  { intros F. apply lookup_at_range in F. congruence. }
  unfold lookup_at, size, dimNames in *. cbn [_q _firstInner].
  rewrite store_at_length, store_at_names.
  repeat split.
  destruct ((0 <=? j) && (j <? Z.of_nat (List.length (_q t)))) eqn:C.
  - apply andb_prop in C as [C1 C2]. apply Z.leb_le in C1. apply Z.ltb_lt in C2.
    rewrite nth_error_store_at by lia.
    destruct (Z.eqb_spec j i) as [->|N].
    + now rewrite Nat.eqb_refl.
    + destruct (Nat.eqb_spec (Z.to_nat j) (Z.to_nat i)); [lia|reflexivity].
  - destruct (Z.eqb_spec j i) as [->|N]; [|reflexivity].
    exfalso. apply andb_false_iff in C as [C|C];
      [apply Z.leb_gt in C|apply Z.ltb_ge in C]; lia.
Qed.

(** X3: access by index is bounds-checked: [lookup(i)] and [setVal(i, v)]
    give the null pointer, respectively fail the assertion, exactly for
    [i < 0] or [i >= size()]; a value set at an index reads back there
    and leaves the other indices and all names alone; with unique names,
    access at index [i] is access by the name at index [i]. *)
Theorem index_access (t : Tuple) (i v : Z) :
  (lookup_at t i = None <-> i < 0 \/ size t <= i) /\
  (setVal_at t i v = None <-> i < 0 \/ size t <= i) /\
  (forall t', setVal_at t i v = Some t' ->
              lookup_at t' i = Some v /\
              (forall j, j <> i -> lookup_at t' j = lookup_at t j) /\
              dimNames t' = dimNames t) /\
  (wf t -> forall d, getDimName t i = Some d ->
                     lookup_at t i = lookup t d /\
                     setVal_at t i v = setVal t d v).
Proof.
  split; [apply lookup_at_range|]. split; [|split].
  - rewrite <- lookup_at_range. unfold setVal_at.
    destruct (lookup_at t i); split; congruence.
  - intros t' H. split; [|split].
    + destruct (setVal_at_lookup t t' i i v H) as [A _]. now rewrite Z.eqb_refl in A.
    + intros j N. destruct (setVal_at_lookup t t' i j v H) as [A _].
      destruct (Z.eqb_spec j i); [contradiction|exact A].
    + now destruct (setVal_at_lookup t t' i i v H) as [_ [A _]].
  - intros W d H. unfold getDimName, getDimPtr, setVal_at, lookup_at, setVal, lookup in *.
    destruct ((0 <=? i) && (i <? size t)); [|discriminate].
    destruct (nth_error (_q t) (Z.to_nat i)) as [s|] eqn:N; [|discriminate].
    cbn [option_map] in *. injection H as <-.
    destruct (store_at_store_q (_q t) (Z.to_nat i) s v W N) as [A B].
    now rewrite A, B.
Qed.

(** ** Bulk assignment *)

Lemma setVals_loop (vals : list Z) (n : nat) :
  forall (lo : Z) (t : Tuple),
    0 <= lo ->
    lo + Z.of_nat n <= Z.of_nat (List.length vals) ->
    lo + Z.of_nat n <= size t ->
    exists t',
      for_T n lo (fun i t => match nth_error vals (Z.to_nat i) with
                             | Some v => setVal_at t i v
                             | None => None
                             end) t = Some t' /\
      dimNames t' = dimNames t /\ _firstInner t' = _firstInner t /\
      forall j, lookup_at t' j =
                if (lo <=? j) && (j <? lo + Z.of_nat n)
                then nth_error vals (Z.to_nat j) else lookup_at t j.
Proof.
  induction n as [|n IH]; intros lo t Hlo Hv Hs.
  - exists t. split; [reflexivity|]. do 2 (split; [reflexivity|]).
    intros j. zcases.
  - cbn [for_T].
    destruct (nth_error vals (Z.to_nat lo)) as [v|] eqn:N;
      [|apply nth_error_None in N; lia].
    destruct (setVal_at t lo v) as [t1|] eqn:S1.
    2:{ unfold setVal_at in S1. destruct (lookup_at t lo) eqn:L; [discriminate|].
        apply lookup_at_range in L. lia. }
    pose proof (setVal_at_lookup t t1 lo lo v S1) as [_ [N1 [F1 Z1]]].
    destruct (IH (lo + 1) t1) as [t' [E [N' [F' L']]]]; try lia.
    exists t'. split; [exact E|]. split; [congruence|]. split; [congruence|].
    intros j. rewrite L'.
    destruct (setVal_at_lookup t t1 lo j v S1) as [A _]. rewrite A. clear A.
    destruct (Z.eqb_spec j lo) as [J|D]; [rewrite J|]; zcases. now symmetry.
Qed.

(** X4: [setVals(vals)] never fails and never adds or removes a
    dimension: it assigns the first [min(vals.size(), size())] values by
    position and leaves the later dimensions as they were;
    [setValsSame(val)] gives every dimension the value [val]. *)
Theorem setVals_by_position (t : Tuple) (vals : list Z) (val : Z) :
  (exists t',
      setVals t vals = Some t' /\
      dimNames t' = dimNames t /\ _firstInner t' = _firstInner t /\
      forall j, lookup_at t' j =
                if (0 <=? j) && (j <? Z.min (Z.of_nat (List.length vals)) (size t))
                then nth_error vals (Z.to_nat j) else lookup_at t j) /\
  dimNames (setValsSame t val) = dimNames t /\
  (forall d, In d (dimNames t) -> lookup (setValsSame t val) d = Some val).
Proof.
  split; [|split].
  - unfold setVals, for_int. cbv zeta. fold (size t).
    destruct (setVals_loop vals
                (Z.to_nat (Z.min (Z.of_nat (List.length vals)) (size t) - 0)) 0 t)
      as [t' [E [N [F L]]]]; try lia.
    { unfold size. lia. }
    exists t'. split; [exact E|]. do 2 (split; [assumption|]).
    intros j. rewrite L. unfold size. zcases.
  - unfold setValsSame, dimNames, for_auto_ref. cbn [_q].
    rewrite map_map. reflexivity.
  - intros d. unfold setValsSame, dimNames, lookup, for_auto_ref. cbn [_q].
    induction (_q t) as [|i q IH]; cbn [map In lookup_q Scalar_setVal getName getVal];
      [intros []|].
    intros H. destruct (String.eqb_spec (getName i) d) as [E|E]; [reflexivity|].
    apply IH. destruct H; [contradiction|assumption].
Qed.

Lemma setVals_step_names (addMissing : bool) (this : Tuple) (i : Scalar) :
  dimNames (setVals_step addMissing this i) =
  if addMissing then dimNames (union_step this i) else dimNames this.
Proof.
  unfold setVals_step, union_step, addDimBack, dimNames.
  destruct (lookup this (getName i)); cbn [_q].
  - rewrite store_q_names. now destruct addMissing.
  - destruct addMissing; reflexivity.
Qed.

Lemma setVals_step_lookup (addMissing : bool) (this : Tuple) (i : Scalar)
      (d : string) :
  lookup (setVals_step addMissing this i) d =
  if String.eqb (getName i) d
  then match lookup this d with
       | Some _ => Some (getVal i)
       | None => if addMissing then Some (getVal i) else None
       end
  else lookup this d.
Proof.
  unfold setVals_step, addDimBack.
  destruct (String.eqb_spec (getName i) d) as [<-|N].
  - destruct (lookup this (getName i)) eqn:E.
    + unfold lookup in *. cbn [_q]. apply lookup_store_same.
      eapply lookup_q_Some_In; eassumption.
    + destruct addMissing; [|exact E].
      unfold lookup in *. cbn [_q]. rewrite lookup_q_snoc, E.
      now rewrite String.eqb_refl.
  - destruct (lookup this (getName i)) eqn:E.
    + unfold lookup. cbn [_q]. now apply lookup_store_other.
    + destruct addMissing; [|reflexivity].
      unfold lookup. cbn [_q]. rewrite lookup_q_snoc.
      destruct (lookup_q (_q this) d); [reflexivity|].
      destruct (String.eqb_spec (getName i) d); [contradiction|reflexivity].
Qed.

Lemma setVals_from_fold (addMissing : bool) (l : list Scalar) :
  NoDup (map getName l) ->
  forall (this : Tuple),
    (dimNames (fold_left (setVals_step addMissing) l this) =
     if addMissing then dimNames (fold_left union_step l this) else dimNames this) /\
    _firstInner (fold_left (setVals_step addMissing) l this) = _firstInner this /\
    forall d, lookup (fold_left (setVals_step addMissing) l this) d =
              match lookup_q l d with
              | Some v => match lookup this d with
                          | Some _ => Some v
                          | None => if addMissing then Some v else None
                          end
              | None => lookup this d
              end.
Proof.
  induction l as [|i l IH]; intros ND this.
  - cbn. split; [now destruct addMissing|]. split; reflexivity.
  - cbn [map] in ND. inversion ND as [|? ? Hi ND']; subst.
    cbn [fold_left lookup_q].
    destruct (IH ND' (setVals_step addMissing this i)) as [N [F L]].
    split; [|split].
    + rewrite N. destruct addMissing; [|now rewrite setVals_step_names].
      (* both folds continue from tuples with the same names *)
      assert (G : forall l' a b, dimNames a = dimNames b ->
                                 dimNames (fold_left union_step l' a)
                                 = dimNames (fold_left union_step l' b)).
      { induction l' as [|j l' IH']; intros a b E; [exact E|].
        cbn [fold_left]. apply IH'. rewrite !union_step_q. unfold dimNames in *.
        cbn [_q]. rewrite !map_app. rewrite E. f_equal.
        unfold absent_from.
        destruct (lookup a (getName j)) eqn:A, (lookup b (getName j)) eqn:B;
          try reflexivity; exfalso.
        - apply lookup_q_None in B. apply B. rewrite <- E.
          eapply lookup_q_Some_In. exact A.
        - apply lookup_q_None in A. apply A. rewrite E.
          eapply lookup_q_Some_In. exact B. }
      apply G. now rewrite setVals_step_names.
    + rewrite F. unfold setVals_step, addDimBack.
      destruct (lookup this (getName i)); [reflexivity|].
      destruct addMissing; reflexivity.
    + intros d. rewrite L, setVals_step_lookup.
      destruct (String.eqb_spec (getName i) d) as [<-|D].
      * assert (E : lookup_q l (getName i) = None) by now apply lookup_q_None.
        rewrite E. reflexivity.
      * reflexivity.
Qed.

(** X5: [setVals(src, addMissing)], for a [src] with unique names: a
    dimension of both takes the value of [src]; a dimension only [src]
    has is added, with that value, exactly when [addMissing] holds; a
    dimension only [this] has keeps its value.  Without [addMissing] the
    names are those of [this]; with it they are those of
    [makeUnionWith(src)], in the same order. *)
Theorem setVals_from_src (this src : Tuple) (addMissing : bool) :
  wf src ->
  (forall d, lookup (setVals_from this src addMissing) d =
             match lookup src d with
             | Some v => match lookup this d with
                         | Some _ => Some v
                         | None => if addMissing then Some v else None
                         end
             | None => lookup this d
             end) /\
  dimNames (setVals_from this src false) = dimNames this /\
  dimNames (setVals_from this src true) = dimNames (makeUnionWith this src) /\
  _firstInner (setVals_from this src addMissing) = _firstInner this.
Proof.
  intros W. unfold setVals_from, makeUnionWith.
  split; [|split; [|split]].
  - apply (setVals_from_fold addMissing (_q src) W this).
  - apply (setVals_from_fold false (_q src) W this).
  - apply (setVals_from_fold true (_q src) W this).
  - apply (setVals_from_fold addMissing (_q src) W this).
Qed.

Lemma setVals_from_src_witness :
  let this := mk false [("x"%string, 1); ("y"%string, 2)] in
  let src := mk true [("y"%string, 7); ("z"%string, 9)] in
  map getVal (_q (setVals_from this src true)) = [1; 7; 9] /\
  dimNames (setVals_from this src false) = dimNames this.
Proof.
  cbv zeta. split; [reflexivity|].
  apply (setVals_from_src (mk false [("x"%string, 1); ("y"%string, 2)])
                          (mk true [("y"%string, 7); ("z"%string, 9)]) false).
  repeat apply addDimBack_wf. constructor.
Defined.

(** ** areDimsSame and operator== *)

Lemma areDimsSame_of_sets (a b : Tuple) :
  wf a -> wf b ->
  (forall d, In d (dimNames a) <-> In d (dimNames b)) ->
  areDimsSame a b = true.
Proof.
  unfold wf. intros Wa Wb H. unfold areDimsSame, size.
  assert (P : Permutation (dimNames a) (dimNames b))
    by (apply NoDup_Permutation; assumption).
  apply Permutation_length in P. unfold dimNames in P. rewrite !length_map in P.
  rewrite P, Z.eqb_refl. cbn [negb]. apply forallb_forall. intros i Hi.
  assert (I : In (getName i) (dimNames b)).
  { apply H. unfold dimNames. now apply in_map. }
  apply lookup_In_names in I. destruct (lookup b (getName i)); [reflexivity|congruence].
Qed.

(** X7: for tuples with unique names [areDimsSame] holds exactly when
    the two sets of names are equal, whatever the order; it is reflexive
    and symmetric. *)
Theorem areDimsSame_iff_same_names (a b : Tuple) :
  wf a -> wf b ->
  (areDimsSame a b = true <->
   forall d, In d (dimNames a) <-> In d (dimNames b)) /\
  areDimsSame a a = true /\
  areDimsSame a b = areDimsSame b a.
Proof.
  intros Wa Wb. split; [|split].
  - split; [now apply areDimsSame_sets|now apply areDimsSame_of_sets].
  - now apply areDimsSame_names.
  - destruct (areDimsSame a b) eqn:E.
    + symmetry. now apply areDimsSame_sym.
    + destruct (areDimsSame b a) eqn:F; [|reflexivity].
      apply (areDimsSame_sym b a Wb) in F. congruence.
Qed.

Lemma areDimsSame_iff_same_names_witness :
  areDimsSame (mk true [("x"%string, 1); ("y"%string, 2)])
              (mk false [("y"%string, 5); ("x"%string, 6)])
  = areDimsSame (mk false [("y"%string, 5); ("x"%string, 6)])
                (mk true [("x"%string, 1); ("y"%string, 2)]).
Proof.
  apply (areDimsSame_iff_same_names (mk true [("x"%string, 1); ("y"%string, 2)])
                                    (mk false [("y"%string, 5); ("x"%string, 6)]));
    repeat apply addDimBack_wf; constructor.
Defined.

Lemma lookup_own (a : Tuple) (i : Scalar) :
  wf a -> In i (_q a) -> lookup a (getName i) = Some (getVal i).
Proof.
  intros W Hi. apply in_split in Hi as [l1 [l2 E]]. unfold lookup.
  unfold wf, dimNames in W. rewrite E in *. now apply lookup_q_mid.
Qed.

Lemma eq_loop_true (b : Tuple) (q : list Scalar) :
  eq_loop q b = Some true <->
  forall i, In i q -> lookup b (getName i) = Some (getVal i).
Proof.
  induction q as [|i q IH]; cbn [eq_loop].
  - split; [intros _ i []|reflexivity].
  - unfold Tuple_getVal. destruct (lookup b (getName i)) as [v|] eqn:L.
    + destruct (Z.eqb_spec (getVal i) v) as [E|E]; cbn [negb].
      * rewrite IH. split.
        -- intros H j [<-|Hj]; [congruence|now apply H].
        -- intros H j Hj. apply H. now right.
      * split; [discriminate|]. intros H.
        specialize (H i (or_introl eq_refl)). congruence.
    + split; [discriminate|]. intros H.
      specialize (H i (or_introl eq_refl)). congruence.
Qed.

Lemma Tuple_eq_lookup (a b : Tuple) :
  wf a -> wf b ->
  (Tuple_eq a b = Some true <-> forall d, lookup a d = lookup b d).
Proof.
  intros Wa Wb. unfold Tuple_eq. split.
  - destruct (areDimsSame a b) eqn:D; [|discriminate]. cbn [negb].
    rewrite eq_loop_true. intros H d.
    destruct (in_dec string_dec d (dimNames a)) as [I|I].
    + unfold dimNames in I. apply in_map_iff in I as [i [<- Hi]].
      rewrite (H i Hi). now apply lookup_own.
    + assert (I' : ~ In d (dimNames b)).
      { intros F. apply I. now apply (areDimsSame_sets a b Wa D). }
      apply lookup_q_None in I, I'. unfold lookup. congruence.
  - intros H.
    rewrite areDimsSame_of_sets; try assumption.
    + cbn [negb]. apply eq_loop_true. intros i Hi.
      rewrite <- H. now apply lookup_own.
    + intros d. rewrite !lookup_In_names, H. reflexivity.
Qed.

(** X8: on tuples with unique names [operator==] holds exactly when
    every name looks up the same in both, so it ignores the order of the
    dimensions and the orientation flag, and it is an equivalence. *)
Theorem Tuple_eq_iff_same_lookups (a b c : Tuple) :
  wf a -> wf b -> wf c ->
  (Tuple_eq a b = Some true <-> forall d, lookup a d = lookup b d) /\
  Tuple_eq a a = Some true /\
  (Tuple_eq a b = Some true -> Tuple_eq b a = Some true) /\
  (Tuple_eq a b = Some true -> Tuple_eq b c = Some true ->
   Tuple_eq a c = Some true) /\
  Tuple_eq (mkTuple (_q a) (negb (_firstInner a))) a = Some true.
Proof.
  intros Wa Wb Wc.
  split; [now apply Tuple_eq_lookup|]. split; [|split; [|split]].
  - now apply Tuple_eq_lookup.
  - rewrite !Tuple_eq_lookup by assumption. intros H d. now rewrite H.
  - rewrite !Tuple_eq_lookup by assumption. intros H1 H2 d. now rewrite H1, H2.
  - apply Tuple_eq_lookup; [exact Wa|exact Wa|reflexivity].
Qed.

Lemma Tuple_eq_iff_same_lookups_witness :
  Tuple_eq (mk false [("y"%string, 2); ("x"%string, 1)])
           (mk true [("x"%string, 1); ("y"%string, 2)]) = Some true.
Proof.
  destruct (Tuple_eq_iff_same_lookups
              (mk true [("x"%string, 1); ("y"%string, 2)])
              (mk false [("y"%string, 2); ("x"%string, 1)])
              (mk true [("x"%string, 1); ("y"%string, 2)]))
    as [_ [_ [S _]]];
    [repeat apply addDimBack_wf; constructor ..|].
  apply S. reflexivity.
Defined.

(** ** Pair-wise operations *)

Lemma combine_fold (f : Z -> Z -> Z) (rhs : Tuple) (l : list Scalar) :
  NoDup (map getName l) ->
  forall newt : Tuple,
    (forall i, In i l -> In (getName i) (dimNames newt)) ->
    exists r,
      fold_left
        (fun (nt : option Tuple) (i : Scalar) =>
           match nt with
           | None => None
           | Some newt =>
               match lookup rhs (getName i) with
               | Some r => setVal newt (getName i) (f (getVal i) r)
               | None => Some newt
               end
           end) l (Some newt) = Some r /\
      dimNames r = dimNames newt /\ _firstInner r = _firstInner newt /\
      forall d, lookup r d =
                match lookup_q l d, lookup rhs d with
                | Some x, Some y => Some (f x y)
                | _, _ => lookup newt d
                end.
Proof.
  induction l as [|i l IH]; intros ND newt Hin.
  - exists newt. cbn. repeat split.
  - cbn [map] in ND. inversion ND as [|? ? Hi ND']; subst.
    cbn [fold_left].
    assert (Ii : In (getName i) (dimNames newt)) by (apply Hin; now left).
    set (newt1 := match lookup rhs (getName i) with
                  | Some r => mkTuple (store_q (_q newt) (getName i) (f (getVal i) r))
                                      (_firstInner newt)
                  | None => newt
                  end).
    assert (S1 : match lookup rhs (getName i) with
                 | Some r => setVal newt (getName i) (f (getVal i) r)
                 | None => Some newt
                 end = Some newt1).
    { unfold newt1. destruct (lookup rhs (getName i)); [|reflexivity].
      now apply setVal_present. }
    rewrite S1.
    assert (N1 : dimNames newt1 = dimNames newt).
    { unfold newt1. destruct (lookup rhs (getName i)); [|reflexivity].
      apply store_q_names. }
    assert (F1 : _firstInner newt1 = _firstInner newt).
    { unfold newt1. destruct (lookup rhs (getName i)); reflexivity. }
    destruct (IH ND' newt1) as [r [E [N [F L]]]].
    { intros j Hj. rewrite N1. apply Hin. now right. }
    exists r. split; [exact E|]. split; [congruence|]. split; [congruence|].
    intros d. rewrite L. cbn [lookup_q].
    destruct (String.eqb_spec (getName i) d) as [<-|D].
    + assert (E0 : lookup_q l (getName i) = None) by now apply lookup_q_None.
      rewrite E0. unfold newt1.
      destruct (lookup rhs (getName i)) as [y|]; [|reflexivity].
      unfold lookup. cbn [_q]. now apply lookup_store_same.
    + assert (L1 : lookup newt1 d = lookup newt d).
      { unfold newt1. destruct (lookup rhs (getName i)); [|reflexivity].
        unfold lookup. cbn [_q]. now apply lookup_store_other. }
      now rewrite L1.
Qed.

Lemma combineElements_lookup (f : Z -> Z -> Z) (this rhs : Tuple) (strict : bool) :
  wf this -> (strict = true -> areDimsSame this rhs = true) ->
  exists r,
    combineElements f this rhs strict = Some r /\
    dimNames r = dimNames this /\ _firstInner r = _firstInner this /\
    forall d, lookup r d =
              match lookup this d, lookup rhs d with
              | Some x, Some y => Some (f x y)
              | _, _ => lookup this d
              end.
Proof.
  intros W HS. unfold combineElements.
  assert (G : strict && negb (areDimsSame this rhs) = false).
  { destruct strict; [|reflexivity]. now rewrite HS. }
  rewrite G.
  destruct (combine_fold f rhs (_q this) W this) as [r [E [N [F L]]]].
  { intros i Hi. unfold dimNames. now apply in_map. }
  exists r. split; [exact E|]. split; [exact N|]. split; [exact F|exact L].
Qed.

(** X9: [combineElements] (and so the pair-wise [addElements],
    [multElements], [maxElements], [minElements]) fails its assertion
    when [strictRhs] holds and the dimensions differ; otherwise, on a
    tuple with unique names, it returns a tuple with the names, order and
    flag of [this], where a dimension that [rhs] has too gets the
    combination of the two values and every other keeps the value of
    [this]. *)
Theorem combineElements_pairwise (f : Z -> Z -> Z) (this rhs : Tuple)
        (strict : bool) :
  wf this ->
  (strict = true -> areDimsSame this rhs = false ->
   combineElements f this rhs strict = None) /\
  ((strict = true -> areDimsSame this rhs = true) ->
   exists r,
     combineElements f this rhs strict = Some r /\
     dimNames r = dimNames this /\ _firstInner r = _firstInner this /\
     forall d, lookup r d =
               match lookup this d, lookup rhs d with
               | Some x, Some y => Some (f x y)
               | _, _ => lookup this d
               end).
Proof.
  intros W. split.
  - intros -> D. unfold combineElements. now rewrite D.
  - now apply combineElements_lookup.
Qed.

Lemma combineElements_pairwise_witness :
  exists r,
    combineElements Z.max (mk true [("x"%string, 1); ("y"%string, 9)])
                    (mk true [("y"%string, 4); ("z"%string, 5)]) false = Some r /\
    dimNames r = ["x"%string; "y"%string].
Proof.
  destruct (combineElements_pairwise
              Z.max (mk true [("x"%string, 1); ("y"%string, 9)])
              (mk true [("y"%string, 4); ("z"%string, 5)]) false)
    as [_ H]; [repeat apply addDimBack_wf; constructor|].
  destruct H as [r [E [N _]]]; [discriminate|].
  exists r. split; [exact E|exact N].
Defined.

(** X10: adding two tuples with the same (unique) names gives equal
    tuples in either order of the operands, each in the dimension order
    of its left operand. *)
Theorem addElements_commutes (a b : Tuple) :
  wf a -> wf b -> areDimsSame a b = true ->
  exists r1 r2,
    addElements a b true = Some r1 /\ addElements b a true = Some r2 /\
    dimNames r1 = dimNames a /\ dimNames r2 = dimNames b /\
    Tuple_eq r1 r2 = Some true.
Proof.
  intros Wa Wb D.
  pose proof (areDimsSame_sym a b Wa D) as D'.
  destruct (combineElements_lookup (fun l r => wrapT (l + r)) a b true Wa (fun _ => D))
    as [r1 [E1 [N1 [_ L1]]]].
  destruct (combineElements_lookup (fun l r => wrapT (l + r)) b a true Wb (fun _ => D'))
    as [r2 [E2 [N2 [_ L2]]]].
  exists r1, r2. unfold addElements.
  split; [exact E1|]. split; [exact E2|]. split; [exact N1|]. split; [exact N2|].
  apply Tuple_eq_lookup.
  - unfold wf. now rewrite N1.
  - unfold wf. now rewrite N2.
  - intros d. rewrite L1, L2.
    pose proof (areDimsSame_sets a b Wa D d) as S.
    rewrite !lookup_In_names in S.
    destruct (lookup a d) as [x|], (lookup b d) as [y|]; try reflexivity.
    + now rewrite Z.add_comm.
    + exfalso. assert (Some x <> None) by discriminate. tauto.
    + exfalso. assert (Some y <> None) by discriminate. tauto.
Qed.

Lemma addElements_commutes_witness :
  exists r1 r2,
    addElements (mk true [("x"%string, 1); ("y"%string, 2)])
                (mk true [("y"%string, 10); ("x"%string, 20)]) true = Some r1 /\
    addElements (mk true [("y"%string, 10); ("x"%string, 20)])
                (mk true [("x"%string, 1); ("y"%string, 2)]) true = Some r2 /\
    Tuple_eq r1 r2 = Some true.
Proof.
  destruct (addElements_commutes
              (mk true [("x"%string, 1); ("y"%string, 2)])
              (mk true [("y"%string, 10); ("x"%string, 20)]))
    as [r1 [r2 [E1 [E2 [_ [_ Q]]]]]];
    [repeat apply addDimBack_wf; constructor
    |repeat apply addDimBack_wf; constructor
    |reflexivity|].
  exists r1, r2. split; [exact E1|]. split; [exact E2|exact Q].
Defined.

(** ** Directions *)

Lemma inline_loop_true (b : Tuple) (dn : string) (q : list Scalar) :
  (forall i, In i q -> lookup b (getName i) <> None) ->
  exists r, inline_loop q b dn = Some r /\
            (r = true <->
             forall i, In i q -> getName i <> dn ->
                       lookup b (getName i) = Some (getVal i)).
Proof.
  induction q as [|i q IH]; intros H.
  - exists true. split; [reflexivity|]. split; [intros _ i []|reflexivity].
  - cbn [inline_loop]. unfold Tuple_getVal.
    destruct (lookup b (getName i)) as [v|] eqn:L;
      [|exfalso; apply (H i); [now left|exact L]].
    destruct (IH (fun j Hj => H j (or_intror Hj))) as [r [E R]].
    destruct (String.eqb_spec (getName i) dn) as [N|N]; cbn [negb andb].
    + exists r. split; [exact E|]. rewrite R. split.
      * intros A j [<-|Hj] D; [contradiction|now apply A].
      * intros A j Hj. apply A. now right.
    + destruct (Z.eqb_spec (getVal i) v) as [V|V]; cbn [negb].
      * exists r. split; [exact E|]. rewrite R. split.
        -- intros A j [<-|Hj] D; [congruence|now apply A].
        -- intros A j Hj. apply A. now right.
      * exists false. split; [reflexivity|]. split; [discriminate|].
        intros A. specialize (A i (or_introl eq_refl) N). congruence.
Qed.

Lemma isInlineInDir_lookup (a b : Tuple) (dir : Scalar) :
  wf a -> wf b -> areDimsSame a b = true ->
  exists r, isInlineInDir a b dir = Some r /\
            (r = true <->
             forall d, d <> getName dir -> lookup a d = lookup b d).
Proof.
  intros Wa Wb D. unfold isInlineInDir. rewrite D. cbn [negb].
  destruct (inline_loop_true b (getName dir) (_q a) (areDimsSame_lookup a b D))
    as [r [E R]].
  exists r. split; [exact E|]. rewrite R. split.
  - intros H d Hd. destruct (in_dec string_dec d (dimNames a)) as [I|I].
    + unfold dimNames in I. apply in_map_iff in I as [i [<- Hi]].
      rewrite (H i Hi Hd). now apply lookup_own.
    + assert (I' : ~ In d (dimNames b)).
      { intros F. apply I. now apply (areDimsSame_sets a b Wa D). }
      apply lookup_q_None in I, I'. unfold lookup. congruence.
  - intros H i Hi Hd. rewrite <- (H _ Hd). now apply lookup_own.
Qed.

(** X11: [isInlineInDir] and [isAheadOfInDir] fail their assertion when
    the dimensions of the two tuples differ, and [isAheadOfInDir] also
    when the tuples lack the dimension of the direction.  On tuples with
    the same unique names, in-line means that every dimension but the
    one of the direction has the same value in both; [this] is never
    ahead along a direction of value 0; if [this] is ahead of [t2] then
    [t2] is not ahead of [this]; and [this] is ahead of [t2] along a
    direction exactly when [t2] is ahead of [this] along the opposite
    one. *)
Theorem directions (a b : Tuple) (dir : Scalar) :
  wf a -> wf b ->
  (areDimsSame a b = false ->
   isInlineInDir a b dir = None /\ isAheadOfInDir a b dir = None) /\
  (areDimsSame a b = true ->
   (~ In (getName dir) (dimNames a) -> isAheadOfInDir a b dir = None) /\
   (exists r, isInlineInDir a b dir = Some r /\
              (r = true <->
               forall d, d <> getName dir -> lookup a d = lookup b d)) /\
   (getVal dir = 0 -> isAheadOfInDir a b dir <> Some true) /\
   (isAheadOfInDir a b dir = Some true -> isAheadOfInDir b a dir = Some false) /\
   isAheadOfInDir a b dir
   = isAheadOfInDir b a (mkScalar (getName dir) (- getVal dir))).
Proof.
  intros Wa Wb. split.
  - intros D. unfold isInlineInDir, isAheadOfInDir. now rewrite D.
  - intros D.
    pose proof (areDimsSame_sym a b Wa D) as D'.
    destruct (isInlineInDir_lookup a b dir Wa Wb D) as [r [E R]].
    destruct (isInlineInDir_lookup b a dir Wb Wa D') as [r' [E' R']].
    assert (RR : r' = r).
    { destruct r, r'; try reflexivity.
      - assert (H : false = true); [|discriminate]. apply R'. intros d Hd.
        symmetry. now apply R.
      - assert (H : false = true); [|discriminate]. apply R. intros d Hd.
        symmetry. now apply R'. }
    subst r'.
    assert (E'' : isInlineInDir b a (mkScalar (getName dir) (- getVal dir)) = Some r).
    { exact E'. }
    split; [|split; [|split; [|split]]].
    + intros N. unfold isAheadOfInDir. rewrite D. cbn [negb]. cbv zeta.
      unfold Tuple_getVal. apply lookup_q_None in N. unfold lookup. now rewrite N.
    + exists r. split; [exact E|exact R].
    + intros Z0. unfold isAheadOfInDir. rewrite D, Z0, E. cbn [negb]. cbv zeta.
      destruct (Tuple_getVal a (getName dir)); [|discriminate].
      destruct (Tuple_getVal b (getName dir)); [|discriminate].
      destruct r; discriminate.
    + unfold isAheadOfInDir. rewrite D, D', E, E'. cbn [negb]. cbv zeta.
      destruct (Tuple_getVal a (getName dir)) as [tv|]; [|discriminate].
      destruct (Tuple_getVal b (getName dir)) as [v2|]; [|discriminate].
      destruct r; [|discriminate]. rewrite !Z.gtb_ltb.
      intros H. injection H as H. f_equal.
      destruct (Z.ltb_spec 0 (getVal dir)), (Z.ltb_spec (getVal dir) 0),
        (Z.ltb_spec v2 tv), (Z.ltb_spec tv v2);
        cbn [andb orb] in *; try reflexivity; try discriminate; lia.
    + unfold isAheadOfInDir. rewrite D, D', E, E''. cbn [negb getName getVal]. cbv zeta.
      destruct (Tuple_getVal a (getName dir)) as [tv|];
        destruct (Tuple_getVal b (getName dir)) as [v2|]; try reflexivity.
      destruct r; [|reflexivity]. rewrite !Z.gtb_ltb. f_equal.
      destruct (Z.ltb_spec 0 (getVal dir)), (Z.ltb_spec (getVal dir) 0),
        (Z.ltb_spec 0 (- getVal dir)), (Z.ltb_spec (- getVal dir) 0),
        (Z.ltb_spec v2 tv), (Z.ltb_spec tv v2);
        cbn [andb orb]; try reflexivity; lia.
Qed.

Lemma directions_witness :
  isAheadOfInDir (mk true [("x"%string, 3); ("y"%string, 5)])
                 (mk true [("x"%string, 1); ("y"%string, 5)])
                 (mkScalar "x" 1)
  = isAheadOfInDir (mk true [("x"%string, 1); ("y"%string, 5)])
                   (mk true [("x"%string, 3); ("y"%string, 5)])
                   (mkScalar "x" (-1)).
Proof.
  destruct (directions (mk true [("x"%string, 3); ("y"%string, 5)])
                       (mk true [("x"%string, 1); ("y"%string, 5)])
                       (mkScalar "x" 1)) as [_ H];
    [repeat apply addDimBack_wf; constructor
    |repeat apply addDimBack_wf; constructor|].
  destruct H as [_ [_ [_ [_ H]]]]; [reflexivity|exact H].
Defined.

(** ** Reductions *)

Lemma reduce_cons (f : Z -> Z -> Z) (i : Scalar) (l : list Scalar) (fi : bool) :
  reduce f (mkTuple (i :: l) fi)
  = fold_left (fun r j => f r (getVal j)) l (getVal i).
Proof.
  unfold reduce. cbn [_q fold_left]. change (0 =? 0) with true. cbn iota.
  assert (G : forall l r n, 0 < n ->
              fst (fold_left
                     (fun (st : Z * Z) i =>
                        let '(result, n) := st in
                        ((if n =? 0 then getVal i else f result (getVal i)), n + 1))
                     l (r, n))
              = fold_left (fun r j => f r (getVal j)) l r).
  { clear. induction l as [|j l IH]; intros r n Hn; [reflexivity|].
    cbn [fold_left]. destruct (Z.eqb_spec n 0); [lia|]. apply IH. lia. }
  apply G. lia.
Qed.

Lemma fold_max_bounds (l : list Scalar) (r : Z) :
  let m := fold_left (fun r j => Z.max r (getVal j)) l r in
  r <= m /\ (forall j, In j l -> getVal j <= m) /\
  (m = r \/ exists j, In j l /\ getVal j = m).
Proof.
  revert r. induction l as [|i l IH]; intros r; cbn [fold_left].
  - cbv zeta. split; [lia|]. split; [intros j []|now left].
  - specialize (IH (Z.max r (getVal i))). cbv zeta in *.
    destruct IH as [A [B C]]. split; [lia|]. split.
    + intros j [<-|Hj]; [lia|now apply B].
    + destruct C as [C|[j [Hj C]]].
      * destruct (Z.max_spec r (getVal i)) as [[_ M]|[_ M]].
        -- right. exists i. split; [now left|congruence].
        -- left. congruence.
      * right. exists j. split; [now right|exact C].
Qed.

Lemma fold_min_bounds (l : list Scalar) (r : Z) :
  let m := fold_left (fun r j => Z.min r (getVal j)) l r in
  m <= r /\ (forall j, In j l -> m <= getVal j) /\
  (m = r \/ exists j, In j l /\ getVal j = m).
Proof.
  revert r. induction l as [|i l IH]; intros r; cbn [fold_left].
  - cbv zeta. split; [lia|]. split; [intros j []|now left].
  - specialize (IH (Z.min r (getVal i))). cbv zeta in *.
    destruct IH as [A [B C]]. split; [lia|]. split.
    + intros j [<-|Hj]; [lia|now apply B].
    + destruct C as [C|[j [Hj C]]].
      * destruct (Z.min_spec r (getVal i)) as [[_ M]|[_ M]].
        -- left. congruence.
        -- right. exists i. split; [now left|congruence].
      * right. exists j. split; [now right|exact C].
Qed.

(** X12: on a tuple with at least one dimension [max()] is the largest
    of the values and [min()] the smallest: each bounds every value and
    is the value of some dimension. *)
Theorem max_min_of_values (t : Tuple) :
  _q t <> [] ->
  (forall i, In i (_q t) -> min t <= getVal i <= max t) /\
  (exists i, In i (_q t) /\ getVal i = max t) /\
  (exists i, In i (_q t) /\ getVal i = min t).
Proof.
  destruct t as [[|i l] fi]; [intros N; now elim N|]. intros _.
  unfold max, min. rewrite !reduce_cons. cbn [_q].
  pose proof (fold_max_bounds l (getVal i)) as [A [B C]].
  pose proof (fold_min_bounds l (getVal i)) as [A' [B' C']].
  cbv zeta in *. split; [|split].
  - intros j [<-|Hj]; [lia|]. specialize (B j Hj). specialize (B' j Hj). lia.
  - destruct C as [C|[j [Hj C]]].
    + exists i. split; [now left|congruence].
    + exists j. split; [now right|exact C].
  - destruct C' as [C'|[j [Hj C']]].
    + exists i. split; [now left|congruence].
    + exists j. split; [now right|exact C'].
Qed.

Lemma max_min_of_values_witness :
  exists i, In i (_q (mk true [("x"%string, 4); ("y"%string, -3); ("z"%string, 9)])) /\
            getVal i = max (mk true [("x"%string, 4); ("y"%string, -3); ("z"%string, 9)]).
Proof.
  apply (max_min_of_values (mk true [("x"%string, 4); ("y"%string, -3); ("z"%string, 9)])).
  discriminate.
Defined.

Lemma wrapT_eq_mod (a b : Z) :
  to_size_t a = to_size_t b -> wrapT a = wrapT b.
Proof.
  intros H. apply to_size_t_inj; try apply wrapT_in_T.
  now rewrite !to_size_t_wrapT.
Qed.

Lemma reduce_add_fold (l : list Scalar) (r : Z) :
  to_size_t (fold_left (fun r j => wrapT (r + getVal j)) l r)
  = to_size_t (r + value_sum l).
Proof.
  revert r. induction l as [|i l IH]; intros r; cbn [fold_left value_sum fold_right].
  - now rewrite Z.add_0_r.
  - rewrite IH. fold (value_sum l). unfold to_size_t.
    rewrite Zplus_mod. fold (to_size_t (wrapT (r + getVal i))).
    rewrite to_size_t_wrapT. unfold to_size_t.
    rewrite <- Zplus_mod. f_equal. lia.
Qed.

Lemma fold_wrap_in_T (f : Z -> Z -> Z) (l : list Scalar) (r : Z) :
  in_T r -> in_T (fold_left (fun r j => wrapT (f r (getVal j))) l r).
Proof.
  revert r. induction l as [|i l IH]; intros r H; [exact H|].
  cbn [fold_left]. apply IH. apply wrapT_in_T.
Qed.

Lemma extent_product_zero (q : list Scalar) :
  (exists i, In i q /\ getVal i = 0) -> extent_product q = 0.
Proof.
  induction q as [|j q IH]; intros [i [Hi Z0]]; [destruct Hi|].
  rewrite extent_product_cons. destruct Hi as [->|Hi].
  - rewrite Z0. lia.
  - rewrite IH; [lia|]. now exists i.
Qed.

(** X13: when the values are within [T], [sum()] is their mathematical
    sum and [product()] their mathematical product, wrapped to 64 signed
    bits (so exact when the result is within [T]); a tuple with a value
    0 has product 0. *)
Theorem sum_product_wrapped (t : Tuple) :
  (forall i, In i (_q t) -> in_T (getVal i)) ->
  sum t = wrapT (value_sum (_q t)) /\
  product t = wrapT (extent_product (_q t)) /\
  (in_T (value_sum (_q t)) -> sum t = value_sum (_q t)) /\
  (in_T (extent_product (_q t)) -> product t = extent_product (_q t)) /\
  ((exists i, In i (_q t) /\ getVal i = 0) -> product t = 0).
Proof.
  intros H.
  assert (S : sum t = wrapT (value_sum (_q t))).
  { destruct t as [[|i l] fi]; [reflexivity|].
    unfold sum. rewrite reduce_cons. cbn [_q] in *.
    apply to_size_t_inj.
    - apply (fold_wrap_in_T Z.add). apply H. now left.
    - apply wrapT_in_T.
    - rewrite reduce_add_fold, to_size_t_wrapT. reflexivity. }
  assert (P : product t = wrapT (extent_product (_q t))).
  { apply to_size_t_inj; [now apply product_in_T|apply wrapT_in_T|].
    now rewrite product_to_size_t, to_size_t_wrapT. }
  split; [exact S|]. split; [exact P|]. split; [|split].
  - intros I. rewrite S. now apply wrapT_small.
  - intros I. rewrite P. now apply wrapT_small.
  - intros Z0. rewrite P, (extent_product_zero _ Z0). reflexivity.
Qed.

Lemma sum_product_wrapped_witness :
  sum (mk true [("x"%string, 4); ("y"%string, 3); ("z"%string, 2)]) = wrapT 9 /\
  product (mk true [("x"%string, 4); ("y"%string, 3); ("z"%string, 2)]) = wrapT 24.
Proof.
  destruct (sum_product_wrapped (mk true [("x"%string, 4); ("y"%string, 3); ("z"%string, 2)]))
    as [S [P _]].
  - intros i [<-|[<-|[<-|[]]]]; unfold in_T; cbn; lia.
  - split; [exact S|exact P].
Defined.

(** ** layout: the index returned *)

Lemma layout_step_Some (this offsets : Tuple) (st : option (Z * Z))
      (i : Scalar) (idx prev : Z) :
  layout_step this offsets st i = Some (idx, prev) ->
  0 <= idx < to_size_t (product this).
Proof.
  unfold layout_step. destruct st as [[idx0 prev0]|]; [|discriminate].
  destruct (negb (_ <? _)); [discriminate|].
  destruct (Z.ltb_spec ((idx0 + match lookup offsets (getName i) with
                                | Some o => to_size_t o
                                | None => 0
                                end * prev0) mod size_t_modulus)
                       (to_size_t (product this))) as [B|B]; [|discriminate].
  cbn [negb]. destruct (negb (_ <=? _)); [discriminate|].
  intros H. injection H as <- _. split; [|exact B].
  apply Z.mod_pos_bound. reflexivity.
Qed.

Lemma layout_fold_bound (this offsets : Tuple) (L : list Scalar) :
  forall st idx prev,
    L <> [] ->
    fold_left (layout_step this offsets) L st = Some (idx, prev) ->
    0 <= idx < to_size_t (product this).
Proof.
  induction L as [|i L IH]; intros st idx prev NE H; [congruence|].
  cbn [fold_left] in H. destruct L as [|j L].
  - cbn [fold_left] in H. eapply layout_step_Some. exact H.
  - eapply IH; [discriminate|exact H].
Qed.

(** X14: whenever [layout] returns, the index is at least 0 and below
    [size_t(product())], for any offsets and any extents. *)
Theorem layout_index_below_product (this offsets : Tuple) (strict : bool)
        (idx : Z) :
  layout this offsets strict = Some idx ->
  0 <= idx < to_size_t (product this).
Proof.
  unfold layout. destruct (strict && negb (areDimsSame this offsets)); [discriminate|].
  destruct (fold_left (layout_step this offsets) (layout_dims this) (Some (0, 1)))
    as [[idx' prev]|] eqn:E; [|discriminate].
  cbn [option_map fst]. intros H. injection H as <-.
  destruct (layout_dims this) as [|i L] eqn:D.
  - cbn in E. injection E as <- <-.
    assert (Q : _q this = []).
    { unfold layout_dims in D. destruct (_firstInner this); [exact D|].
      destruct (_q this) as [|x q]; [reflexivity|].
      apply (f_equal (@List.length Scalar)) in D.
      rewrite length_rev in D. discriminate D. }
    unfold product, size. rewrite Q. cbn. lia.
  - eapply layout_fold_bound; [|exact E]. discriminate.
Qed.

Lemma layout_index_below_product_witness :
  0 <= 11 < to_size_t (product (mk true [("x"%string, 4); ("y"%string, 3)])).
Proof.
  apply (layout_index_below_product
           (mk true [("x"%string, 4); ("y"%string, 3)])
           (mk true [("x"%string, 3); ("y"%string, 2)]) true 11).
  reflexivity.
Defined.

(** X15: two points of the box that [layout] maps to the same index
    have the same offset in every dimension of the extents. *)
Theorem layout_injective_on_box (this o1 o2 : Tuple) (strict : bool) (idx : Z) :
  extent_product (_q this) < size_t_modulus ->
  in_box (_q this) o1 -> in_box (_q this) o2 ->
  layout this o1 strict = Some idx -> layout this o2 strict = Some idx ->
  forall i, In i (_q this) -> offset_of o1 i = offset_of o2 i.
Proof.
  intros HM B1 B2 L1 L2 i Hi.
  assert (S1 : strict = true -> areDimsSame this o1 = true).
  { intros ->. unfold layout in L1. destruct (areDimsSame this o1); [reflexivity|discriminate]. }
  assert (S2 : strict = true -> areDimsSame this o2 = true).
  { intros ->. unfold layout in L2. destruct (areDimsSame this o2); [reflexivity|discriminate]. }
  rewrite (layout_in_box this o1 strict S1 B1 HM) in L1.
  rewrite (layout_in_box this o2 strict S2 B2 HM) in L2.
  rewrite linearize_spec_horner, <- rev_layout_dims, horner_rev in L1, L2.
  apply (mixed_radix_inj (layout_dims this) o1 o2).
  - now apply in_box_layout_dims.
  - now apply in_box_layout_dims.
  - congruence.
  - unfold layout_dims. destruct (_firstInner this); [exact Hi|now apply -> in_rev].
Qed.

Lemma layout_injective_on_box_witness :
  offset_of (mk true [("x"%string, 3); ("y"%string, 2)]) (mkScalar "x" 4)
  = offset_of (mk false [("y"%string, 2); ("x"%string, 3)]) (mkScalar "x" 4).
Proof.
  apply (layout_injective_on_box
           (mk true [("x"%string, 4); ("y"%string, 3)])
           (mk true [("x"%string, 3); ("y"%string, 2)])
           (mk false [("y"%string, 2); ("x"%string, 3)]) true 11).
  - reflexivity.
  - intros i [<-|[<-|[]]]; cbn; lia.
  - intros i [<-|[<-|[]]]; cbn; lia.
  - reflexivity.
  - reflexivity.
  - left. reflexivity.
Defined.

(** ** visitAllPoints on an empty box *)

Lemma visit_list_no_call (V : list Scalar) :
  (exists sc, In sc V /\ getVal sc <= 0) ->
  forall (tr : list Tuple) (tp : Tuple),
    (forall s, In s V -> In (getName s) (dimNames tp)) ->
    exists tp', visit_list V (tr, tp) = Some (tr, tp') /\
                dimNames tp' = dimNames tp.
Proof.
  induction V as [|sc rest IH]; intros [bad [Hbad Hle]] tr tp Hn;
    [destruct Hbad|].
  cbn [visit_list].
  destruct (Z.le_gt_cases (getVal sc) 0) as [C|C].
  - replace (Z.to_nat (getVal sc)) with 0%nat by lia.
    exists tp. split; reflexivity.
  - assert (Hrest : exists s, In s rest /\ getVal s <= 0).
    { destruct Hbad as [->|Hbad]; [lia|]. now exists bad. }
    generalize (Z.to_nat (getVal sc)) 0. intros n i0.
    revert tp Hn i0. induction n as [|n IHn]; intros tp Hn i0.
    + exists tp. split; reflexivity.
    + cbn [for_T snd fst].
      rewrite setVal_present by (apply Hn; now left).
      set (tp1 := mkTuple (store_q (_q tp) (getName sc) i0) (_firstInner tp)).
      assert (N1 : dimNames tp1 = dimNames tp) by apply store_q_names.
      destruct (IH Hrest tr tp1) as [tp2 [E2 N2]].
      { intros s Hs. rewrite N1. apply Hn. now right. }
      rewrite E2.
      destruct (IHn tp2) with (i0 := i0 + 1) as [tp3 [E3 N3]].
      { intros s Hs. rewrite N2, N1. now apply Hn. }
      exists tp3. split; [exact E3|congruence].
Qed.

(** X16: when some extent is 0 or less, [visitAllPoints] returns without
    calling the visitor, whatever the other extents and the orientation
    flag. *)
Theorem visitAllPoints_empty_box (t : Tuple) :
  (exists sc, In sc (_q t) /\ getVal sc <= 0) ->
  visitAllPoints t = Some [].
Proof.
  intros [sc [Hsc Hle]]. rewrite visitAllPoints_unfold.
  destruct (visit_list_no_call (visit_dims t)) with (tr := @nil Tuple) (tp := t)
    as [tp' [E _]].
  - exists sc. split; [|exact Hle]. unfold visit_dims.
    destruct (_firstInner t); [now apply -> in_rev|exact Hsc].
  - intros s Hs. unfold dimNames. apply in_map. unfold visit_dims in Hs.
    destruct (_firstInner t); [now apply in_rev|exact Hs].
  - now rewrite E.
Qed.

Lemma visitAllPoints_empty_box_witness :
  visitAllPoints (mk true [("x"%string, -2); ("y"%string, -3)]) = Some [] /\
  product (mk true [("x"%string, -2); ("y"%string, -3)]) = 6.
Proof.
  split; [|reflexivity].
  apply (visitAllPoints_empty_box (mk true [("x"%string, -2); ("y"%string, -3)])).
  exists (mkScalar "x" (-2)). split; [left; reflexivity|cbn; lia].
Defined.

(** ** removeDim composed *)

Lemma removeDim_filter (t : Tuple) (d : string) :
  wf t -> removeDim t d = mkTuple (filter (keeps d) (_q t)) true.
Proof.
  intros W. unfold removeDim. now rewrite removeDim_fold.
Qed.

Lemma filter_names_NoDup (d : string) (q : list Scalar) :
  NoDup (map getName q) -> NoDup (map getName (filter (keeps d) q)).
Proof.
  induction q as [|i q IH]; intros ND; [constructor|].
  cbn [map] in ND. inversion ND as [|? ? Hi ND']; subst. cbn [filter].
  destruct (keeps d i); [|now apply IH].
  cbn [map]. constructor; [|now apply IH].
  intros F. apply Hi. apply in_map_iff in F as [j [E Hj]].
  apply filter_In in Hj as [Hj _]. rewrite <- E. now apply in_map.
Qed.

Lemma filter_keeps_length (d : string) (q : list Scalar) :
  NoDup (map getName q) ->
  Z.of_nat (List.length (filter (keeps d) q))
  = Z.of_nat (List.length q) - (if in_dec string_dec d (map getName q) then 1 else 0).
Proof.
  induction q as [|i q IH]; intros ND; [reflexivity|].
  cbn [map] in ND. inversion ND as [|? ? Hi ND']; subst.
  specialize (IH ND'). cbn [filter]. unfold keeps at 1.
  destruct (String.eqb_spec d (getName i)) as [E|E]; cbn [negb].
  - rewrite filter_keeps_id by (rewrite E; exact Hi).
    destruct (in_dec string_dec d (map getName (i :: q))) as [I|I].
    + cbn [List.length]. lia.
    + exfalso. apply I. left. now symmetry.
  - cbn [List.length]. rewrite Nat2Z.inj_succ, IH.
    destruct (in_dec string_dec d (map getName q)) as [I|I],
             (in_dec string_dec d (map getName (i :: q))) as [J|J]; try lia.
    + exfalso. apply J. now right.
    + exfalso. destruct J as [J|J]; [now apply E|contradiction].
Qed.

(** X17: for a tuple with unique names, [removeDim] keeps the names
    unique and removes at most one dimension (exactly one when the name
    is there); removing the same name twice is removing it once,
    removals of two names commute, and removing a name just added at
    the back of a tuple that lacked it gives back the dimensions of that
    tuple. *)
Theorem removeDim_composed (t : Tuple) (d d' : string) (v : Z) :
  wf t ->
  wf (removeDim t d) /\
  size (removeDim t d)
  = size t - (if in_dec string_dec d (dimNames t) then 1 else 0) /\
  removeDim (removeDim t d) d = removeDim t d /\
  removeDim (removeDim t d) d' = removeDim (removeDim t d') d /\
  (~ In d (dimNames t) -> _q (removeDim (addDimBack t d v) d) = _q t).
Proof.
  intros W.
  assert (Wd : forall x, wf (removeDim t x)).
  { intros x. rewrite removeDim_filter by exact W. unfold wf, dimNames. cbn [_q].
    now apply filter_names_NoDup. }
  split; [apply Wd|]. split; [|split; [|split]].
  - rewrite removeDim_filter by exact W. unfold size, dimNames. cbn [_q].
    now apply filter_keeps_length.
  - rewrite (removeDim_filter (removeDim t d)) by apply Wd.
    rewrite removeDim_filter by exact W. cbn [_q]. f_equal.
    induction (_q t) as [|i q IH]; [reflexivity|]. cbn [filter].
    destruct (keeps d i) eqn:K; [|exact IH].
    cbn [filter]. rewrite K. now rewrite IH.
  - rewrite (removeDim_filter (removeDim t d)) by apply Wd.
    rewrite (removeDim_filter (removeDim t d')) by apply Wd.
    rewrite !removeDim_filter by exact W. cbn [_q]. f_equal.
    induction (_q t) as [|i q IH]; [reflexivity|]. cbn [filter].
    destruct (keeps d i) eqn:K, (keeps d' i) eqn:K'; cbn [filter];
      rewrite ?K, ?K'; now rewrite IH.
  - intros N.
    assert (Wa : wf (addDimBack t d v)) by now apply addDimBack_wf.
    rewrite removeDim_filter by exact Wa. cbn [_q].
    rewrite (addDimBack_absent t d v N). cbn [_q].
    rewrite filter_app. cbn [filter]. unfold keeps at 2. cbn [getName].
    rewrite String.eqb_refl. cbn [negb]. rewrite app_nil_r.
    now apply filter_keeps_id.
Qed.

Lemma removeDim_composed_witness :
  removeDim (removeDim (mk false [("x"%string, 4); ("y"%string, 3); ("z"%string, 2)]) "x") "z"
  = removeDim (removeDim (mk false [("x"%string, 4); ("y"%string, 3); ("z"%string, 2)]) "z") "x".
Proof.
  apply (removeDim_composed (mk false [("x"%string, 4); ("y"%string, 3); ("z"%string, 2)])
                            "x" "z" 0).
  repeat apply addDimBack_wf. constructor.
Defined.

(* ------------------------------------------------------------------ *)
(** * Further properties of the vector operations *)

Section LaneLoops.
Context {real_t : Type}.
Variable VLEN : Z.

Lemma wr_is_vec (v v' : list real_t) (i : Z) (x : real_t) :
  is_vec VLEN v -> wr VLEN v i x = Some v' -> is_vec VLEN v'.
Proof.
  unfold wr, is_vec. intros V H.
  destruct ((0 <=? i) && (i <? VLEN) && (i <? Z.of_nat (List.length v)));
    [|discriminate].
  injection H as <-. now rewrite set_nth_length.
Qed.

Lemma wr_Some (v : list real_t) (i : Z) (x : real_t) :
  is_vec VLEN v -> 0 <= i < VLEN -> exists v', wr VLEN v i x = Some v'.
Proof.
  unfold wr, is_vec. intros V H.
  destruct (Z.leb_spec 0 i); [|lia].
  destruct (Z.ltb_spec i VLEN); [|lia].
  destruct (Z.ltb_spec i (Z.of_nat (List.length v))); [|lia].
  eexists. reflexivity.
Qed.

Lemma rd_In (v : list real_t) (i : Z) (x : real_t) :
  rd VLEN v i = Some x -> In x v.
Proof.
  unfold rd. destruct ((0 <=? i) && (i <? VLEN)); [|discriminate].
  apply nth_error_In.
Qed.

Lemma In_rd (v : list real_t) (x : real_t) :
  is_vec VLEN v -> In x v -> exists i, 0 <= i < VLEN /\ rd VLEN v i = Some x.
Proof.
  intros V H. apply In_nth_error in H as [n H].
  assert (n < List.length v)%nat by (apply nth_error_Some; congruence).
  exists (Z.of_nat n). unfold is_vec in V. split; [lia|].
  rewrite rd_nth_error by (assumption || lia). now rewrite Nat2Z.id.
Qed.

(** A loop whose source has no value at some lane of its range aborts. *)
Lemma fill_loop_None (src : Z -> option real_t) (n : nat) :
  forall (lo : Z) (res : list real_t),
    0 <= lo -> lo + Z.of_nat n <= VLEN -> is_vec VLEN res ->
    (exists i, lo <= i < lo + Z.of_nat n /\ src i = None) ->
    for_T n lo (fun i res => match src i with
                             | Some x => wr VLEN res i x
                             | None => None
                             end) res = None.
Proof.
  induction n as [|n IH]; intros lo res Hlo Hhi V [i [Hi Ei]]; [lia|].
  cbn [for_T]. destruct (src lo) as [x|] eqn:Ex; [|reflexivity].
  destruct (wr_Some res lo x V) as [res1 Ew]; [lia|]. rewrite Ew.
  apply IH; [lia|lia|now apply (wr_is_vec res res1 lo x)|].
  exists i. split; [|exact Ei].
  destruct (Z.eq_dec i lo) as [->|N]; [congruence|lia].
Qed.

Lemma mask_bit_testbit (k1 i : Z) :
  0 <= i < 32 -> mask_bit k1 i = Some (Z.testbit k1 i).
Proof.
  intros H. unfold mask_bit.
  destruct (Z.leb_spec 0 i); [|lia]. destruct (Z.ltb_spec i 32); [|lia].
  cbn [andb]. f_equal.
  change 1 with (Z.ones 1). rewrite Z.land_ones by lia.
  change (2 ^ 1) with 2. rewrite <- Z.bit0_mod, Z.shiftr_spec by lia.
  cbn [Z.add]. now destruct (Z.testbit k1 i).
Qed.

(** A masked loop writes [src i] to the lanes [i] of its range whose
    mask bit is set. *)
Lemma masked_fill_loop (k1 : Z) (src : Z -> option real_t) (n : nat) :
  forall (lo : Z) (res : list real_t),
    0 <= lo -> lo + Z.of_nat n <= VLEN -> VLEN <= 32 -> is_vec VLEN res ->
    (forall i, lo <= i < lo + Z.of_nat n -> Z.testbit k1 i = true ->
               src i <> None) ->
    exists res',
      for_T n lo (masked_write VLEN k1 src) res = Some res' /\
      is_vec VLEN res' /\
      (forall j, rd VLEN res' j =
                 if (lo <=? j) && (j <? lo + Z.of_nat n) && Z.testbit k1 j
                 then src j else rd VLEN res j).
Proof.
  induction n as [|n IH]; intros lo res Hlo Hhi H32 V Hsrc.
  - exists res. split; [reflexivity|]. split; [assumption|].
    intros j. zcases.
  - cbn [for_T]. unfold masked_write at 1.
    rewrite mask_bit_testbit by lia.
    destruct (Z.testbit k1 lo) eqn:B.
    + destruct (src lo) as [x|] eqn:Ex;
        [|exfalso; apply (Hsrc lo); [lia|assumption|assumption]].
      destruct (wr_Some res lo x V) as [res1 Ew]; [lia|]. rewrite Ew.
      destruct (IH (lo + 1) res1) as [res' [E [V' R]]]; try lia.
      { now apply (wr_is_vec res res1 lo x). }
      { intros i Hi. apply Hsrc. lia. }
      exists res'. split; [exact E|]. split; [exact V'|].
      intros j. rewrite R, (rd_wr _ _ _ _ _ _ Ew).
      destruct (Z.eqb_spec j lo) as [J|N]; [rewrite J, B|]; zcases.
      now symmetry.
    + destruct (IH (lo + 1) res) as [res' [E [V' R]]]; try lia; try assumption.
      { intros i Hi. apply Hsrc. lia. }
      exists res'. split; [exact E|]. split; [exact V'|].
      intros j. rewrite R.
      destruct (Z.eqb_spec j lo) as [J|N]; [rewrite J, B|]; zcases.
Qed.

Lemma permute_src_Some (ctrl_ci : list Z) (tmp : list real_t) (i : Z) :
  is_vec VLEN ctrl_ci -> is_vec VLEN tmp -> 0 <= i < VLEN ->
  (forall c, rd VLEN ctrl_ci i = Some c -> 0 <= c < VLEN) ->
  permute_src VLEN ctrl_ci tmp i <> None.
Proof.
  intros Vc Vt Hi Hc. unfold permute_src.
  destruct (rd VLEN ctrl_ci i) as [c|] eqn:E.
  - apply rd_Some; [assumption|now apply Hc].
  - intros _. now apply (rd_Some VLEN ctrl_ci i Vc Hi).
Qed.
End LaneLoops.

(** X18: [real_vec_align_masked] on vectors of [VLEN <= 32] lanes
    returns; lane [i] of the result is lane [i] of the aligned vector
    where bit [i] of [k1] is set and the old lane of [res] where it is
    clear.  With all [VLEN] bits set the result is the aligned vector,
    with none set it is [res]. *)
Theorem real_vec_align_masked_lanes {real_t : Type} (VLEN count : Z)
        (res a b : list real_t) (k1 : Z) :
  is_vec VLEN res -> is_vec VLEN a -> is_vec VLEN b ->
  0 <= count <= VLEN -> VLEN <= 32 ->
  exists r,
    real_vec_align_masked VLEN count res a b k1 = Some r /\
    is_vec VLEN r /\
    (forall i, 0 <= i < VLEN ->
               rd VLEN r i = if Z.testbit k1 i
                             then rd VLEN (align_spec VLEN count a b) i
                             else rd VLEN res i) /\
    ((forall i, 0 <= i < VLEN -> Z.testbit k1 i = true) ->
     r = align_spec VLEN count a b) /\
    ((forall i, 0 <= i < VLEN -> Z.testbit k1 i = false) -> r = res).
Proof.
  intros Vr Va Vb Hc H32.
  unfold real_vec_align_masked, for_int.
  destruct (masked_fill_loop VLEN k1 (fun i => rd VLEN b (i + count))
                             (Z.to_nat (VLEN - count - 0)) 0 res)
    as [r1 [E1 [V1 R1]]]; try lia; try assumption.
  { intros i Hi _. apply rd_Some; [assumption|lia]. }
  rewrite E1.
  destruct (masked_fill_loop VLEN k1 (fun i => rd VLEN a (i + count - VLEN))
                             (Z.to_nat (VLEN - (VLEN - count))) (VLEN - count) r1)
    as [r2 [E2 [V2 R2]]]; try lia; try assumption.
  { intros i Hi _. apply rd_Some; [assumption|lia]. }
  exists r2. split; [exact E2|]. split; [exact V2|].
  assert (L : forall i, 0 <= i < VLEN ->
                        rd VLEN r2 i = if Z.testbit k1 i
                                       then rd VLEN (align_spec VLEN count a b) i
                                       else rd VLEN res i).
  { intros i Hi. rewrite R2, R1, align_spec_lane by assumption.
    destruct (Z.testbit k1 i); rewrite ?andb_false_r, ?andb_true_r; zcases. }
  split; [exact L|]. split.
  - intros A. apply (vec_ext VLEN); [assumption|now apply align_spec_is_vec|].
    intros i. destruct (Z.le_gt_cases 0 i) as [P|P];
                [destruct (Z.lt_ge_cases i VLEN) as [Q|Q]|].
    + rewrite L by lia. now rewrite A by lia.
    + unfold rd. zcases.
    + unfold rd. zcases.
  - intros A. apply (vec_ext VLEN); [assumption|assumption|].
    intros i. destruct (Z.le_gt_cases 0 i) as [P|P];
                [destruct (Z.lt_ge_cases i VLEN) as [Q|Q]|].
    + rewrite L by lia. now rewrite A by lia.
    + unfold rd. zcases.
    + unfold rd. zcases.
Qed.

Lemma real_vec_align_masked_lanes_witness :
  exists r,
    real_vec_align_masked 4 1 [0; 0; 0; 0] [10; 11; 12; 13] [20; 21; 22; 23] 5
    = Some r /\
    rd 4 r 0 = Some 21 /\ rd 4 r 1 = Some 0.
Proof.
  destruct (real_vec_align_masked_lanes
              4 1 [0; 0; 0; 0] [10; 11; 12; 13] [20; 21; 22; 23] 5)
    as [r [E [_ [L _]]]]; [reflexivity|reflexivity|reflexivity|lia|lia|].
  exists r. split; [exact E|].
  split; [apply (L 0)|apply (L 1)]; lia.
Defined.

(** ** real_vec_permute *)

Lemma is_vec_nonneg {real_t : Type} (VLEN : Z) (v : list real_t) :
  is_vec VLEN v -> 0 <= VLEN.
Proof. unfold is_vec. lia. Qed.

Lemma rd_outside {real_t : Type} (VLEN : Z) (v : list real_t) (i : Z) :
  ~ 0 <= i < VLEN -> rd VLEN v i = None.
Proof. intros H. unfold rd. zcases. Qed.

Lemma rd_inside {real_t : Type} (VLEN : Z) (v : list real_t) (i : Z) (x : real_t) :
  rd VLEN v i = Some x -> 0 <= i < VLEN.
Proof.
  unfold rd. destruct (Z.leb_spec 0 i), (Z.ltb_spec i VLEN);
    cbn [andb]; try discriminate. lia.
Qed.

Lemma permute_loop {real_t : Type} (VLEN : Z) (res : list real_t)
      (ctrl_ci : list Z) (a : list real_t) :
  is_vec VLEN res -> is_vec VLEN ctrl_ci -> is_vec VLEN a ->
  (forall c, In c ctrl_ci -> 0 <= c < VLEN) ->
  exists r,
    real_vec_permute VLEN res ctrl_ci a = Some r /\ is_vec VLEN r /\
    (forall i, rd VLEN r i = permute_src VLEN ctrl_ci a i).
Proof.
  intros Vr Vc Va Hc. pose proof (is_vec_nonneg VLEN a Va) as H0.
  unfold real_vec_permute, for_int.
  destruct (fill_loop VLEN (permute_src VLEN ctrl_ci a)
                      (Z.to_nat (VLEN - 0)) 0 res)
    as [r [E [V R]]]; try lia; try assumption.
  { intros i Hi. apply permute_src_Some; try assumption; [lia|].
    intros c Ec. apply Hc. now apply (rd_In VLEN ctrl_ci i). }
  exists r. split; [exact E|]. split; [exact V|].
  intros i. rewrite R.
  destruct (Z.leb_spec 0 i), (Z.ltb_spec i (0 + Z.of_nat (Z.to_nat (VLEN - 0))));
    cbn [andb]; try reflexivity;
    unfold permute_src; rewrite !(rd_outside VLEN _ i) by lia; reflexivity.
Qed.

(** X19: [real_vec_permute] with every control index inside
    [0, VLEN) returns, and lane [i] of the result is lane [ctrl[i]] of
    [a]; a control index outside makes it read outside the array.  The
    identity control gives [a] back, and a permutation of a permuted
    vector reads [a] through both controls. *)
Theorem real_vec_permute_lanes {real_t : Type} (VLEN : Z) (res : list real_t)
        (ctrl_ci : list Z) (a : list real_t) :
  is_vec VLEN res -> is_vec VLEN ctrl_ci -> is_vec VLEN a ->
  ((forall c, In c ctrl_ci -> 0 <= c < VLEN) ->
   exists r,
     real_vec_permute VLEN res ctrl_ci a = Some r /\ is_vec VLEN r /\
     (forall i c, rd VLEN ctrl_ci i = Some c -> rd VLEN r i = rd VLEN a c) /\
     (forall (res2 : list real_t) (ctrl2 : list Z),
         is_vec VLEN res2 -> is_vec VLEN ctrl2 ->
         (forall c, In c ctrl2 -> 0 <= c < VLEN) ->
         exists r2,
           real_vec_permute VLEN res2 ctrl2 r = Some r2 /\
           forall i c d, rd VLEN ctrl2 i = Some c -> rd VLEN ctrl_ci c = Some d ->
                         rd VLEN r2 i = rd VLEN a d)) /\
  ((exists c, In c ctrl_ci /\ ~ 0 <= c < VLEN) ->
   real_vec_permute VLEN res ctrl_ci a = None) /\
  ((forall i, 0 <= i < VLEN -> rd VLEN ctrl_ci i = Some i) ->
   real_vec_permute VLEN res ctrl_ci a = Some a).
Proof.
  intros Vr Vc Va. pose proof (is_vec_nonneg VLEN a Va) as H0.
  split; [|split].
  - intros Hc.
    destruct (permute_loop VLEN res ctrl_ci a Vr Vc Va Hc) as [r [E [V R]]].
    exists r. split; [exact E|]. split; [exact V|]. split.
    + intros i c Ei. rewrite R. unfold permute_src. now rewrite Ei.
    + intros res2 ctrl2 Vr2 Vc2 Hc2.
      destruct (permute_loop VLEN res2 ctrl2 r Vr2 Vc2 V Hc2) as [r2 [E2 [V2 R2]]].
      exists r2. split; [exact E2|].
      intros i c d Ei Ec. rewrite R2. unfold permute_src at 1. rewrite Ei.
      rewrite R. unfold permute_src. now rewrite Ec.
  - intros [c [Hin Hout]]. unfold real_vec_permute, for_int.
    apply (fill_loop_None VLEN); try lia; try assumption.
    destruct (In_rd VLEN ctrl_ci c Vc Hin) as [i [Hi Ei]].
    exists i. split; [lia|]. unfold permute_src. rewrite Ei.
    now apply rd_outside.
  - intros Hid.
    assert (Hc : forall c, In c ctrl_ci -> 0 <= c < VLEN).
    { intros c Hin. destruct (In_rd VLEN ctrl_ci c Vc Hin) as [i [Hi Ei]].
      rewrite Hid in Ei by exact Hi. congruence. }
    destruct (permute_loop VLEN res ctrl_ci a Vr Vc Va Hc) as [r [E [V R]]].
    rewrite E. f_equal. apply (vec_ext VLEN); [assumption|assumption|].
    intros i. rewrite R. unfold permute_src.
    destruct (Z.le_gt_cases 0 i) as [P|P];
      [destruct (Z.lt_ge_cases i VLEN) as [Q|Q]|].
    + now rewrite Hid by lia.
    + rewrite !(rd_outside VLEN _ i) by lia. reflexivity.
    + rewrite !(rd_outside VLEN _ i) by lia. reflexivity.
Qed.

Lemma real_vec_permute_lanes_witness :
  real_vec_permute 4 [0; 0; 0; 0] [0; 1; 2; 3] [10; 11; 12; 13]
  = Some [10; 11; 12; 13].
Proof.
  apply (real_vec_permute_lanes 4 [0; 0; 0; 0] [0; 1; 2; 3] [10; 11; 12; 13]);
    try reflexivity.
  intros i Hi.
  assert (C : i = 0 \/ i = 1 \/ i = 2 \/ i = 3) by lia.
  destruct C as [->|[->|[->| ->]]]; reflexivity.
Defined.

(** X20: [real_vec_permute_masked] on vectors of [VLEN <= 32] lanes
    returns as soon as the control indices of the lanes selected by
    [k1] are inside [0, VLEN); lane [i] of the result is lane [ctrl[i]]
    of [a] where bit [i] of [k1] is set and the old lane of [res]
    otherwise.  The control index of a lane that is masked out is
    never used. *)
Theorem real_vec_permute_masked_lanes {real_t : Type} (VLEN : Z)
        (res : list real_t) (ctrl_ci : list Z) (a : list real_t) (k1 : Z) :
  is_vec VLEN res -> is_vec VLEN ctrl_ci -> is_vec VLEN a -> VLEN <= 32 ->
  (forall i c, rd VLEN ctrl_ci i = Some c -> Z.testbit k1 i = true ->
               0 <= c < VLEN) ->
  exists r,
    real_vec_permute_masked VLEN res ctrl_ci a k1 = Some r /\
    is_vec VLEN r /\
    (forall i c, rd VLEN ctrl_ci i = Some c ->
                 rd VLEN r i = if Z.testbit k1 i then rd VLEN a c
                               else rd VLEN res i).
Proof.
  intros Vr Vc Va H32 Hc. pose proof (is_vec_nonneg VLEN a Va) as H0.
  unfold real_vec_permute_masked, for_int.
  destruct (masked_fill_loop VLEN k1 (permute_src VLEN ctrl_ci a)
                             (Z.to_nat (VLEN - 0)) 0 res)
    as [r [E [V R]]]; try lia; try assumption.
  { intros i Hi B. apply permute_src_Some; try assumption; [lia|].
    intros c Ec. now apply (Hc i). }
  exists r. split; [exact E|]. split; [exact V|].
  intros i c Ei. rewrite R.
  pose proof (rd_inside VLEN ctrl_ci i c Ei) as Hi.
  destruct (Z.leb_spec 0 i); [|lia].
  destruct (Z.ltb_spec i (0 + Z.of_nat (Z.to_nat (VLEN - 0)))); [|lia].
  cbn [andb]. unfold permute_src. now rewrite Ei.
Qed.

Lemma real_vec_permute_masked_lanes_witness :
  exists r,
    real_vec_permute_masked 4 [0; 1; 2; 3] [3; 9; 1; 9] [10; 11; 12; 13] 5
    = Some r /\
    rd 4 r 0 = Some 13 /\ rd 4 r 1 = Some 1.
Proof.
  destruct (real_vec_permute_masked_lanes
              4 [0; 1; 2; 3] [3; 9; 1; 9] [10; 11; 12; 13] 5)
    as [r [E [_ L]]]; [reflexivity|reflexivity|reflexivity|lia| |].
  - intros i c Ei B. pose proof (rd_inside 4 _ i c Ei) as Hi.
    assert (C : i = 0 \/ i = 1 \/ i = 2 \/ i = 3) by lia.
    destruct C as [->|[->|[->| ->]]]; cbn in Ei, B;
      try discriminate B; injection Ei as <-; lia.
  - exists r. split; [exact E|].
    split; [apply (L 0 3)|apply (L 1 9)]; reflexivity.
Defined.

(** ** real_vec_permute2 *)

Lemma land_pow2 (c n : Z) :
  0 <= n -> Z.land c (2 ^ n) = if Z.testbit c n then 2 ^ n else 0.
Proof.
  intros Hn. apply Z.bits_inj'. intros m Hm.
  rewrite Z.land_spec, Z.pow2_bits_eqb by exact Hn.
  destruct (Z.eqb_spec n m) as [->|N].
  - rewrite andb_true_r. destruct (Z.testbit c m) eqn:B.
    + rewrite Z.pow2_bits_eqb by exact Hm. now rewrite Z.eqb_refl.
    + now rewrite Z.bits_0.
  - rewrite andb_false_r. destruct (Z.testbit c n).
    + rewrite Z.pow2_bits_eqb by exact Hn.
      destruct (Z.eqb_spec n m); [contradiction|reflexivity].
    + now rewrite Z.bits_0.
Qed.

Lemma permute2_src_bits {real_t : Type} (REAL_BYTES VLEN : Z)
      (ctrl_ci : list Z) (a b : list real_t) (i c : Z) :
  rd VLEN ctrl_ci i = Some c ->
  permute2_src REAL_BYTES VLEN ctrl_ci a b i
  = if Z.testbit c (if REAL_BYTES =? 4 then 4 else 3)
    then rd VLEN b (c mod ctrl_sel_bit REAL_BYTES)
    else rd VLEN a (c mod ctrl_sel_bit REAL_BYTES).
Proof.
  intros E. unfold permute2_src. rewrite E. cbv zeta.
  unfold ctrl_sel_bit, ctrl_idx_mask. destruct (REAL_BYTES =? 4).
  - change 16 with (2 ^ 4) at 1. rewrite land_pow2 by lia.
    change 15 with (Z.ones 4). rewrite Z.land_ones by lia.
    change (2 ^ 4) with 16. now destruct (Z.testbit c 4).
  - change 8 with (2 ^ 3) at 1. rewrite land_pow2 by lia.
    change 7 with (Z.ones 3). rewrite Z.land_ones by lia.
    change (2 ^ 3) with 8. now destruct (Z.testbit c 3).
Qed.

(** X21: [real_vec_permute2] takes lane [i] from [b] when the select
    bit of [ctrl[i]] (bit 4 for 4-byte reals, bit 3 for 8-byte reals) is
    set and from [a] otherwise, at the index held in the bits below the
    select bit.  When [VLEN] is above [ctrl_idx_mask] it returns for
    every control vector; when a masked index reaches [VLEN] it reads
    outside the array. *)
Theorem real_vec_permute2_lanes {real_t : Type} (REAL_BYTES VLEN : Z)
        (res : list real_t) (ctrl_ci : list Z) (a b : list real_t) :
  is_vec VLEN res -> is_vec VLEN ctrl_ci -> is_vec VLEN a -> is_vec VLEN b ->
  ((forall c, In c ctrl_ci -> c mod ctrl_sel_bit REAL_BYTES < VLEN) ->
   exists r,
     real_vec_permute2 REAL_BYTES VLEN res ctrl_ci a b = Some r /\
     is_vec VLEN r /\
     (forall i c, rd VLEN ctrl_ci i = Some c ->
                  rd VLEN r i =
                  if Z.testbit c (if REAL_BYTES =? 4 then 4 else 3)
                  then rd VLEN b (c mod ctrl_sel_bit REAL_BYTES)
                  else rd VLEN a (c mod ctrl_sel_bit REAL_BYTES))) /\
  (ctrl_idx_mask REAL_BYTES < VLEN ->
   exists r, real_vec_permute2 REAL_BYTES VLEN res ctrl_ci a b = Some r) /\
  ((exists c, In c ctrl_ci /\ VLEN <= c mod ctrl_sel_bit REAL_BYTES) ->
   real_vec_permute2 REAL_BYTES VLEN res ctrl_ci a b = None).
Proof.
  intros Vr Vc Va Vb. pose proof (is_vec_nonneg VLEN a Va) as H0.
  assert (Hpos : 0 < ctrl_sel_bit REAL_BYTES)
    by (unfold ctrl_sel_bit; destruct (REAL_BYTES =? 4); lia).
  assert (T : (forall c, In c ctrl_ci -> c mod ctrl_sel_bit REAL_BYTES < VLEN) ->
              exists r,
                real_vec_permute2 REAL_BYTES VLEN res ctrl_ci a b = Some r /\
                is_vec VLEN r /\
                (forall i c, rd VLEN ctrl_ci i = Some c ->
                             rd VLEN r i =
                             if Z.testbit c (if REAL_BYTES =? 4 then 4 else 3)
                             then rd VLEN b (c mod ctrl_sel_bit REAL_BYTES)
                             else rd VLEN a (c mod ctrl_sel_bit REAL_BYTES))).
  { intros Hc. unfold real_vec_permute2, for_int.
    destruct (fill_loop VLEN (permute2_src REAL_BYTES VLEN ctrl_ci a b)
                        (Z.to_nat (VLEN - 0)) 0 res)
      as [r [E [V R]]]; try lia; try assumption.
    { intros i Hi.
      destruct (rd VLEN ctrl_ci i) as [c|] eqn:Ei;
        [|exfalso; now apply (rd_Some VLEN ctrl_ci i Vc); [lia|]].
      rewrite (permute2_src_bits _ _ _ _ _ _ c Ei).
      pose proof (Z.mod_pos_bound c _ Hpos) as Hm.
      pose proof (Hc c (rd_In VLEN ctrl_ci i c Ei)) as Hlt.
      destruct (Z.testbit c _); apply rd_Some; try assumption; lia. }
    exists r. split; [exact E|]. split; [exact V|].
    intros i c Ei. rewrite R.
    pose proof (rd_inside VLEN ctrl_ci i c Ei) as Hi.
    destruct (Z.leb_spec 0 i); [|lia].
    destruct (Z.ltb_spec i (0 + Z.of_nat (Z.to_nat (VLEN - 0)))); [|lia].
    cbn [andb]. now apply permute2_src_bits. }
  split; [exact T|]. split.
  - intros Hm. destruct T as [r [E _]]; [|now exists r].
    intros c _. pose proof (Z.mod_pos_bound c _ Hpos) as B.
    unfold ctrl_idx_mask, ctrl_sel_bit in *. destruct (REAL_BYTES =? 4); lia.
  - intros [c [Hin Hout]]. unfold real_vec_permute2, for_int.
    apply (fill_loop_None VLEN); try lia; try assumption.
    destruct (In_rd VLEN ctrl_ci c Vc Hin) as [i [Hi Ei]].
    exists i. split; [lia|].
    rewrite (permute2_src_bits _ _ _ _ _ _ c Ei).
    destruct (Z.testbit c _); apply rd_outside; lia.
Qed.

Lemma real_vec_permute2_lanes_witness :
  real_vec_permute2 8 4 [0; 0; 0; 0] [0; 9; 5; 2] [10; 11; 12; 13] [20; 21; 22; 23]
  = None.
Proof.
  apply (real_vec_permute2_lanes 8 4 [0; 0; 0; 0] [0; 9; 5; 2]
                                 [10; 11; 12; 13] [20; 21; 22; 23]);
    try reflexivity.
  exists 5. split; [right; right; left; reflexivity|cbn; lia].
Defined.

(** ** loadFrom and storeTo *)

Lemma copy_loop {real_t : Type} (VLEN : Z) (src dst : list real_t) :
  is_vec VLEN src -> is_vec VLEN dst ->
  for_int 0 VLEN (fun i u => match rd VLEN src i with
                             | Some x => wr VLEN u i x
                             | None => None
                             end) dst = Some src.
Proof.
  intros Vs Vd. pose proof (is_vec_nonneg VLEN src Vs) as H0.
  unfold for_int.
  destruct (fill_loop VLEN (rd VLEN src) (Z.to_nat (VLEN - 0)) 0 dst)
    as [r [E [V R]]]; try lia; try assumption.
  { intros i Hi. apply rd_Some; [assumption|lia]. }
  rewrite E. f_equal. apply (vec_ext VLEN); [assumption|assumption|].
  intros i. rewrite R. unfold rd. zcases.
Qed.

(** X22: between vectors of [VLEN] lanes, [storeTo] leaves in the
    destination exactly the lanes of the vector and [loadFrom] leaves in
    the vector exactly the lanes of the source, so a load of what was
    stored gives the stored vector back; a load from fewer than [VLEN]
    lanes reads outside the source. *)
Theorem loadFrom_storeTo_roundtrip {real_t : Type} (VLEN : Z)
        (u mem v short : list real_t) :
  is_vec VLEN u -> is_vec VLEN mem -> is_vec VLEN v ->
  storeTo VLEN u mem = Some u /\
  loadFrom VLEN v u = Some u /\
  (forall mem', storeTo VLEN u mem = Some mem' ->
                loadFrom VLEN v mem' = Some u) /\
  (Z.of_nat (List.length short) < VLEN -> loadFrom VLEN v short = None).
Proof.
  intros Vu Vm Vv. pose proof (is_vec_nonneg VLEN u Vu) as H0.
  assert (S : storeTo VLEN u mem = Some u) by now apply copy_loop.
  assert (L : loadFrom VLEN v u = Some u) by now apply copy_loop.
  split; [exact S|]. split; [exact L|]. split.
  - intros mem' E. rewrite S in E. injection E as <-. exact L.
  - intros Hs. unfold loadFrom, for_int.
    apply (fill_loop_None VLEN); try lia; try assumption.
    exists (Z.of_nat (List.length short)). split; [lia|].
    unfold rd. destruct ((0 <=? _) && (_ <? VLEN)); [|reflexivity].
    apply nth_error_None. lia.
Qed.

Lemma loadFrom_storeTo_roundtrip_witness :
  storeTo 4 [10; 11; 12; 13] [0; 0; 0; 0] = Some [10; 11; 12; 13].
Proof.
  apply (loadFrom_storeTo_roundtrip 4 [10; 11; 12; 13] [0; 0; 0; 0]
                                    [1; 1; 1; 1] [7]);
    reflexivity.
Defined.

(** ** Comparison operators of real_vec_t *)

Lemma SFcompare_antisym (x y : double) :
  SFcompare y x = option_map CompOpp (SFcompare x y).
Proof.
  destruct x as [sx|sx| |sx mx ex], y as [sy|sy| |sy my ey];
    try reflexivity;
    try (destruct sx; reflexivity); try (destruct sy; reflexivity);
    try (destruct sx, sy; reflexivity).
  cbn [SFcompare option_map]. f_equal.
  destruct sx, sy; try reflexivity.
  - rewrite (Z.compare_antisym ex ey).
    destruct (ex ?= ey); cbn [CompOpp]; try reflexivity.
    rewrite (Pos.compare_cont_antisym mx my Eq). reflexivity.
  - rewrite (Z.compare_antisym ex ey).
    destruct (ex ?= ey); cbn [CompOpp]; try reflexivity.
    rewrite (Pos.compare_cont_antisym mx my Eq). reflexivity.
Qed.

Lemma SFcompare_refl (x : double) :
  SFcompare x x = if is_nan x then None else Some Eq.
Proof.
  destruct x as [s|s| |s m e]; try reflexivity; try (destruct s; reflexivity).
  cbn [SFcompare is_nan]. f_equal.
  rewrite Z.compare_refl, Pos.compare_cont_refl. now destruct s.
Qed.

Lemma SFcompare_not_nan (x y : double) :
  is_nan x = false -> is_nan y = false -> SFcompare x y <> None.
Proof.
  destruct x, y; cbn; try discriminate; intros; discriminate.
Qed.

Lemma flt_asym (x y : double) : flt x y = true -> flt y x = false.
Proof.
  unfold flt, SFltb. rewrite (SFcompare_antisym x y).
  destruct (SFcompare x y) as [[]|]; cbn; congruence.
Qed.

Lemma vec_gt_lt_loop (VLEN : Z) (a b : list double) (n : nat) :
  forall j, vec_gt_loop VLEN n j a b = vec_lt_loop VLEN n j b a.
Proof.
  induction n as [|n IH]; intros j; [reflexivity|].
  cbn [vec_gt_loop vec_lt_loop].
  destruct (rd VLEN a j) as [x|], (rd VLEN b j) as [y|]; try reflexivity.
  unfold fgt, flt. now rewrite IH.
Qed.

Lemma vec_lt_loop_total (VLEN : Z) (a b : list double) (n : nat) :
  is_vec VLEN a -> is_vec VLEN b ->
  forall j, 0 <= j -> j + Z.of_nat n <= VLEN ->
            exists r, vec_lt_loop VLEN n j a b = Some r.
Proof.
  intros Va Vb. induction n as [|n IH]; intros j H0 H1; [now exists false|].
  cbn [vec_lt_loop].
  destruct (rd VLEN a j) as [x|] eqn:Ea;
    [|exfalso; now apply (rd_Some VLEN a j Va); [lia|]].
  destruct (rd VLEN b j) as [y|] eqn:Eb;
    [|exfalso; now apply (rd_Some VLEN b j Vb); [lia|]].
  destruct (flt x y); [now exists true|].
  destruct (fgt x y); [now exists false|].
  apply IH; lia.
Qed.

Lemma vec_lt_loop_asym (VLEN : Z) (a b : list double) (n : nat) :
  forall j, vec_lt_loop VLEN n j a b = Some true ->
            vec_lt_loop VLEN n j b a = Some false.
Proof.
  induction n as [|n IH]; intros j; [discriminate|].
  cbn [vec_lt_loop].
  destruct (rd VLEN a j) as [x|], (rd VLEN b j) as [y|]; try discriminate.
  change (fgt x y) with (flt y x). change (fgt y x) with (flt x y).
  destruct (flt x y) eqn:L.
  - intros _. now rewrite (flt_asym x y L).
  - destruct (flt y x); [discriminate|]. apply IH.
Qed.

Lemma vec_lt_loop_irrefl (VLEN : Z) (a : list double) (n : nat) :
  is_vec VLEN a ->
  forall j, 0 <= j -> j + Z.of_nat n <= VLEN ->
            vec_lt_loop VLEN n j a a = Some false.
Proof.
  intros Va. induction n as [|n IH]; intros j H0 H1; [reflexivity|].
  cbn [vec_lt_loop].
  destruct (rd VLEN a j) as [x|] eqn:Ea;
    [|exfalso; now apply (rd_Some VLEN a j Va); [lia|]].
  change (fgt x x) with (flt x x). destruct (flt x x) eqn:L; [|apply IH; lia].
  pose proof (flt_asym x x L). congruence.
Qed.

Lemma vec_eq_loop_refl (VLEN : Z) (a : list double) (n : nat) :
  is_vec VLEN a ->
  forall j, 0 <= j -> j + Z.of_nat n = VLEN ->
            vec_eq_loop VLEN n j a a
            = Some (negb (existsb is_nan (skipn (Z.to_nat j) a))).
Proof.
  intros Va. induction n as [|n IH]; intros j H0 H1.
  - cbn [vec_eq_loop]. rewrite skipn_all2; [reflexivity|].
    unfold is_vec in Va. lia.
  - cbn [vec_eq_loop].
    destruct (rd VLEN a j) as [x|] eqn:Ea;
      [|exfalso; now apply (rd_Some VLEN a j Va); [lia|]].
    rewrite rd_nth_error in Ea by (assumption || lia).
    rewrite (skipn_nth_error a _ x Ea). cbn [existsb].
    unfold fne, SFeqb. rewrite SFcompare_refl.
    destruct (is_nan x); cbn [negb orb]; [reflexivity|].
    rewrite IH by lia. do 4 f_equal. lia.
Qed.

Lemma vec_loops_trichotomy (VLEN : Z) (a b : list double) (n : nat) :
  is_vec VLEN a -> is_vec VLEN b ->
  (forall x, In x a -> is_nan x = false) ->
  (forall y, In y b -> is_nan y = false) ->
  forall j, 0 <= j -> j + Z.of_nat n <= VLEN ->
            exactly_one (holds (vec_lt_loop VLEN n j a b))
                        (holds (vec_gt_loop VLEN n j a b))
                        (holds (vec_eq_loop VLEN n j a b)).
Proof.
  intros Va Vb Na Nb. unfold exactly_one, holds.
  induction n as [|n IH]; intros j H0 H1.
  - cbn. right. right. repeat split; congruence.
  - cbn [vec_lt_loop vec_gt_loop vec_eq_loop].
    destruct (rd VLEN a j) as [x|] eqn:Ea;
      [|exfalso; now apply (rd_Some VLEN a j Va); [lia|]].
    destruct (rd VLEN b j) as [y|] eqn:Eb;
      [|exfalso; now apply (rd_Some VLEN b j Vb); [lia|]].
    pose proof (SFcompare_not_nan x y (Na x (rd_In VLEN a j x Ea))
                                  (Nb y (rd_In VLEN b j y Eb))) as C.
    unfold flt, fgt, fne, SFltb, SFeqb. rewrite (SFcompare_antisym x y).
    destruct (SFcompare x y) as [[]|]; cbn [option_map CompOpp negb];
      [apply IH; lia| | |congruence].
    + left. repeat split; congruence.
    + right. left. repeat split; congruence.
Qed.

(** X23: on vectors of [VLEN] lanes the comparison operators return;
    [a > b] is [b < a]; [a < b] excludes [b < a]; [a < a] is false;
    [a == a] holds exactly when no lane of [a] is a NaN; and when
    neither vector has a NaN lane exactly one of [a < b], [a > b] and
    [a == b] holds. *)
Theorem real_vec_comparisons (VLEN : Z) (a b : list double) :
  is_vec VLEN a -> is_vec VLEN b ->
  (exists r, vec_lt VLEN a b = Some r) /\
  vec_gt VLEN a b = vec_lt VLEN b a /\
  (vec_lt VLEN a b = Some true -> vec_lt VLEN b a = Some false) /\
  vec_lt VLEN a a = Some false /\
  vec_eq VLEN a a = Some (negb (existsb is_nan a)) /\
  ((forall x, In x a -> is_nan x = false) ->
   (forall y, In y b -> is_nan y = false) ->
   exactly_one (holds (vec_lt VLEN a b)) (holds (vec_gt VLEN a b))
               (holds (vec_eq VLEN a b))).
Proof.
  intros Va Vb. pose proof (is_vec_nonneg VLEN a Va) as H0.
  unfold vec_lt, vec_gt, vec_eq.
  split; [apply vec_lt_loop_total; try assumption; lia|].
  split; [apply vec_gt_lt_loop|].
  split; [apply vec_lt_loop_asym|].
  split; [apply vec_lt_loop_irrefl; try assumption; lia|].
  split; [now rewrite vec_eq_loop_refl by (assumption || lia)|].
  intros Na Nb. apply vec_loops_trichotomy; try assumption; lia.
Qed.

Lemma real_vec_comparisons_witness :
  vec_eq 2 [d_one; S754_nan] [d_one; S754_nan] = Some false.
Proof.
  apply (real_vec_comparisons 2 [d_one; S754_nan] [d_one; S754_nan]);
    reflexivity.
Defined.

(* ------------------------------------------------------------------ *)
(** ** makeDimStr *)

Lemma concat_cons_cons (sep x y : string) (l : list string) :
  String.concat sep (x :: y :: l)
  = String.append x (String.append sep (String.concat sep (y :: l))).
Proof. reflexivity. Qed.

Lemma makeDimStr_fold (separator prefix suffix : string) (l : list Scalar) :
  forall (s : string) (n : Z),
    0 < n ->
    fst (fold_left
           (fun (st : string * Z) i =>
              let '(oss, n) := st in
              let oss := String.append oss
                           (if negb (n =? 0) then separator else EmptyString) in
              (String.append oss
                 (String.append prefix (String.append (getName i) suffix)),
               n + 1))
           l (s, n))
    = String.append s
        (fold_right (fun i acc =>
                       String.append separator
                         (String.append
                            (String.append prefix (String.append (getName i) suffix))
                            acc))
                    EmptyString l).
Proof.
  induction l as [|i l IH]; intros s n Hn; cbn [fold_left fold_right].
  - cbn [fst]. now rewrite append_nil_r.
  - destruct (Z.eqb_spec n 0); [lia|]. cbn [negb].
    rewrite IH by lia. now rewrite !append_assoc.
Qed.

(** X6: [makeDimStr(separator, prefix, suffix)] is the names of the
    dimensions in order, each between [prefix] and [suffix], joined by
    [separator] (no separator before the first or after the last); it
    does not depend on the values or on the orientation flag. *)
Theorem makeDimStr_joins_names (separator prefix suffix : string) (t : Tuple) :
  makeDimStr_with separator prefix suffix t
  = String.concat separator
      (map (fun d => String.append prefix (String.append d suffix)) (dimNames t)) /\
  (forall t', dimNames t' = dimNames t ->
              makeDimStr_with separator prefix suffix t'
              = makeDimStr_with separator prefix suffix t).
Proof.
  assert (M : forall u, makeDimStr_with separator prefix suffix u
                        = String.concat separator
                            (map (fun d => String.append prefix (String.append d suffix))
                                 (dimNames u))).
  { intros u. unfold makeDimStr_with, dimNames.
    destruct (_q u) as [|i l]; [reflexivity|].
    cbn [fold_left map]. cbn [Z.eqb negb]. cbn [String.append].
    rewrite makeDimStr_fold by lia. cbn [String.append].
    generalize (String.append prefix (String.append (getName i) suffix)).
    induction l as [|j l IH]; intros x.
    - cbn. now rewrite append_nil_r.
    - cbn [map fold_right]. rewrite concat_cons_cons. now rewrite <- IH. }
  split; [apply M|].
  intros t' E. now rewrite !M, E.
Qed.
